(** * Overmind: the Overseer scheduler and the SpawnGroup allocator

    A shallow embedding of [Overseer.ts] and [logistics/SpawnGroup.ts].
    Game ticks, priorities, hit points, energy amounts and path lengths are
    integers ([Z]); JavaScript objects used as dictionaries are finite maps
    ([gmap string _]); arrays are lists.  The bodies of concrete tasks
    (what a Directive or an Overlord does in [init] and [run]) are outside
    the scheduler: a task carries, for each of its methods, whether the call
    returns normally or throws. *)

From Stdlib Require Import ZArith Lia Ascii String Sorted Permutation.
From stdpp Require Import base option list gmap strings fin_maps pretty.

Local Open Scope Z_scope.

(** ** JavaScript odds and ends *)

(** The line feed written [\n] in the source's template strings. *)
Definition nl : string := String "010"%char EmptyString.

(** Truthiness of a number that is not NaN: every number but zero. *)
Definition truthy (n : Z) : bool := negb (n =? 0).

(** Truthiness of a string: every string but the empty one. *)
Definition truthy_string (s : string) : bool :=
  match s with EmptyString => false | String _ _ => true end.

(** [_.remove(array, predicate)] removes, in place, every element for which
    the predicate holds. *)
Definition lodash_remove {A} (p : A → bool) (l : list A) : list A :=
  List.filter (λ x, negb (p x)) l.

(** [Array.prototype.sort(comparefn)]: the elements reordered so that
    [comparefn a b <= 0] for [a] before [b], elements that compare equal
    keeping their order (the sort is stable since ES2019).  The element
    being placed goes in front of the first one it does not exceed. *)
Section ArraySort.
Context {A : Type} (comparefn : A → A → Z).

Fixpoint sort_insert (a : A) (l : list A) : list A :=
  match l with
  | [] => [a]
  | b :: l' => if comparefn a b <=? 0 then a :: l else b :: sort_insert a l'
  end.

Fixpoint array_sort (l : list A) : list A :=
  match l with
  | [] => []
  | a :: l' => sort_insert a (array_sort l')
  end.
End ArraySort.

(** ** Tasks *)

(** A thrown [Error]: its [name] and its [stack]. *)
Record Exn := mkExn { e_name : string; e_stack : string }.

(** What a [throw] hands to the nearest [catch]: any value.  The scheduler
    does two things with a caught value [e]: it reads [e.name] and
    [e.stack], and it writes [e.name].  For an [Error] object both work.
    Reading a property of [null] or of [undefined] raises a [TypeError];
    writing a property of a primitive (the file is a module, so strict code)
    or a property that is not writable raises one too.  Such a value
    carries the [TypeError] that touching it raises. *)
Inductive Thrown :=
| ThrownError (e : Exn)            (* an Error object *)
| ThrownUnwritable (raised : Exn)  (* a primitive, or an object whose name is read-only *)
| ThrownNullish (raised : Exn).    (* null or undefined *)

(** What a call of a task method does: return ([None]) or throw. *)
Definition Outcome : Type := option Thrown.

Record Overlord := mkOverlord {
  o_ref : string;            (* overlord.ref *)
  o_colony : string;         (* overlord.colony.name *)
  o_priority : Z;            (* overlord.priority *)
  o_preInit : Outcome;       (* overlord.preInit() *)
  o_init : Outcome;          (* overlord.init() *)
  o_run : Outcome            (* overlord.run() *)
}.

Record Directive := mkDirective {
  d_name : string;                          (* directive.name *)
  d_overlords : list (string * Overlord);   (* directive.overlords, by role *)
  d_init : Outcome;                         (* directive.init() *)
  d_run : Outcome                           (* directive.run() *)
}.

(** The method calls the scheduler makes, in the order it makes them. *)
Inductive Call :=
| DirectiveInit (name : string)
| DirectiveRun (name : string)
| OverlordPreInit (ref : string)
| OverlordInit (ref : string)
| OverlordRun (ref : string)
| RegisterLogisticsRequests (colony : string)
| HandleSafeMode (colony : string)
| PlaceDirectives (colony : string).

(** ** The Overseer and the process state it writes to *)

Record State := mkState {
  suspendUntil : gmap string Z;                   (* this.memory.suspendUntil *)
  overlords : list Overlord;                      (* this.overlords *)
  sorted : bool;                                  (* this.sorted *)
  overlordsByColony : gmap string (list Overlord);(* this.overlordsByColony *)
  directives : list Directive;                    (* this.directives *)
  exceptions : list Exn;                          (* Overmind.exceptions *)
  calls : list Call                               (* task methods invoked so far *)
}.

Definition set_suspendUntil (f : gmap string Z → gmap string Z) (st : State) : State :=
  mkState (f (suspendUntil st)) (overlords st) (sorted st) (overlordsByColony st)
          (directives st) (exceptions st) (calls st).
Definition set_overlords (f : list Overlord → list Overlord) (st : State) : State :=
  mkState (suspendUntil st) (f (overlords st)) (sorted st) (overlordsByColony st)
          (directives st) (exceptions st) (calls st).
Definition set_sorted (b : bool) (st : State) : State :=
  mkState (suspendUntil st) (overlords st) b (overlordsByColony st)
          (directives st) (exceptions st) (calls st).
Definition set_overlordsByColony
    (f : gmap string (list Overlord) → gmap string (list Overlord)) (st : State) : State :=
  mkState (suspendUntil st) (overlords st) (sorted st) (f (overlordsByColony st))
          (directives st) (exceptions st) (calls st).
Definition set_directives (f : list Directive → list Directive) (st : State) : State :=
  mkState (suspendUntil st) (overlords st) (sorted st) (overlordsByColony st)
          (f (directives st)) (exceptions st) (calls st).
Definition push_exception (e : Exn) (st : State) : State :=
  mkState (suspendUntil st) (overlords st) (sorted st) (overlordsByColony st)
          (directives st) (exceptions st ++ [e]) (calls st).
Definition record_call (c : Call) (st : State) : State :=
  mkState (suspendUntil st) (overlords st) (sorted st) (overlordsByColony st)
          (directives st) (exceptions st) (calls st ++ [c]).

(** The constructor, given the persisted memory and the process's exception
    list. *)
Definition new_Overseer (memory : gmap string Z) (excs : list Exn) : State :=
  mkState memory [] false ∅ [] excs [].

(** *** Computations that may throw *)

Inductive Completion (A : Type) :=
| Normal (a : A)
| Throw (e : Thrown).
Arguments Normal {A} a.
Arguments Throw {A} e.

Definition M (A : Type) : Type := State → State * Completion A.

Definition ret {A} (a : A) : M A := λ st, (st, Normal a).
Definition bind {A B} (m : M A) (k : A → M B) : M B :=
  λ st, match m st with
        | (st', Normal a) => k a st'
        | (st', Throw e) => (st', Throw e)
        end.
Definition gets {A} (f : State → A) : M A := λ st, (st, Normal (f st)).
Definition modify (f : State → State) : M unit := λ st, (f st, Normal tt).

Notation "'let*' x := m 'in' k" := (bind m (λ x, k))
  (at level 10, x name, m at level 100, k at level 200).
Notation "m ;; k" := (bind m (λ _, k))
  (at level 100, right associativity).

(** [for (let x of xs) body(x)]: an exception leaves the loop. *)
Fixpoint for_each {A} (xs : list A) (body : A → M unit) : M unit :=
  match xs with
  | [] => ret tt
  | x :: xs' => body x ;; for_each xs' body
  end.

(** A task method is called: the call is recorded, then it returns or
    throws. *)
Definition invoke (c : Call) (body : Outcome) : M unit :=
  λ st, match body with
        | None => (record_call c st, Normal tt)
        | Some e => (record_call c st, Throw e)
        end.

(** *** Overseer.try *)

Definition annotate (callbackText : string) (identifier : option string) (e : Exn) : Exn :=
  match identifier with
  | Some id =>
      if truthy_string id then
        mkExn ("Caught unhandled exception at " +:+ callbackText +:+ " (identifier: "
               +:+ id +:+ "): " +:+ nl +:+ e_name e +:+ nl +:+ e_stack e) (e_stack e)
      else
        mkExn ("Caught unhandled exception at " +:+ callbackText +:+ ": " +:+ nl
               +:+ e_name e +:+ nl +:+ e_stack e) (e_stack e)
  | None =>
      mkExn ("Caught unhandled exception at " +:+ callbackText +:+ ": " +:+ nl
             +:+ e_name e +:+ nl +:+ e_stack e) (e_stack e)
  end.

(** [callbackText] is what ['' + callback] evaluates to: the source text of
    the arrow function.  The [catch] block is not itself guarded: when
    reading [e.name] or writing it raises, that [TypeError] leaves [try]
    and nothing is pushed. *)
Definition try_ (USE_TRY_CATCH : bool) (callbackText : string) (callback : M unit)
    (identifier : option string) : M unit :=
  λ st,
    if USE_TRY_CATCH then
      match callback st with
      | (st', Normal _) => (st', Normal tt)
      | (st', Throw (ThrownError e)) =>
          (push_exception (annotate callbackText identifier e) st', Normal tt)
      | (st', Throw (ThrownUnwritable raised)) => (st', Throw (ThrownError raised))
      | (st', Throw (ThrownNullish raised)) => (st', Throw (ThrownError raised))
      end
    else callback st.

(** *** Registration *)

Definition registerDirective (d : Directive) (st : State) : State :=
  set_directives (λ ds, ds ++ [d]) st.

Definition registerOverlord (o : Overlord) (st : State) : State :=
  let st1 := set_overlords (λ os, os ++ [o]) st in
  let st2 :=
    match overlordsByColony st1 !! o_colony o with
    | Some _ => st1
    | None => set_overlordsByColony (λ m, <[o_colony o := []]> m) st1
    end in
  set_overlordsByColony (λ m, alter (λ os, os ++ [o]) (o_colony o) m) st2.

Definition removeOverlord (o : Overlord) (st : State) : State :=
  let st1 := set_overlords (lodash_remove (λ o', String.eqb (o_ref o') (o_ref o))) st in
  match overlordsByColony st1 !! o_colony o with
  | Some os =>
      set_overlordsByColony
        (λ m, <[o_colony o := lodash_remove (λ o', String.eqb (o_ref o') (o_ref o)) os]> m) st1
  | None => st1
  end.

Definition removeDirective (d : Directive) (st : State) : State :=
  let st1 := set_directives (lodash_remove (λ dir, String.eqb (d_name dir) (d_name d))) st in
  fold_left (λ s entry, removeOverlord (snd entry) s) (d_overlords d) st1.

(** *** Suspension *)

Definition isOverlordSuspended (now : Z) (o : Overlord) (st : State) : bool * State :=
  match suspendUntil st !! o_ref o with
  | Some until =>
      if truthy until then
        if now <? until then (true, st)
        else (false, set_suspendUntil (delete (o_ref o)) st)
      else (false, st)
  | None => (false, st)
  end.

Definition suspendOverlordFor (now : Z) (o : Overlord) (ticks : Z) (st : State) : State :=
  set_suspendUntil (λ m, <[o_ref o := now + ticks]> m) st.

Definition suspendOverlordUntil (o : Overlord) (untilTick : Z) (st : State) : State :=
  set_suspendUntil (λ m, <[o_ref o := untilTick]> m) st.

(** *** init and run *)

Definition by_priority (o1 o2 : Overlord) : Z := o_priority o1 - o_priority o2.

Definition sort_overlords (st : State) : State :=
  if sorted st then st
  else
    set_sorted true
      (set_overlordsByColony (fmap (array_sort by_priority))
         (set_overlords (array_sort by_priority) st)).

(** [isOverlordSuspended] as a step of a loop. *)
Definition check_suspended (now : Z) (o : Overlord) : M bool :=
  λ st, let '(b, st') := isOverlordSuspended now o st in (st', Normal b).

(** The body of the loop over the Overlords in [init]. *)
Definition init_overlord (USE_TRY_CATCH : bool) (now : Z) (o : Overlord) : M unit :=
  let* suspended := check_suspended now o in
  if suspended : bool then ret tt
  else
    invoke (OverlordPreInit (o_ref o)) (o_preInit o) ;;
    try_ USE_TRY_CATCH "() => overlord.init()"
         (invoke (OverlordInit (o_ref o)) (o_init o)) None.

Definition init (USE_TRY_CATCH : bool) (now : Z) (colonies : list string) : M unit :=
  let* ds := gets directives in
  for_each ds (λ d, invoke (DirectiveInit (d_name d)) (d_init d)) ;;
  modify sort_overlords ;;
  let* os := gets overlords in
  for_each os (init_overlord USE_TRY_CATCH now) ;;
  for_each colonies (λ c, invoke (RegisterLogisticsRequests c) None).

(** The body of the loop over the Overlords in [run]. *)
Definition run_overlord (USE_TRY_CATCH : bool) (now : Z) (o : Overlord) : M unit :=
  let* suspended := check_suspended now o in
  if suspended : bool then ret tt
  else
    try_ USE_TRY_CATCH "() => overlord.run()"
         (invoke (OverlordRun (o_ref o)) (o_run o)) None.

(** The evaluators of the last loop work on the colonies, not on the
    scheduler's registries; [handleSafeMode] and [handleColonyInvasions] are
    embedded further down, here their calls are recorded. *)
Definition run (USE_TRY_CATCH : bool) (now : Z) (colonies : list string) : M unit :=
  let* ds := gets directives in
  for_each ds (λ d, invoke (DirectiveRun (d_name d)) (d_run d)) ;;
  let* os := gets overlords in
  for_each os (run_overlord USE_TRY_CATCH now) ;;
  for_each colonies (λ c,
    invoke (HandleSafeMode c) None ;;
    invoke (PlaceDirectives c) None).

(** ** The colony evaluators *)

Record RoomPosition := mkPos { roomName : string; pos_x : Z; pos_y : Z }.

Record Hostile := mkHostile {
  h_pos : RoomPosition;
  h_boosts : list string       (* invader.boosts *)
}.

Record Structure := mkStructure {
  s_pos : RoomPosition;
  s_hits : Z;
  s_hitsMax : Z
}.

Record Room := mkRoom {
  room_name : string;
  hostiles : list Hostile;
  dangerousHostiles : list Hostile;
  dangerousPlayerHostiles : list Hostile;
  barriers : list Structure
}.

(** [ColonyStage]: the source names only its first member. *)
Inductive ColonyStage := Larva | Pupa | Adult.

Definition is_Larva (s : ColonyStage) : bool :=
  match s with Larva => true | _ => false end.

Record Controller := mkController {
  c_pos : RoomPosition;
  c_safeMode : option Z        (* ticks of safe mode left, when it is active *)
}.

Record Colony := mkColony {
  col_name : string;
  col_stage : ColonyStage;
  col_level : Z;
  col_room : Room;
  col_controller : Controller;
  col_spawns : list Structure;
  col_storage : option Structure;
  col_terminal : option Structure
}.

(** What the evaluators ask of the game and of the other subsystems. *)
Record Environment := mkEnvironment {
  onPublicServer : bool;
  (* pos.findInRange(objects, range) *)
  findInRange : RoomPosition → list Hostile → Z → list Hostile;
  (* Pathing.isReachable(start, end, obstacles) *)
  isReachable : RoomPosition → RoomPosition → list RoomPosition → bool;
  (* the code returned by the n-th call of controller.activateSafeMode() *)
  activateSafeMode : nat → Z;
  (* RoomIntel.getSafetyData(roomName).unsafeFor *)
  unsafeFor : string → Z;
  (* DirectiveInvasionDefense.requiredRCL *)
  invasionDefense_requiredRCL : Z
}.

Definition OK : Z := 0.

Definition option_truthy (o : option Z) : bool :=
  match o with Some n => truthy n | None => false end.

(** *** handleSafeMode *)

Inductive SafeModeEvent :=
| ActivateSafeMode (ret : Z)                       (* a call, with what it returned *)
| CreateTerminalEvacuate (pos : RoomPosition).     (* createIfNotPresent(pos, 'room') *)

Definition is_activation (e : SafeModeEvent) : bool :=
  match e with ActivateSafeMode _ => true | _ => false end.

Definition activations (events : list SafeModeEvent) : nat :=
  length (List.filter is_activation events).

(** The body of either trigger: try to activate; the flag returned says
    whether the function returns here. *)
Definition trigger_safe_mode (env : Environment) (colony : Colony)
    (events : list SafeModeEvent) : list SafeModeEvent * bool :=
  let ret := activateSafeMode env (activations events) in
  let events1 := events ++ [ActivateSafeMode ret] in
  if negb (ret =? OK) && negb (option_truthy (c_safeMode (col_controller colony))) then
    match col_terminal colony with
    | Some terminal => (events1 ++ [CreateTerminalEvacuate (s_pos terminal)], false)
    | None => (events1, false)
    end
  else (events1, true).

Fixpoint scan_structures (env : Environment) (colony : Colony)
    (structures : list Structure) (events : list SafeModeEvent)
    : list SafeModeEvent * bool :=
  match structures with
  | [] => (events, false)
  | structure :: rest =>
      if (s_hits structure <? s_hitsMax structure)
         && (0 <? Z.of_nat (length (findInRange env (s_pos structure)
                                      (dangerousHostiles (col_room colony)) 2)))
      then
        let '(events1, returned) := trigger_safe_mode env colony events in
        if returned then (events1, true) else scan_structures env colony rest events1
      else scan_structures env colony rest events
  end.

Definition criticalStructures (colony : Colony) : list Structure :=
  col_spawns colony ++ option_list (col_storage colony) ++ option_list (col_terminal colony).

Definition handleSafeMode (env : Environment) (colony : Colony) : list SafeModeEvent :=
  if is_Larva (col_stage colony) && onPublicServer env then []
  else
    let '(events, returned) := scan_structures env colony (criticalStructures colony) [] in
    if returned then events
    else
      match dangerousHostiles (col_room colony), col_spawns colony with
      | firstHostile :: _, spawn0 :: _ =>
          let barriers := map s_pos (barriers (col_room colony)) in
          if isReachable env (h_pos firstHostile) (s_pos spawn0) barriers then
            fst (trigger_safe_mode env colony events)
          else events
      | _, _ => events
      end.

(** *** handleColonyInvasions *)

Inductive DirectiveKind :=
| InvasionDefense | TerminalEvacuate | OutpostDefense | Guard | Bootstrap
| NukeResponse | Outpost | Colonize.

#[global] Instance DirectiveKind_eq_dec : EqDecision DirectiveKind.
Proof. solve_decision. Defined.

Record Flag := mkFlag { f_kind : DirectiveKind; f_pos : RoomPosition }.







(** ** SpawnGroup *)

Definition Route : Type := gmap string bool.

Record SpawnGroupMemory := mkMemory {
  mem_colonies : list string;
  mem_distances : gmap string Z;
  mem_routes : gmap string Route;
  mem_expiration : Z
}.

Definition SpawnGroupMemoryDefaults : SpawnGroupMemory := mkMemory [] ∅ ∅ 0.

Definition MAX_LINEAR_DISTANCE : Z := 10.
Definition MAX_PATH_DISTANCE : Z := 600.

Record SpawnGroupSettings := mkSettings {
  maxPathDistance : Z;
  requiredRCL : Z;
  flexibleEnergy : bool
}.

Definition defaultSettings : SpawnGroupSettings := mkSettings 250 7 true.

(** [Partial<SpawnGroupSettings>] *)
Record PartialSettings := mkPartial {
  p_maxPathDistance : option Z;
  p_requiredRCL : option Z;
  p_flexibleEnergy : option bool
}.

(** [_.defaults(settings, defaultSettings)] *)
Definition lodash_defaults (settings : PartialSettings) (defaults : SpawnGroupSettings)
    : SpawnGroupSettings :=
  mkSettings (default (maxPathDistance defaults) (p_maxPathDistance settings))
             (default (requiredRCL defaults) (p_requiredRCL settings))
             (default (flexibleEnergy defaults) (p_flexibleEnergy settings)).

(** A room of [Game.rooms]. *)
Record GameRoom := mkGameRoom {
  r_name : string;
  r_my : bool;
  r_controllerLevel : Z;
  r_energyCapacityAvailable : Z;
  r_spawns : list RoomPosition          (* the positions of room.spawns *)
}.

Record PathResult := mkPath {
  incomplete : bool;
  path_length : Z                       (* path.path.length *)
}.

Record World := mkWorld {
  Game_time : Z;
  Game_rooms : gmap string GameRoom;
  getAllColonyRooms : list GameRoom;
  getRoomLinearDistance : string → string → Z;
  (* Pathing.findRoute: a route, or undefined *)
  findRoute : string → string → option Route;
  findPathToRoom : RoomPosition → string → option Route → PathResult;
  publicServer : bool;
  (* the jitter Math.random() yields for this recomputation *)
  jitter : Z
}.

Definition DEFAULT_RECACHE_TIME (W : World) : Z :=
  if publicServer W then 2000 else 1000.

(** Modelled from the spec: [getCacheExpiration(timeout, offset)] of
    [utilities/utils], which is not among the sources: "current tick + a
    base recache interval + bounded jitter"; the jitter stays within
    [offset] of zero. *)
Definition getCacheExpiration (W : World) (timeout offset : Z) : Z :=
  Game_time W + timeout + Z.max (- offset) (Z.min offset (jitter W)).

(** The persisted memory: [Memory.rooms[roomName].spawnGroup]. *)
Abbreviation Memory := (gmap string SpawnGroupMemory).

(** Modelled from the spec: [Mem.wrap(memory, name, defaults)] of
    [memory/Memory], which is not among the sources: the persisted object
    under the name, created from the defaults when there is none ("persisted,
    keyed by anchor location"). *)
Definition Mem_wrap (memory : Memory) (room : string) (defaults : SpawnGroupMemory)
    : Memory :=
  match memory !! room with
  | Some _ => memory
  | None => <[room := defaults]> memory
  end.

Definition this_memory (memory : Memory) (room : string) : SpawnGroupMemory :=
  default SpawnGroupMemoryDefaults (memory !! room).

(** One round of the loop over the colony rooms in range. *)
Definition consider_colony (W : World) (anchor : string)
    (acc : list string * gmap string Route * gmap string Z) (colonyRoom : GameRoom)
    : list string * gmap string Route * gmap string Z :=
  let '(colonies, routes, distances) := acc in
  match r_spawns colonyRoom with
  | spawn :: _ =>
      let route := findRoute W (r_name colonyRoom) anchor in
      let path := findPathToRoom W spawn anchor route in
      match route with
      | Some r =>
          if negb (incomplete path) && (path_length path <=? MAX_PATH_DISTANCE) then
            (colonies ++ [r_name colonyRoom],
             <[r_name colonyRoom := r]> routes,
             <[r_name colonyRoom := path_length path]> distances)
          else acc
      | None => acc
      end
  | [] => acc
  end.

Definition set_mem_colonies (v : list string) (mem : SpawnGroupMemory) : SpawnGroupMemory :=
  mkMemory v (mem_distances mem) (mem_routes mem) (mem_expiration mem).
Definition set_mem_routes (v : gmap string Route) (mem : SpawnGroupMemory)
    : SpawnGroupMemory :=
  mkMemory (mem_colonies mem) (mem_distances mem) v (mem_expiration mem).
Definition set_mem_distances (v : gmap string Z) (mem : SpawnGroupMemory)
    : SpawnGroupMemory :=
  mkMemory (mem_colonies mem) v (mem_routes mem) (mem_expiration mem).
Definition set_mem_expiration (v : Z) (mem : SpawnGroupMemory) : SpawnGroupMemory :=
  mkMemory (mem_colonies mem) (mem_distances mem) (mem_routes mem) v.

Definition recalculateColonies (W : World) (anchor : string) (mem : SpawnGroupMemory)
    : SpawnGroupMemory :=
  let colonyRoomsInRange :=
    List.filter (λ room, getRoomLinearDistance W (r_name room) anchor <=? MAX_LINEAR_DISTANCE)
      (getAllColonyRooms W) in
  let '(colonies, routes, distances) :=
    fold_left (consider_colony W anchor) colonyRoomsInRange ([], ∅, ∅) in
  set_mem_expiration (getCacheExpiration W (DEFAULT_RECACHE_TIME W) 25)
    (set_mem_distances distances
       (set_mem_routes routes
          (set_mem_colonies colonies mem))).

(** [_.max] of a list of numbers: minus infinity for the empty list. *)
Inductive Maximum := MinusInfinity | Finite (n : Z).

Definition lodash_max (l : list Z) : Maximum :=
  match l with
  | [] => MinusInfinity
  | n :: l' => Finite (fold_left Z.max l' n)
  end.

Record SpawnRequest := mkRequest {
  role : string;                        (* request.setup.role *)
  (* bodyCost(request.setup.generateBody(energyCapacity)) *)
  maxBodyCost : Maximum → Z
}.

Record SpawnGroupInitializer := mkInitializer {
  i_ref : string;
  i_pos : RoomPosition
}.

Record SpawnGroup := mkSpawnGroup {
  sg_requests : list SpawnRequest;
  sg_roomName : string;
  sg_colonyNames : list string;
  sg_energyCapacityAvailable : Maximum;
  sg_ref : string;
  sg_settings : SpawnGroupSettings
}.

Definition colony_usable (W : World) (mem : SpawnGroupMemory)
    (settings : SpawnGroupSettings) (name : string) : bool :=
  match mem_distances mem !! name with
  | Some d =>
      (d <=? maxPathDistance settings)
      && match Game_rooms W !! name with
         | Some room => r_my room && (r_controllerLevel room >=? requiredRCL settings)
         | None => false
         end
  | None => false
  end.

(** The constructor: the instance, and the persisted memory as it leaves
    it.  (The average distance kept for display and the entry in
    [Overmind.spawnGroups] play no part in the allocation.) *)
Definition new_SpawnGroup (W : World) (initializer : SpawnGroupInitializer)
    (settings : PartialSettings) (memory : Memory) : SpawnGroup * Memory :=
  let room := roomName (i_pos initializer) in
  let memory1 := Mem_wrap memory room SpawnGroupMemoryDefaults in
  let settings' := lodash_defaults settings defaultSettings in
  let memory2 :=
    if Game_time W >=? mem_expiration (this_memory memory1 room)
    then <[room := recalculateColonies W room (this_memory memory1 room)]> memory1
    else memory1 in
  let mem := this_memory memory2 room in
  let colonyNames := List.filter (colony_usable W mem settings') (mem_colonies mem) in
  let energy :=
    lodash_max (omap (λ name, r_energyCapacityAvailable <$> Game_rooms W !! name) colonyNames) in
  (mkSpawnGroup [] room colonyNames energy (i_ref initializer +:+ ":SG") settings', memory2).

Definition refresh (sg : SpawnGroup) (memory : Memory) : SpawnGroup * Memory :=
  (mkSpawnGroup [] (sg_roomName sg) (sg_colonyNames sg) (sg_energyCapacityAvailable sg)
     (sg_ref sg) (sg_settings sg),
   Mem_wrap memory (sg_roomName sg) SpawnGroupMemoryDefaults).

Definition enqueue (request : SpawnRequest) (sg : SpawnGroup) : SpawnGroup :=
  mkSpawnGroup (sg_requests sg ++ [request]) (sg_roomName sg) (sg_colonyNames sg)
    (sg_energyCapacityAvailable sg) (sg_ref sg) (sg_settings sg).

(** *** The producers *)

Record Hatchery := mkHatchery {
  hatch_roomName : string;                   (* hatchery.pos.roomName *)
  hatch_energyCapacityAvailable : Z;         (* hatchery.room.energyCapacityAvailable *)
  hatch_queue : list SpawnRequest;           (* what enqueue has been given *)
  hatch_availability : list SpawnRequest → Z (* nextAvailability, given the queue *)
}.

Definition nextAvailability (h : Hatchery) : Z := hatch_availability h (hatch_queue h).

Definition hatchery_enqueue (request : SpawnRequest) (h : Hatchery) : Hatchery :=
  mkHatchery (hatch_roomName h) (hatch_energyCapacityAvailable h)
    (hatch_queue h ++ [request]) (hatch_availability h).

(** [Overmind.colonies], each colony with its hatchery if it has one, and
    the warnings logged.  A hatchery is referred to by the name of its
    colony. *)
Record Overmind := mkOvermind {
  om_colonies : gmap string (option Hatchery);
  om_warnings : list string
}.

Definition hatchery_of (om : Overmind) (name : string) : option Hatchery :=
  om_colonies om !! name ≫= id.

(** Modelled from the spec: [minBy(objects, iteratee)] of [utilities/utils],
    which is not among the sources: "select the one minimizing"; an object
    for which the iteratee yields no number ("a falsy sentinel inside the
    comparison function") is excluded; of several minimal ones the first is
    taken. *)
Fixpoint minBy_from {T} (iteratee : T → option Z) (objects : list T)
    (best : option (T * Z)) : option (T * Z) :=
  match objects with
  | [] => best
  | obj :: rest =>
      match iteratee obj, best with
      | Some val, Some (_, minVal) =>
          if val <? minVal then minBy_from iteratee rest (Some (obj, val))
          else minBy_from iteratee rest best
      | Some val, None => minBy_from iteratee rest (Some (obj, val))
      | None, _ => minBy_from iteratee rest best
      end
  end.

Definition minBy {T} (objects : list T) (iteratee : T → option Z) : option T :=
  fst <$> minBy_from iteratee objects None.

Definition FIXED_HANDOFF : Z := 25.

(** [distanceTo]: no number when the room has no cached distance. *)
Definition distanceTo (mem : SpawnGroupMemory) (h : Hatchery) : option Z :=
  (λ d, d + FIXED_HANDOFF) <$> mem_distances mem !! hatch_roomName h.

Definition expected_wait (mem : SpawnGroupMemory) (om : Overmind) (name : string)
    : option Z :=
  h ← hatchery_of om name; (λ d, nextAvailability h + d) <$> distanceTo mem h.

Definition can_afford (om : Overmind) (maxCost : Z) (name : string) : bool :=
  match hatchery_of om name with
  | Some h => hatch_energyCapacityAvailable h >=? maxCost
  | None => false
  end.

Definition warning_text (request : SpawnRequest) (room : string) : string :=
  "Could not enqueue creep " +:+ role request +:+ " from spawnGroup in " +:+ room.

(** The body of the loop over the requests; [hatcheries] are the hatcheries
    collected before the loop. *)
Definition assign_request (mem : SpawnGroupMemory) (sg : SpawnGroup)
    (hatcheries : list string) (om : Overmind) (request : SpawnRequest) : Overmind :=
  let maxCost := maxBodyCost request (sg_energyCapacityAvailable sg) in
  let okHatcheries := List.filter (can_afford om maxCost) hatcheries in
  match minBy okHatcheries (expected_wait mem om) with
  | Some bestHatchery =>
      mkOvermind (alter (fmap (hatchery_enqueue request)) bestHatchery (om_colonies om))
                 (om_warnings om)
  | None =>
      mkOvermind (om_colonies om)
                 (om_warnings om ++ [warning_text request (sg_roomName sg)])
  end.

Definition collect_hatcheries (sg : SpawnGroup) (om : Overmind) : list string :=
  List.filter (λ name, bool_decide (is_Some (hatchery_of om name))) (sg_colonyNames sg).

Definition SpawnGroup_init (memory : Memory) (sg : SpawnGroup) (om : Overmind) : Overmind :=
  let mem := this_memory memory (sg_roomName sg) in
  let hatcheries := collect_hatcheries sg om in
  fold_left (assign_request mem sg hatcheries) (sg_requests sg) om.

(** ** More of the Overseer *)

(** *** getCreepReport *)

(** [overlord.creepUsageReport]: for each role, in the order of its keys,
    the pair (current, needed), or undefined.  (Role names are not array
    indices, so an object keeps them in the order they were added.) *)
Definition UsageReport : Type := list (string * option (Z * Z)).

(** [roleOccupancy[role]], created as [[0, 0]] when it is not there, gets
    the report added. *)
Fixpoint add_to_occupancy (role : string) (report : Z * Z)
    (occupancy : list (string * (Z * Z))) : list (string * (Z * Z)) :=
  match occupancy with
  | [] => [(role, (0 + fst report, 0 + snd report))]
  | (k, v) :: rest =>
      if String.eqb k role then (k, (fst v + fst report, snd v + snd report)) :: rest
      else (k, v) :: add_to_occupancy role report rest
  end.

(** One round of the inner loop: the occupancy and the log so far. *)
Definition report_role (now : Z) (o : Overlord)
    (acc : list (string * (Z * Z)) * list string) (entry : string * option (Z * Z))
    : list (string * (Z * Z)) * list string :=
  match snd entry with
  | None =>
      if Z.rem now 100 =? 0 then
        (fst acc, snd acc ++ ["Role " +:+ fst entry +:+ " is not reported by "
                               +:+ o_ref o +:+ "!"])
      else acc
  | Some report => (add_to_occupancy (fst entry) report (fst acc), snd acc)
  end.

Definition roleOccupancy (creepUsageReport : Overlord → UsageReport) (now : Z)
    (os : list Overlord) : list (string * (Z * Z)) * list string :=
  fold_left (λ acc o, fold_left (report_role now o) (creepUsageReport o) acc) os ([], []).

(** The rows of the report and what was logged; [None] when the colony has
    no list in [overlordsByColony], where the loop throws a TypeError. *)
Definition getCreepReport (creepUsageReport : Overlord → UsageReport) (now : Z)
    (colonyName : string) (st : State) : option (list (string * string) * list string) :=
  match overlordsByColony st !! colonyName with
  | None => None
  | Some os =>
      let '(occupancy, logs) := roleOccupancy creepUsageReport now os in
      Some (map (λ row, (fst row, pretty (fst (snd row)) +:+ "/" +:+ pretty (snd (snd row))))
              occupancy,
            logs)
  end.

(** *** handleOutpostDefense *)

(** An outpost: the room and the flags in it ([room.flags]). *)
Record OutpostRoom := mkOutpost {
  out_room : Room;
  out_flags : list Flag
}.

Record Cartography := mkCartography {
  roomType : string → string;                  (* Cartographer.roomType *)
  ROOMTYPE_SOURCEKEEPER : string;
  findPathablePosition : string → RoomPosition (* Pathing.findPathablePosition *)
}.

(** The two ways the evaluators place a Directive. *)
Inductive Placement :=
| CreateIfNotPresent (kind : DirectiveKind) (pos : RoomPosition)  (* scope 'room' *)
| Create (kind : DirectiveKind) (pos : RoomPosition).

(** [DirectiveGuard.filter(flag) || DirectiveOutpostDefense.filter(flag)] *)
Definition is_defense_flag (f : Flag) : bool :=
  bool_decide (f_kind f = Guard) || bool_decide (f_kind f = OutpostDefense).

Fixpoint handleOutpostDefense (cart : Cartography) (outposts : list OutpostRoom)
    : list Placement :=
  match outposts with
  | [] => []
  | outpost :: rest =>
      let room := out_room outpost in
      if 0 <? Z.of_nat (length (dangerousPlayerHostiles room)) then
        [CreateIfNotPresent OutpostDefense (findPathablePosition cart (room_name room))]
      else
        (if negb (String.eqb (roomType cart (room_name room)) (ROOMTYPE_SOURCEKEEPER cart))
         then
           let defenseFlags := List.filter is_defense_flag (out_flags outpost) in
           match dangerousHostiles room with
           | hostile :: _ =>
               if (length defenseFlags =? 0)%nat then [Create Guard (h_pos hostile)] else []
           | [] => []
           end
         else [])
        ++ handleOutpostDefense cart rest
  end.

(** *** placeDirectives *)

(** What [placeDirectives] evaluates, in order; the pioneer fallback, which
    is written out in it, by the Directive it places. *)
Inductive Evaluation :=
| EvalBootstrapping
| EvalOutpostDefense
| EvalColonyInvasions
| EvalNukeResponse
| EvalNewOutposts
| EvalColonize (pos : RoomPosition).

(** [Overseer.settings.outpostCheckFrequency] *)
Definition outpostCheckFrequency (env : Environment) : Z :=
  if onPublicServer env then 250 else 100.

Record Autonomy := mkAutonomy {
  getAutonomyLevel : Z;
  Autonomy_Manual : Z;
  (* Game.rooms[name].find(FIND_MY_SPAWNS).length *)
  find_my_spawns : string → nat
}.

(** [id] is [colony.id]. *)
Definition placeDirectives (env : Environment) (cart : Cartography) (auto : Autonomy)
    (now : Z) (colony : Colony) (id : Z) : list Evaluation :=
  [EvalBootstrapping; EvalOutpostDefense; EvalColonyInvasions; EvalNukeResponse]
  ++ (if Autonomy_Manual auto <? getAutonomyLevel auto then
        (if Z.rem now (outpostCheckFrequency env) =? 2 * id then [EvalNewOutposts] else [])
        ++ (if (Z.rem now 25 =? 0) && (length (col_spawns colony) =? 0)%nat then
              if (find_my_spawns auto (col_name colony) =? 0)%nat then
                [EvalColonize (findPathablePosition cart (room_name (col_room colony)))]
              else []
            else [])
      else []).

(** * The vocabulary of the properties, and data to try them on *)

Definition priority_le (o1 o2 : Overlord) : Prop := o_priority o1 <= o_priority o2.

(** Sorted by non-decreasing priority. *)
Definition priority_sorted (l : list Overlord) : Prop := Sorted priority_le l.

Definition with_priority (p : Z) (l : list Overlord) : list Overlord :=
  List.filter (λ o, o_priority o =? p) l.

(** [l'] holds the elements of [l], those of equal priority in the order
    they have in [l]. *)
Definition stable_reordering (l l' : list Overlord) : Prop :=
  l' ≡ₚ l ∧ (∀ p, with_priority p l' = with_priority p l).

(** What [init] and [run] leave alone but for the sort. *)
Definition registries (st : State) :=
  (overlords st, overlordsByColony st, sorted st, directives st).

Definition keeps_registries {A} (m : M A) : Prop :=
  ∀ st, registries (fst (m st)) = registries st.

(** The registrations and removals open to the tasks. *)
Inductive RegistryOp :=
| RegisterDirective (d : Directive)
| RemoveDirective (d : Directive)
| RegisterOverlord (o : Overlord)
| RemoveOverlord (o : Overlord).

Definition apply_op (st : State) (op : RegistryOp) : State :=
  match op with
  | RegisterDirective d => registerDirective d st
  | RemoveDirective d => removeDirective d st
  | RegisterOverlord o => registerOverlord o st
  | RemoveOverlord o => removeOverlord o st
  end.

Definition apply_ops (ops : list RegistryOp) (st : State) : State :=
  fold_left apply_op ops st.

Definition overlordA : Overlord := mkOverlord "A" "W1N1" 10 None None None.
Definition overlordB : Overlord := mkOverlord "B" "W1N1" 5 None None None.

(** Whether the ledger holds a live record for the reference. *)
Definition suspended_at (now : Z) (m : gmap string Z) (ref : string) : bool :=
  match m !! ref with
  | Some until => truthy until && (now <? until)
  | None => false
  end.

(** The Overlords the scheduler visits: those without a live suspension. *)
Definition active (now : Z) (m : gmap string Z) (os : list Overlord) : list Overlord :=
  List.filter (λ o, negb (suspended_at now m (o_ref o))) os.

(** The task returns, or what it throws is an [Error] object. *)
Definition throws_only_errors (out : Outcome) : Prop :=
  match out with
  | None | Some (ThrownError _) => True
  | Some (ThrownUnwritable _) | Some (ThrownNullish _) => False
  end.

(** The record of a caught [Error] when [try] is given no identifier: the
    same object, its name now "Caught unhandled exception at", the source
    text of the callback, a colon, and on two further lines the old name and
    the stack. *)
Definition renamed (callbackText : string) (e : Exn) : Exn :=
  mkExn ("Caught unhandled exception at " +:+ callbackText +:+ ": " +:+ nl
         +:+ e_name e +:+ nl +:+ e_stack e)
        (e_stack e).

(** What [Overmind.exceptions] receives from a pass over the Overlords. *)
Definition caught (text : string) (body : Overlord → Outcome) (os : list Overlord)
    : list Exn :=
  omap (λ o, match body o with
             | Some (ThrownError e) => Some (renamed text e)
             | _ => None
             end) os.

Definition typeError : Thrown := ThrownError (mkExn "TypeError" "at init").

(** An Overlord whose [init] throws [null]. *)
Definition nullThrower : Overlord :=
  mkOverlord "N" "W1N1" 1 None
    (Some (ThrownNullish (mkExn "TypeError" "at Overseer.try"))) None.

Definition faultyX : Overlord := mkOverlord "X" "W1N1" 1 None (Some typeError) None.
Definition steadyY : Overlord := mkOverlord "Y" "W1N1" 2 None None None.
Definition faultyZ : Overlord := mkOverlord "Z" "W2N2" 3 None (Some typeError) None.

Definition three_overlords : State :=
  registerOverlord faultyZ (registerOverlord steadyY (registerOverlord faultyX
    (new_Overseer ∅ []))).

Definition brokenDirective : Directive := mkDirective "broken" [] (Some typeError) None.
Definition soundDirective : Directive := mkDirective "sound" [] None None.

Definition has_record (o : Overlord) (st : State) : bool :=
  bool_decide (is_Some (suspendUntil st !! o_ref o)).

(** [isOverlordSuspended(o)] called at each of the ticks in turn, nothing
    else writing to the ledger in between: for every call, what it returned
    and whether it deleted the record of [o]. *)
Fixpoint read_at (o : Overlord) (ticks : list Z) (st : State) : list (bool * bool) :=
  match ticks with
  | [] => []
  | now :: rest =>
      let '(b, st') := isOverlordSuspended now o st in
      (b, has_record o st && negb (has_record o st')) :: read_at o rest st'
  end.

(** A call of [activateSafeMode] after which [handleSafeMode] returns: it
    succeeded, or safe mode is on already. *)
Definition decided (colony : Colony) (e : SafeModeEvent) : bool :=
  match e with
  | ActivateSafeMode ret => (ret =? OK) || option_truthy (c_safeMode (col_controller colony))
  | CreateTerminalEvacuate _ => false
  end.

(** Events without a decision, then the deciding call if the function
    returned on one. *)
Definition ends_on_decision (colony : Colony) (new : list SafeModeEvent) (returned : bool)
    : Prop :=
  ∃ quiet tail, new = quiet ++ tail
    ∧ Forall (λ e, decided colony e = false) quiet
    ∧ (if returned then ∃ e, tail = [e] ∧ decided colony e = true else tail = []).

Definition spawnPos : RoomPosition := mkPos "W1N1" 25 25.
Definition terminalPos : RoomPosition := mkPos "W1N1" 30 30.
Definition controllerPos : RoomPosition := mkPos "W1N1" 10 10.
Definition raider : Hostile := mkHostile (mkPos "W1N1" 26 26) [].

Definition besieged : Colony :=
  mkColony "W1N1" Adult 6
    (mkRoom "W1N1" [raider] [raider] [raider] [])
    (mkController controllerPos None)
    [mkStructure spawnPos 4000 5000; mkStructure (mkPos "W1N1" 27 25) 100 5000]
    None
    (Some (mkStructure terminalPos 3000 3000)).

Definition ERR_NOT_ENOUGH_RESOURCES : Z := -6.

(** Everything is in range and reachable; the activation fails every time. *)
Definition no_safe_mode_left : Environment :=
  mkEnvironment false (λ _ hs _, hs) (λ _ _ _, true) (λ _, ERR_NOT_ENOUGH_RESOURCES)
    (λ _, 0) 3.

(** The same, but the second activation succeeds. *)
Definition second_try_works : Environment :=
  mkEnvironment false (λ _ hs _, hs) (λ _ _ _, true)
    (λ n, match n with 1%nat => OK | _ => ERR_NOT_ENOUGH_RESOURCES end)
    (λ _, 0) 3.






Definition invaded (n : nat) : Colony :=
  mkColony "W1N1" Adult 6
    (mkRoom "W1N1" (replicate n raider) [] [] [])
    (mkController controllerPos None) [mkStructure spawnPos 5000 5000] None None.

(** The room has been unsafe for 25 ticks; the required level is 3. *)
Definition unsafe_for_25 : Environment :=
  mkEnvironment false (λ _ _ _, []) (λ _ _ _, false) (λ _, OK) (λ _, 25) 3.

(** Every colony's list holds Overlords of that colony only. *)
Definition by_colony_wf (st : State) : Prop :=
  ∀ c l, overlordsByColony st !! c = Some l → Forall (λ o, o_colony o = c) l.

(** The states the scheduler can be in. *)
Inductive reachable : State → Prop :=
| reach_new memory excs : reachable (new_Overseer memory excs)
| reach_registerDirective d st : reachable st → reachable (registerDirective d st)
| reach_removeDirective d st : reachable st → reachable (removeDirective d st)
| reach_registerOverlord o st : reachable st → reachable (registerOverlord o st)
| reach_suspendFor now o ticks st :
    reachable st → reachable (suspendOverlordFor now o ticks st)
| reach_suspendUntil o tick st : reachable st → reachable (suspendOverlordUntil o tick st)
| reach_isSuspended now o st :
    reachable st → reachable (snd (isOverlordSuspended now o st))
| reach_init tc now cols st : reachable st → reachable (fst (init tc now cols st))
| reach_run tc now cols st : reachable st → reachable (fst (run tc now cols st)).

(** [removeOverlord] on each Overlord of a Directive in turn. *)
Definition remove_all (entries : list (string * Overlord)) (st : State) : State :=
  fold_left (λ s entry, removeOverlord (snd entry) s) entries st.

Definition minerX : Overlord := mkOverlord "mine:X" "W1N1" 5 None None None.
Definition minerY : Overlord := mkOverlord "mine:Y" "W2N2" 5 None None None.
Definition extractDirective : Directive :=
  mkDirective "extract" [("extract", minerX); ("haul", minerY)] None None.

Definition with_extraction : State :=
  registerOverlord steadyY
    (registerOverlord minerY
       (registerOverlord minerX
          (registerDirective extractDirective (new_Overseer ∅ [])))).

Definition in_linear_range (W : World) (anchor : string) (room : GameRoom) : bool :=
  getRoomLinearDistance W (r_name room) anchor <=? MAX_LINEAR_DISTANCE.

Definition route_of (W : World) (anchor : string) (room : GameRoom) : option Route :=
  findRoute W (r_name room) anchor.

(** The length of the path from the room's first spawn. *)
Definition distance_of (W : World) (anchor : string) (room : GameRoom) : Z :=
  match r_spawns room with
  | spawn :: _ => path_length (findPathToRoom W spawn anchor (route_of W anchor room))
  | [] => 0
  end.

(** A spawn, a route, a complete path, no longer than the ceiling. *)
Definition accepted (W : World) (anchor : string) (room : GameRoom) : bool :=
  match r_spawns room with
  | spawn :: _ =>
      match route_of W anchor room with
      | Some _ =>
          negb (incomplete (findPathToRoom W spawn anchor (route_of W anchor room)))
          && (distance_of W anchor room <=? MAX_PATH_DISTANCE)
      | None => false
      end
  | [] => false
  end.


(** The names of the rooms that are accepted, in order. *)
Definition accepted_names (W : World) (anchor : string) (rooms : list GameRoom)
    : list string :=
  map r_name (List.filter (accepted W anchor) rooms).

Definition nearRoom : GameRoom := mkGameRoom "W1N1" true 8 5600 [mkPos "W1N1" 25 25].
Definition farRoom : GameRoom := mkGameRoom "W9N9" true 8 5600 [mkPos "W9N9" 25 25].
Definition blockedRoom : GameRoom := mkGameRoom "W2N1" true 7 5600 [mkPos "W2N1" 25 25].

(** Three colonies around the anchor W2N2: one three rooms away with a
    path of 120, one twelve rooms away, one next door whose path is
    incomplete. *)
Definition three_colonies : World :=
  mkWorld 1000
    (list_to_map [("W1N1", nearRoom); ("W9N9", farRoom); ("W2N1", blockedRoom)])
    [nearRoom; farRoom; blockedRoom]
    (λ a _, if String.eqb a "W1N1" then 3 else if String.eqb a "W9N9" then 12 else 1)
    (λ a _, Some {[a := true]})
    (λ p _ _, if String.eqb (roomName p) "W2N1" then mkPath true 40 else mkPath false 120)
    false 7.

Definition anchorW2N2 : SpawnGroupInitializer := mkInitializer "flag1" (mkPos "W2N2" 20 20).
Definition noSettings : PartialSettings := mkPartial None None None.

(** The keys of the cached distances and routes are among the colonies. *)
Definition keys_within_colonies (mem : SpawnGroupMemory) : Prop :=
  dom (mem_distances mem) ⊆ (list_to_set (mem_colonies mem) : gset string)
  ∧ dom (mem_routes mem) ⊆ (list_to_set (mem_colonies mem) : gset string).

(** The memory as construction, refresh and recomputation can make it. *)
Inductive memory_reachable : Memory → Prop :=
| memory_initial : memory_reachable ∅
| memory_construct W initializer settings memory :
    memory_reachable memory →
    memory_reachable (snd (new_SpawnGroup W initializer settings memory))
| memory_refresh sg memory :
    memory_reachable memory → memory_reachable (snd (refresh sg memory))
| memory_recalculate W room memory :
    memory_reachable memory →
    memory_reachable (<[room := recalculateColonies W room (this_memory memory room)]> memory).

Definition memory_wf (memory : Memory) : Prop :=
  ∀ room mem, memory !! room = Some mem → keys_within_colonies mem.

Definition hatcheryAt (room : string) (availability : Z) : Hatchery :=
  mkHatchery room 1000 [] (λ _, availability).

(** Three producers with (nextAvailability, distance) = (0, 50), (10, 20)
    and (5, 5). *)
Definition three_producers : Overmind :=
  mkOvermind (list_to_map [("W1N1", Some (hatcheryAt "W1N1" 0));
                           ("W2N1", Some (hatcheryAt "W2N1" 10));
                           ("W3N1", Some (hatcheryAt "W3N1" 5))]) [].

Definition cachedDistances : Memory :=
  {[ "W2N2" := mkMemory ["W1N1"; "W2N1"; "W3N1"]
                 (list_to_map [("W1N1", 50); ("W2N1", 20); ("W3N1", 5)]) ∅ 5000 ]}.

Definition smallCreep : SpawnRequest := mkRequest "zergling" (λ _, 500).
Definition hugeCreep : SpawnRequest := mkRequest "hydralisk" (λ _, 5000).

Definition groupW2N2 (requests : list SpawnRequest) : SpawnGroup :=
  mkSpawnGroup requests "W2N2" ["W1N1"; "W2N1"; "W3N1"] (Finite 1000) "flag1:SG"
    defaultSettings.

(** Two instances alike in everything but [settings.flexibleEnergy]. *)
Definition differ_only_in_flexibleEnergy (sg1 sg2 : SpawnGroup) : Prop :=
  sg_requests sg1 = sg_requests sg2
  ∧ sg_roomName sg1 = sg_roomName sg2
  ∧ sg_colonyNames sg1 = sg_colonyNames sg2
  ∧ sg_energyCapacityAvailable sg1 = sg_energyCapacityAvailable sg2
  ∧ sg_ref sg1 = sg_ref sg2
  ∧ maxPathDistance (sg_settings sg1) = maxPathDistance (sg_settings sg2)
  ∧ requiredRCL (sg_settings sg1) = requiredRCL (sg_settings sg2).

Definition rigid : PartialSettings := mkPartial (Some 300) None (Some false).
Definition flexible : PartialSettings := mkPartial (Some 300) None (Some true).

(** Each colony's list is the global list restricted to the colony, in the
    same order; a colony without a list has no Overlord. *)
Definition grouped (st : State) : Prop :=
  ∀ c, default [] (overlordsByColony st !! c)
       = List.filter (λ o, String.eqb (o_colony o) c) (overlords st).

(** The states reached from a new Overseer by registrations, suspensions,
    [init], [run], and removals of Overlords whose reference no Overlord of
    another colony shares. *)
Inductive orderly : State → Prop :=
| orderly_new memory excs : orderly (new_Overseer memory excs)
| orderly_registerDirective d st : orderly st → orderly (registerDirective d st)
| orderly_registerOverlord o st : orderly st → orderly (registerOverlord o st)
| orderly_removeOverlord o st :
    orderly st →
    (∀ o', In o' (overlords st) → o_ref o' = o_ref o → o_colony o' = o_colony o) →
    orderly (removeOverlord o st)
| orderly_suspendFor now o ticks st : orderly st → orderly (suspendOverlordFor now o ticks st)
| orderly_suspendUntil o tick st : orderly st → orderly (suspendOverlordUntil o tick st)
| orderly_isSuspended now o st : orderly st → orderly (snd (isOverlordSuspended now o st))
| orderly_init tc now cols st : orderly st → orderly (fst (init tc now cols st))
| orderly_run tc now cols st : orderly st → orderly (fst (run tc now cols st)).

Definition sharedRefNorth : Overlord := mkOverlord "worker" "W1N1" 3 None None None.
Definition sharedRefSouth : Overlord := mkOverlord "worker" "W1S1" 4 None None None.

(** Whether the call is one of the scheduler's calls to an Overlord of the
    reference. *)
Definition touches (ref : string) (c : Call) : bool :=
  match c with
  | OverlordPreInit r | OverlordInit r | OverlordRun r => String.eqb r ref
  | _ => false
  end.

(** While the reference is suspended, the computation keeps it so and makes
    no call to an Overlord of that reference. *)
Definition skips {A} (now : Z) (ref : string) (m : M A) : Prop :=
  ∀ st, suspended_at now (suspendUntil st) ref = true →
    suspended_at now (suspendUntil (fst (m st))) ref = true
    ∧ ∃ new, calls (fst (m st)) = calls st ++ new
             ∧ Forall (λ c, touches ref c = false) new.

(** None of the Directive's Overlords has the reference. *)
Definition not_owned_by (d : Directive) (o : Overlord) : bool :=
  forallb (λ entry, negb (String.eqb (o_ref o) (o_ref (snd entry)))) (d_overlords d).

(** The defined reports an Overlord gives for the role. *)
Definition reports_of (role : string) (u : UsageReport) : list (Z * Z) :=
  omap (λ entry, if String.eqb (fst entry) role then snd entry else None) u.

(** The defined reports the Overlords give for the role, in order. *)
Definition all_reports (creepUsageReport : Overlord → UsageReport) (role : string)
    (os : list Overlord) : list (Z * Z) :=
  flat_map (λ o, reports_of role (creepUsageReport o)) os.

(** The sums of the first and of the second components. *)
Definition total (rs : list (Z * Z)) : Z * Z :=
  (fold_right Z.add 0 (map fst rs), fold_right Z.add 0 (map snd rs)).

Fixpoint find_role (role : string) (occupancy : list (string * (Z * Z))) : option (Z * Z) :=
  match occupancy with
  | [] => None
  | (k, v) :: rest => if String.eqb k role then Some v else find_role role rest
  end.

(** An entry, if any, with reports added one after the other. *)
Definition accumulate (start : option (Z * Z)) (rs : list (Z * Z)) : option (Z * Z) :=
  fold_left (λ acc r, Some (fst (default (0, 0) acc) + fst r, snd (default (0, 0) acc) + snd r))
    rs start.

Definition show_row (role : string) (t : Z * Z) : string * string :=
  (role, pretty (fst t) +:+ "/" +:+ pretty (snd t)).

Definition queenReport (o : Overlord) : UsageReport :=
  if String.eqb (o_ref o) "X" then [("queen", Some (1, 2)); ("worker", None)]
  else if String.eqb (o_ref o) "Y" then [("worker", Some (3, 4)); ("queen", Some (1, 1))]
  else [].

(** The structure is damaged and has a dangerous hostile within range 2. *)
Definition structure_trigger (env : Environment) (colony : Colony) (s : Structure) : bool :=
  (s_hits s <? s_hitsMax s)
  && (0 <? Z.of_nat (length (findInRange env (s_pos s)
                               (dangerousHostiles (col_room colony)) 2))).

(** The first dangerous hostile can reach the first spawn. *)
Definition reachability_trigger (env : Environment) (colony : Colony) : bool :=
  match dangerousHostiles (col_room colony), col_spawns colony with
  | firstHostile :: _, spawn0 :: _ =>
      isReachable env (h_pos firstHostile) (s_pos spawn0)
        (map s_pos (barriers (col_room colony)))
  | _, _ => false
  end.

Definition is_evacuation (e : SafeModeEvent) : bool :=
  match e with CreateTerminalEvacuate _ => true | _ => false end.

Definition evacuations (events : list SafeModeEvent) : nat :=
  length (List.filter is_evacuation events).

(** An evacuation Directive is only ever placed at the colony's terminal. *)
Definition at_terminal (colony : Colony) (e : SafeModeEvent) : Prop :=
  match e with
  | CreateTerminalEvacuate pos => ∃ t, col_terminal colony = Some t ∧ pos = s_pos t
  | ActivateSafeMode _ => True
  end.

(** What the outpost has to be like for the placement to be made. *)
Definition placement_justified (cart : Cartography) (outposts : list OutpostRoom)
    (p : Placement) : Prop :=
  match p with
  | CreateIfNotPresent kind pos =>
      kind = OutpostDefense
      ∧ ∃ o, In o outposts
             ∧ dangerousPlayerHostiles (out_room o) ≠ []
             ∧ pos = findPathablePosition cart (room_name (out_room o))
  | Create kind pos =>
      kind = Guard
      ∧ ∃ o hostile others, In o outposts
             ∧ dangerousPlayerHostiles (out_room o) = []
             ∧ roomType cart (room_name (out_room o)) ≠ ROOMTYPE_SOURCEKEEPER cart
             ∧ dangerousHostiles (out_room o) = hostile :: others
             ∧ pos = h_pos hostile
             ∧ Forall (λ f, f_kind f ≠ Guard ∧ f_kind f ≠ OutpostDefense) (out_flags o)
  end.

Definition is_guard (p : Placement) : bool :=
  match p with Create Guard _ => true | _ => false end.

Definition quietRoom (name : string) : Room := mkRoom name [] [] [] [].
Definition npcRoom (name : string) : Room :=
  mkRoom name [mkHostile (mkPos name 5 5) []] [mkHostile (mkPos name 5 5) []] [] [].
Definition playerRoom (name : string) : Room :=
  mkRoom name [mkHostile (mkPos name 7 7) ["XUH2O"]] [mkHostile (mkPos name 7 7) ["XUH2O"]]
    [mkHostile (mkPos name 7 7) ["XUH2O"]] [].

Definition plainCartography : Cartography :=
  mkCartography (λ _, "CTRL") "SK" (λ name, mkPos name 25 25).

Definition semiAutomatic : Autonomy := mkAutonomy 1 0 (λ _, 1%nat).

(** How many requests the hatchery of the colony holds. *)
Definition queued (om : Overmind) (name : string) : nat :=
  match hatchery_of om name with
  | Some h => length (hatch_queue h)
  | None => 0%nat
  end.

Definition total_queued (names : list string) (om : Overmind) : nat :=
  fold_right Nat.add 0%nat (map (queued om) names).

(** The hatchery is the same but for requests added to its queue, all of
    them among the given ones and in their order. *)
Definition queue_extended (requests : list SpawnRequest) (h h' : Hatchery) : Prop :=
  hatch_roomName h' = hatch_roomName h
  ∧ hatch_energyCapacityAvailable h' = hatch_energyCapacityAvailable h
  ∧ hatch_availability h' = hatch_availability h
  ∧ ∃ added, hatch_queue h' = hatch_queue h ++ added ∧ sublist added requests.

Definition laterWorld (W : World) (ticks : Z) : World :=
  mkWorld (Game_time W + ticks) (Game_rooms W) [] (getRoomLinearDistance W)
    (findRoute W) (findPathToRoom W) (publicServer W) 0.

Definition otherFlag : SpawnGroupInitializer := mkInitializer "flag2" (mkPos "W2N2" 40 40).

(** A producer the request can go to: the hatchery of one of the group's
    colonies, whose room can afford the largest body, and whose room has a
    cached distance. *)
Definition can_serve (mem : SpawnGroupMemory) (sg : SpawnGroup) (om : Overmind)
    (request : SpawnRequest) (name : string) (h : Hatchery) (d : Z) : Prop :=
  In name (sg_colonyNames sg)
  ∧ hatchery_of om name = Some h
  ∧ maxBodyCost request (sg_energyCapacityAvailable sg) ≤ hatch_energyCapacityAvailable h
  ∧ mem_distances mem !! hatch_roomName h = Some d.

(** The world of [three_colonies] five thousand ticks on, every route to the
    anchor now closed. *)
Definition routes_closed : World :=
  mkWorld 6000 (Game_rooms three_colonies) (getAllColonyRooms three_colonies)
    (getRoomLinearDistance three_colonies) (λ _ _, None) (findPathToRoom three_colonies)
    (publicServer three_colonies) 0.

(** The memory after a group was constructed at W2N2 in [three_colonies]
    and, the cache having expired, another one at the same anchor in
    [routes_closed]. *)
Definition rewrittenMemory : Memory :=
  snd (new_SpawnGroup routes_closed (mkInitializer "flag2" (mkPos "W2N2" 40 40)) noSettings
         (snd (new_SpawnGroup three_colonies anchorW2N2 noSettings ∅))).

(** The first of the two groups, refreshed for the tick, with one request. *)
Definition staleGroup : SpawnGroup :=
  enqueue smallCreep
    (fst (refresh (fst (new_SpawnGroup three_colonies anchorW2N2 noSettings ∅))
            rewrittenMemory)).

Definition staleMemory : Memory :=
  snd (refresh (fst (new_SpawnGroup three_colonies anchorW2N2 noSettings ∅))
         rewrittenMemory).

(** The colony W1N1 with its hatchery, idle. *)
Definition lone_producer : Overmind :=
  mkOvermind {[ "W1N1" := Some (mkHatchery "W1N1" 5600 [] (λ _, 0)) ]} [].

(** * Properties *)

(** ** Array.prototype.sort *)

Section ArraySortFacts.
Context {A : Type} (comparefn : A → A → Z).

Lemma sort_insert_Permutation a l : sort_insert comparefn a l ≡ₚ a :: l.
Proof.
  induction l as [|b l IH]; simpl; [done|].
  destruct (comparefn a b <=? 0); [done|].
  rewrite IH. apply Permutation_swap.
Qed.

Lemma array_sort_Permutation l : array_sort comparefn l ≡ₚ l.
Proof.
  induction l as [|a l IH]; simpl; [done|].
  by rewrite sort_insert_Permutation, IH.
Qed.
End ArraySortFacts.

Lemma by_priority_le o1 o2 : (by_priority o1 o2 <=? 0) = true ↔ priority_le o1 o2.
Proof. unfold by_priority, priority_le. rewrite Z.leb_le. lia. Qed.

Lemma sort_insert_HdRel x a l :
  priority_le x a → HdRel priority_le x l → HdRel priority_le x (sort_insert by_priority a l).
Proof.
  intros Hxa Hl. destruct l as [|b l]; simpl; [by constructor|].
  destruct (by_priority a b <=? 0); constructor; [done|].
  by inversion Hl.
Qed.

Lemma sort_insert_sorted a l :
  priority_sorted l → priority_sorted (sort_insert by_priority a l).
Proof.
  unfold priority_sorted. induction 1 as [|b l Hl IH Hb]; simpl.
  - repeat constructor.
  - destruct (by_priority a b <=? 0) eqn:E.
    + constructor; [by constructor|]. constructor. by apply by_priority_le.
    + constructor; [done|]. apply sort_insert_HdRel; [|done].
      unfold by_priority, priority_le in *. apply Z.leb_gt in E. lia.
Qed.

Lemma array_sort_sorted l : priority_sorted (array_sort by_priority l).
Proof.
  induction l as [|a l IH]; simpl; [constructor|]. by apply sort_insert_sorted.
Qed.

Lemma sort_insert_with_priority p a l :
  with_priority p (sort_insert by_priority a l) = with_priority p (a :: l).
Proof.
  unfold with_priority. induction l as [|b l IH]; simpl; [done|].
  destruct (by_priority a b <=? 0) eqn:E; [done|].
  simpl in *. rewrite IH.
  unfold by_priority in E. apply Z.leb_gt in E.
  destruct (o_priority a =? p) eqn:Ea, (o_priority b =? p) eqn:Eb; try done.
  apply Z.eqb_eq in Ea, Eb. lia.
Qed.

Lemma array_sort_with_priority p l :
  with_priority p (array_sort by_priority l) = with_priority p l.
Proof.
  induction l as [|a l IH]; simpl; [done|].
  rewrite sort_insert_with_priority. unfold with_priority in *. simpl. by rewrite IH.
Qed.

Lemma array_sort_stable l : stable_reordering l (array_sort by_priority l).
Proof.
  split; [apply array_sort_Permutation | intros p; apply array_sort_with_priority].
Qed.

(** Taking elements out of a sorted list leaves it sorted. *)
Lemma lodash_remove_sorted p l : priority_sorted l → priority_sorted (lodash_remove p l).
Proof.
  unfold priority_sorted, lodash_remove. intros Hl.
  apply Sorted_StronglySorted in Hl; [|intros x y z; unfold priority_le; lia].
  apply StronglySorted_Sorted.
  induction Hl as [|a l Hl IH Ha]; simpl; [constructor|].
  destruct (negb (p a)); [|done].
  constructor; [done|]. rewrite List.Forall_forall in *. intros x Hx.
  apply Ha. apply filter_In in Hx. tauto.
Qed.

(** ** The scheduler's registries through a tick *)

Lemma keeps_ret {A} (a : A) : keeps_registries (ret a).
Proof. done. Qed.

Lemma keeps_gets {A} (f : State → A) : keeps_registries (gets f).
Proof. done. Qed.

Lemma keeps_bind {A B} (m : M A) (k : A → M B) :
  keeps_registries m → (∀ a, keeps_registries (k a)) → keeps_registries (bind m k).
Proof.
  intros Hm Hk st. unfold bind. specialize (Hm st).
  destruct (m st) as [st' [a|e]]; simpl in *; [|done].
  by rewrite Hk.
Qed.

Lemma keeps_for_each {A} (xs : list A) (body : A → M unit) :
  (∀ x, keeps_registries (body x)) → keeps_registries (for_each xs body).
Proof.
  intros Hb. induction xs as [|x xs IH]; simpl; [apply keeps_ret|].
  apply keeps_bind; auto.
Qed.

Lemma keeps_invoke c body : keeps_registries (invoke c body).
Proof. intros st. unfold invoke. by destruct body. Qed.

Lemma keeps_try tc text cb ident :
  keeps_registries cb → keeps_registries (try_ tc text cb ident).
Proof.
  intros Hcb st. unfold try_. specialize (Hcb st).
  destruct tc; [|done]. by destruct (cb st) as [st' [[]|[e|r|r]]].
Qed.

Lemma keeps_check_suspended now o : keeps_registries (check_suspended now o).
Proof.
  intros st. unfold check_suspended, isOverlordSuspended.
  destruct (suspendUntil st !! o_ref o) as [until|]; [|done].
  destruct (truthy until); [|done]. by destruct (now <? until).
Qed.

Create HintDb registries.
#[local] Hint Resolve keeps_ret keeps_invoke keeps_try keeps_check_suspended : registries.

Lemma keeps_init_overlord tc now o : keeps_registries (init_overlord tc now o).
Proof.
  apply keeps_bind; [auto with registries|].
  intros [|]; [auto with registries|].
  apply keeps_bind; auto with registries.
Qed.

Lemma keeps_run_overlord tc now o : keeps_registries (run_overlord tc now o).
Proof.
  apply keeps_bind; [auto with registries|].
  intros [|]; auto with registries.
Qed.

Lemma keeps_logistics cols :
  keeps_registries (for_each cols (λ c, invoke (RegisterLogisticsRequests c) None)).
Proof. apply keeps_for_each. auto with registries. Qed.

(** A loop of calls goes through them one after the other as long as none
    throws. *)
Lemma for_each_invoke_normal {A} (c : A → Call) (out : A → Outcome) xs st :
  Forall (λ x, out x = None) xs →
  ∃ st', for_each xs (λ x, invoke (c x) (out x)) st = (st', Normal tt)
         ∧ registries st' = registries st
         ∧ suspendUntil st' = suspendUntil st
         ∧ exceptions st' = exceptions st
         ∧ calls st' = calls st ++ map c xs.
Proof.
  intros Hxs. revert st. induction Hxs as [|x xs Hx _ IH]; intros st; simpl.
  - exists st. by rewrite app_nil_r.
  - unfold bind at 1, invoke at 1. rewrite Hx.
    destruct (IH (record_call (c x) st)) as (st' & -> & ? & ? & ? & Hc).
    exists st'. repeat split; try done. rewrite Hc. simpl. by rewrite <- app_assoc.
Qed.

Lemma sort_overlords_registries st st1 :
  registries st1 = registries st →
  registries (sort_overlords st1) = registries (sort_overlords st).
Proof.
  unfold registries, sort_overlords. intros H. injection H as H1 H2 H3 H4.
  rewrite H3. destruct (sorted st) eqn:E; simpl.
  - rewrite H1, H2, H3, H4, E. done.
  - by rewrite H1, H2, H4.
Qed.

Lemma init_registries tc now cols st :
  Forall (λ d, d_init d = None) (directives st) →
  registries (fst (init tc now cols st)) = registries (sort_overlords st).
Proof.
  intros Hds. unfold init. unfold bind at 1, gets at 1.
  unfold bind at 1.
  destruct (for_each_invoke_normal (λ d, DirectiveInit (d_name d)) d_init _ st Hds)
    as (st1 & -> & Hreg & _).
  unfold bind at 1, modify at 1.
  rewrite keeps_bind.
  - by apply sort_overlords_registries.
  - apply keeps_gets.
  - intros os. apply keeps_bind; [apply keeps_for_each, keeps_init_overlord|].
    intros _. apply keeps_logistics.
Qed.

(** ** Sorting at init *)

Lemma registerOverlord_sorted_flag o st : sorted (registerOverlord o st) = sorted st.
Proof.
  unfold registerOverlord. simpl.
  by destruct (overlordsByColony st !! o_colony o).
Qed.

Lemma removeOverlord_sorted_flag o st : sorted (removeOverlord o st) = sorted st.
Proof.
  unfold removeOverlord. simpl.
  by destruct (overlordsByColony st !! o_colony o).
Qed.

Lemma removeOverlord_keeps_sorted o st :
  priority_sorted (overlords st) →
  (∀ c l, overlordsByColony st !! c = Some l → priority_sorted l) →
  priority_sorted (overlords (removeOverlord o st))
  ∧ (∀ c l, overlordsByColony (removeOverlord o st) !! c = Some l → priority_sorted l).
Proof.
  intros Hg Hc. unfold removeOverlord. simpl.
  destruct (overlordsByColony st !! o_colony o) as [os|] eqn:E; simpl.
  - split; [by apply lodash_remove_sorted|].
    intros c l. rewrite lookup_insert. case_decide.
    + intros [= <-]. apply lodash_remove_sorted. eauto.
    + eauto.
  - split; [by apply lodash_remove_sorted | done].
Qed.

Lemma removeDirective_sorted_flag d st : sorted (removeDirective d st) = sorted st.
Proof.
  unfold removeDirective.
  set (st1 := set_directives _ st). change (sorted st) with (sorted st1).
  generalize st1. induction (d_overlords d) as [|e es IH]; intros s; simpl; [done|].
  by rewrite IH, removeOverlord_sorted_flag.
Qed.

Lemma apply_ops_sorted_flag ops st : sorted (apply_ops ops st) = sorted st.
Proof.
  unfold apply_ops. revert st. induction ops as [|op ops IH]; intros st; simpl; [done|].
  rewrite IH. destruct op; simpl.
  - done.
  - apply removeDirective_sorted_flag.
  - apply registerOverlord_sorted_flag.
  - apply removeOverlord_sorted_flag.
Qed.

Lemma init_sorts_unsorted_state tc now cols st :
  sorted st = false →
  Forall (λ d, d_init d = None) (directives st) →
  let st' := fst (init tc now cols st) in
  sorted st' = true
  ∧ priority_sorted (overlords st')
  ∧ stable_reordering (overlords st) (overlords st')
  ∧ dom (overlordsByColony st') = dom (overlordsByColony st)
  ∧ (∀ c l, overlordsByColony st !! c = Some l →
       ∃ l', overlordsByColony st' !! c = Some l'
             ∧ priority_sorted l' ∧ stable_reordering l l').
Proof.
  intros Hflag Hds st'.
  pose proof (init_registries tc now cols st Hds) as Hreg. fold st' in Hreg.
  unfold registries, sort_overlords in Hreg. rewrite Hflag in Hreg. simpl in Hreg.
  injection Hreg as Ho Hc Hs _. rewrite Ho, Hc, Hs.
  split; [done|]. split; [apply array_sort_sorted|]. split; [apply array_sort_stable|].
  split; [apply dom_fmap_L|].
  intros c l Hl. exists (array_sort by_priority l).
  rewrite lookup_fmap, Hl. split; [done|].
  split; [apply array_sort_sorted | apply array_sort_stable].
Qed.

(** C1 (as amended): registrations and removals leave the [sorted] flag as
    it is.  After any sequence of them on an Overseer whose flag is false, as
    it is from construction on, an [init] in which no Directive's [init]
    throws leaves the global list and every colony's list sorted by
    non-decreasing priority, Overlords of equal priority in the order they
    had, and sets the flag. *)
Theorem init_sorts_while_unsorted tc now cols ops st0 :
  let st := apply_ops ops st0 in
  let st' := fst (init tc now cols st) in
  sorted st = sorted st0
  ∧ (sorted st0 = false →
     Forall (λ d, d_init d = None) (directives st) →
     sorted st' = true
     ∧ priority_sorted (overlords st')
     ∧ stable_reordering (overlords st) (overlords st')
     ∧ dom (overlordsByColony st') = dom (overlordsByColony st)
     ∧ (∀ c l, overlordsByColony st !! c = Some l →
          ∃ l', overlordsByColony st' !! c = Some l'
                ∧ priority_sorted l' ∧ stable_reordering l l')).
Proof.
  intros st st'. split; [apply apply_ops_sorted_flag|].
  intros Hflag Hds. apply init_sorts_unsorted_state; [|done].
  subst st. by rewrite apply_ops_sorted_flag.
Qed.

Lemma init_sorts_while_unsorted_witness :
  overlords (fst (init true 100 []
     (apply_ops [RegisterOverlord overlordA; RegisterOverlord overlordB]
        (new_Overseer ∅ []))))
  = [overlordB; overlordA]
  ∧ priority_sorted (overlords (fst (init true 100 []
     (apply_ops [RegisterOverlord overlordA; RegisterOverlord overlordB]
        (new_Overseer ∅ []))))).
Proof.
  split; [vm_compute; reflexivity|].
  destruct (init_sorts_while_unsorted true 100 nil
              (cons (RegisterOverlord overlordA) (cons (RegisterOverlord overlordB) nil))
              (new_Overseer ∅ nil)) as [_ H].
  destruct H as (_ & Hsorted & _); [reflexivity | constructor | exact Hsorted].
Defined.

(** C1, as stated, fails: an Overlord registered after an [init] stays where
    it was appended, whatever its priority, at the next [init]. *)
Lemma registration_after_init_not_sorted :
  let st1 := fst (init true 100 [] (registerOverlord overlordA (new_Overseer ∅ []))) in
  let st2 := fst (init true 101 [] (registerOverlord overlordB st1)) in
  overlords st2 = [overlordA; overlordB]
  ∧ overlordsByColony st2 !! "W1N1" = Some [overlordA; overlordB]
  ∧ ¬ priority_sorted (overlords st2)
  ∧ ¬ (∀ c l, overlordsByColony st2 !! c = Some l → priority_sorted l).
Proof.
  assert (Hns : ¬ priority_sorted [overlordA; overlordB]).
  { intros H. inversion H as [|? ? _ Hd]; subst. inversion Hd as [|? ? Hle]; subst.
    unfold priority_le in Hle. simpl in Hle. lia. }
  intros st1 st2.
  assert (Ho : overlords st2 = [overlordA; overlordB]) by (vm_compute; reflexivity).
  assert (Hc : overlordsByColony st2 !! "W1N1" = Some [overlordA; overlordB])
    by (vm_compute; reflexivity).
  rewrite Ho.
  split; [done|]. split; [done|]. split; [done|].
  intros H. apply Hns. by apply (H "W1N1").
Qed.

(** ** Suspension *)

Lemma isOverlordSuspended_verdict now o st :
  fst (isOverlordSuspended now o st) = suspended_at now (suspendUntil st) (o_ref o).
Proof.
  unfold isOverlordSuspended, suspended_at.
  destruct (suspendUntil st !! o_ref o) as [until|]; [|done].
  destruct (truthy until); [|done]. by destruct (now <? until).
Qed.

(** A read changes no verdict of the same tick, for any reference. *)
Lemma isOverlordSuspended_verdicts_kept now o st ref :
  suspended_at now (suspendUntil (snd (isOverlordSuspended now o st))) ref
  = suspended_at now (suspendUntil st) ref.
Proof.
  unfold isOverlordSuspended.
  destruct (suspendUntil st !! o_ref o) as [until|] eqn:E; [|done].
  destruct (truthy until) eqn:Et; [|done].
  destruct (now <? until) eqn:El; [done|]. simpl.
  unfold suspended_at. rewrite lookup_delete. case_decide; [|done].
  subst. by rewrite E, Et, El.
Qed.

Lemma isOverlordSuspended_rest now o st :
  let st' := snd (isOverlordSuspended now o st) in
  registries st' = registries st ∧ exceptions st' = exceptions st ∧ calls st' = calls st.
Proof.
  unfold isOverlordSuspended.
  destruct (suspendUntil st !! o_ref o) as [until|]; [|done].
  destruct (truthy until); [|done]. by destruct (now <? until).
Qed.

(** ** Failure isolation *)

Lemma active_ext now m m' os :
  (∀ r, suspended_at now m' r = suspended_at now m r) → active now m' os = active now m os.
Proof.
  intros H. unfold active. apply filter_ext. intros o. by rewrite H.
Qed.

Lemma init_overlord_isolated now o st :
  o_preInit o = None ∧ throws_only_errors (o_init o) →
  ∃ st',
    init_overlord true now o st = (st', Normal tt)
    ∧ (∀ r, suspended_at now (suspendUntil st') r = suspended_at now (suspendUntil st) r)
    ∧ calls st' = calls st
        ++ flat_map (λ o, [OverlordPreInit (o_ref o); OverlordInit (o_ref o)])
             (active now (suspendUntil st) [o])
    ∧ exceptions st' = exceptions st
        ++ caught "() => overlord.init()" o_init (active now (suspendUntil st) [o]).
Proof.
  intros [Ho Herr]. unfold init_overlord, bind at 1, check_suspended.
  pose proof (isOverlordSuspended_verdict now o st) as Hv.
  pose proof (isOverlordSuspended_verdicts_kept now o st) as Hk.
  pose proof (isOverlordSuspended_rest now o st) as (_ & He & Hc).
  destruct (isOverlordSuspended now o st) as [b st1]. simpl in Hv, Hk, He, Hc.
  unfold active, caught. cbn [List.filter]. rewrite <- Hv.
  destruct b; cbn [negb flat_map omap].
  - exists st1. rewrite Hc, He, !app_nil_r. done.
  - unfold bind, invoke, try_. rewrite Ho.
    destruct (o_init o) as [[e|r|r]|] eqn:Ei; try done;
      eexists; (split; [reflexivity|]); simpl;
      rewrite Hc, He, Ei, <- ?app_assoc, ?app_nil_r; done.
Qed.

Lemma run_overlord_isolated now o st :
  throws_only_errors (o_run o) →
  ∃ st',
    run_overlord true now o st = (st', Normal tt)
    ∧ (∀ r, suspended_at now (suspendUntil st') r = suspended_at now (suspendUntil st) r)
    ∧ calls st' = calls st
        ++ flat_map (λ o, [OverlordRun (o_ref o)]) (active now (suspendUntil st) [o])
    ∧ exceptions st' = exceptions st
        ++ caught "() => overlord.run()" o_run (active now (suspendUntil st) [o]).
Proof.
  intros Herr. unfold run_overlord, bind at 1, check_suspended.
  pose proof (isOverlordSuspended_verdict now o st) as Hv.
  pose proof (isOverlordSuspended_verdicts_kept now o st) as Hk.
  pose proof (isOverlordSuspended_rest now o st) as (_ & He & Hc).
  destruct (isOverlordSuspended now o st) as [b st1]. simpl in Hv, Hk, He, Hc.
  unfold active, caught. cbn [List.filter]. rewrite <- Hv.
  destruct b; cbn [negb flat_map omap].
  - exists st1. rewrite Hc, He, !app_nil_r. done.
  - unfold invoke, try_.
    destruct (o_run o) as [[e|r|r]|] eqn:Ei; try done;
      eexists; (split; [reflexivity|]); simpl;
      rewrite Hc, He, Ei, ?app_nil_r; done.
Qed.

Lemma active_cons now m o os : active now m (o :: os) = active now m [o] ++ active now m os.
Proof. unfold active. simpl. by destruct (negb _). Qed.

(** A pass over the Overlords whose body isolates each of them visits every
    active one. *)
Lemma overlords_pass_isolated (body : Overlord → M unit) (ev : Overlord → list Call)
    (text : string) (out : Overlord → Outcome) (P : Overlord → Prop) now :
  (∀ o st, P o →
     ∃ st', body o st = (st', Normal tt)
       ∧ (∀ r, suspended_at now (suspendUntil st') r = suspended_at now (suspendUntil st) r)
       ∧ calls st' = calls st ++ flat_map ev (active now (suspendUntil st) [o])
       ∧ exceptions st' = exceptions st ++ caught text out (active now (suspendUntil st) [o])) →
  ∀ os, Forall P os → ∀ st,
     ∃ st', for_each os body st = (st', Normal tt)
       ∧ (∀ r, suspended_at now (suspendUntil st') r = suspended_at now (suspendUntil st) r)
       ∧ calls st' = calls st ++ flat_map ev (active now (suspendUntil st) os)
       ∧ exceptions st' = exceptions st ++ caught text out (active now (suspendUntil st) os).
Proof.
  intros Hbody os Hos. induction Hos as [|o os Ho _ IH]; intros st.
  - exists st. simpl. by rewrite !app_nil_r.
  - cbn [for_each]. unfold bind at 1.
    destruct (Hbody o st Ho) as (st1 & -> & Hk1 & Hc1 & He1).
    destruct (IH st1) as (st' & -> & Hk & Hc & He).
    exists st'. split; [done|]. split; [intros r; by rewrite Hk, Hk1|].
    rewrite active_cons, flat_map_app. unfold caught in *. rewrite omap_app.
    rewrite Hc, He, Hc1, He1, (active_ext _ _ _ os Hk1), <- !app_assoc. done.
Qed.

Lemma sort_overlords_rest st :
  suspendUntil (sort_overlords st) = suspendUntil st
  ∧ exceptions (sort_overlords st) = exceptions st
  ∧ calls (sort_overlords st) = calls st
  ∧ overlords (sort_overlords st) ≡ₚ overlords st.
Proof.
  unfold sort_overlords. destruct (sorted st); simpl; [done|].
  repeat split. apply array_sort_Permutation.
Qed.

Lemma colony_evaluators_called cols st :
  ∃ st', for_each cols (λ c, invoke (HandleSafeMode c) None ;; invoke (PlaceDirectives c) None) st
           = (st', Normal tt)
         ∧ exceptions st' = exceptions st
         ∧ calls st' = calls st ++ flat_map (λ c, [HandleSafeMode c; PlaceDirectives c]) cols.
Proof.
  revert st. induction cols as [|c cols IH]; intros st; simpl.
  - exists st. by rewrite app_nil_r.
  - unfold bind at 1. unfold bind at 1, invoke at 1, invoke at 1.
    destruct (IH (record_call (PlaceDirectives c) (record_call (HandleSafeMode c) st)))
      as (st' & -> & He & Hc).
    exists st'. split; [done|]. rewrite He, Hc. simpl. by rewrite <- !app_assoc.
Qed.

(** C2 (as amended): with [USE_TRY_CATCH] on, provided no Directive's
    [init] or [run] and no Overlord's [preInit] throws (these calls are not
    wrapped) and whatever an Overlord's [init] or [run] throws is an [Error]
    object (the [catch] block reads and writes [e.name], which a thrown
    [null], [undefined] or primitive does not allow), [init] and [run]
    complete and invoke every Overlord that is not suspended, in list order,
    whichever of them throw; each exception thrown by an Overlord's [init]
    or [run] is appended to [Overmind.exceptions], its name now "Caught
    unhandled exception at", the source text of the callback, a colon, and
    on two further lines the old name and the stack (no identifier is passed
    to [try], so none appears). *)
Theorem overlord_failures_isolated now cols st :
  Forall (λ d, d_init d = None) (directives st) →
  Forall (λ d, d_run d = None) (directives st) →
  Forall (λ o, o_preInit o = None) (overlords st) →
  Forall (λ o, throws_only_errors (o_init o) ∧ throws_only_errors (o_run o))
    (overlords st) →
  (∃ st', init true now cols st = (st', Normal tt)
      ∧ calls st' = calls st
          ++ map (λ d, DirectiveInit (d_name d)) (directives st)
          ++ flat_map (λ o, [OverlordPreInit (o_ref o); OverlordInit (o_ref o)])
               (active now (suspendUntil st) (overlords (sort_overlords st)))
          ++ map RegisterLogisticsRequests cols
      ∧ exceptions st' = exceptions st
          ++ caught "() => overlord.init()" o_init
               (active now (suspendUntil st) (overlords (sort_overlords st))))
  ∧ (∃ st', run true now cols st = (st', Normal tt)
      ∧ calls st' = calls st
          ++ map (λ d, DirectiveRun (d_name d)) (directives st)
          ++ flat_map (λ o, [OverlordRun (o_ref o)])
               (active now (suspendUntil st) (overlords st))
          ++ flat_map (λ c, [HandleSafeMode c; PlaceDirectives c]) cols
      ∧ exceptions st' = exceptions st
          ++ caught "() => overlord.run()" o_run
               (active now (suspendUntil st) (overlords st))).
Proof.
  intros Hinit Hrun Hpre Herr. split.
  - unfold init. unfold bind at 1, gets at 1. unfold bind at 1.
    destruct (for_each_invoke_normal (λ d, DirectiveInit (d_name d)) d_init _ st Hinit)
      as (st1 & -> & Hreg1 & Hs1 & He1 & Hc1).
    unfold bind at 1, modify at 1. unfold bind at 1, gets at 1. unfold bind at 1.
    destruct (sort_overlords_rest st1) as (Hs2 & He2 & Hc2 & _).
    destruct (sort_overlords_rest st) as (_ & _ & _ & Hperm).
    pose proof (sort_overlords_registries _ _ Hreg1) as Hreg2.
    assert (Ho : overlords (sort_overlords st1) = overlords (sort_overlords st))
      by (unfold registries in Hreg2; congruence).
    rewrite Ho.
    assert (Hpre' : Forall (λ o, o_preInit o = None ∧ throws_only_errors (o_init o))
                      (overlords (sort_overlords st))).
    { eapply Permutation_Forall; [symmetry; apply Hperm|].
      rewrite List.Forall_forall in *. intros o Ho'. split; [by apply Hpre|].
      by apply Herr. }
    destruct (overlords_pass_isolated (init_overlord true now) _ _ _ _ now
                (λ o st H, init_overlord_isolated now o st H) _ Hpre' (sort_overlords st1))
      as (st2 & -> & _ & Hc3 & He3).
    destruct (for_each_invoke_normal RegisterLogisticsRequests (λ _, None) cols st2)
      as (st3 & -> & _ & _ & He4 & Hc4); [by apply Forall_forall|].
    exists st3. split; [done|].
    rewrite Hc4, He4, Hc3, He3, Hs2, Hs1, Hc2, He2, Hc1, He1, <- !app_assoc. done.
  - unfold run. unfold bind at 1, gets at 1. unfold bind at 1.
    destruct (for_each_invoke_normal (λ d, DirectiveRun (d_name d)) d_run _ st Hrun)
      as (st1 & -> & Hreg1 & Hs1 & He1 & Hc1).
    unfold bind at 1, gets at 1. unfold bind at 1.
    assert (Ho : overlords st1 = overlords st)
      by (unfold registries in Hreg1; congruence).
    rewrite Ho.
    assert (Herr' : Forall (λ o, throws_only_errors (o_run o)) (overlords st)).
    { rewrite List.Forall_forall in *. intros o Ho'. by apply Herr. }
    destruct (overlords_pass_isolated (run_overlord true now) _ _ _ _ now
                (λ o st H, run_overlord_isolated now o st H) (overlords st) Herr' st1)
      as (st2 & -> & _ & Hc3 & He3).
    destruct (colony_evaluators_called cols st2) as (st3 & -> & He4 & Hc4).
    exists st3. split; [done|].
    rewrite Hc4, He4, Hc3, He3, Hs1, Hc1, He1, <- !app_assoc. done.
Qed.

Lemma overlord_failures_isolated_witness :
  ∃ st', init true 100 [] three_overlords = (st', Normal tt)
    ∧ calls st' = [OverlordPreInit "X"; OverlordInit "X"; OverlordPreInit "Y";
                   OverlordInit "Y"; OverlordPreInit "Z"; OverlordInit "Z"]
    ∧ map e_stack (exceptions st') = ["at init"; "at init"]
    ∧ map e_name (exceptions st')
      = ["Caught unhandled exception at () => overlord.init(): " +:+ nl
           +:+ "TypeError" +:+ nl +:+ "at init";
         "Caught unhandled exception at () => overlord.init(): " +:+ nl
           +:+ "TypeError" +:+ nl +:+ "at init"].
Proof.
  destruct (overlord_failures_isolated 100 nil three_overlords)
    as [(st' & Heq & Hc & He) _]; [repeat constructor..|].
  exists st'. rewrite Hc, He. split; [exact Heq|].
  repeat split; vm_compute; reflexivity.
Defined.

(** C2, as stated, fails.  A Directive's [init] is called unwrapped: when it
    throws, the exception leaves [Overseer.init] as it is, nothing is
    appended to the exception list, and neither the next Directive nor any
    Overlord is invoked.  What [try] records for an Overlord does not tell
    the Overlord: two Overlords throwing the same error leave the same
    record.  And an Overlord whose [init] throws [null] is not isolated
    either: the [catch] block raises a [TypeError] on reading [e.name],
    which leaves [Overseer.init]; nothing is recorded and the next Overlord
    is not invoked. *)
Lemma directive_failure_not_isolated :
  (let st := registerOverlord steadyY
       (registerDirective soundDirective
          (registerDirective brokenDirective (new_Overseer ∅ []))) in
   snd (init true 100 [] st) = Throw typeError
   ∧ calls (fst (init true 100 [] st)) = [DirectiveInit "broken"]
   ∧ exceptions (fst (init true 100 [] st)) = [])
  ∧ (∃ a, exceptions (fst (init true 100 [] three_overlords)) = [a; a])
  ∧ (let st := registerOverlord steadyY (registerOverlord nullThrower (new_Overseer ∅ [])) in
     snd (init true 100 [] st) = Throw (ThrownError (mkExn "TypeError" "at Overseer.try"))
     ∧ calls (fst (init true 100 [] st)) = [OverlordPreInit "N"; OverlordInit "N"]
     ∧ exceptions (fst (init true 100 [] st)) = []).
Proof.
  split; [|split].
  - intros st. repeat split; vm_compute; reflexivity.
  - eexists. vm_compute. reflexivity.
  - intros st. repeat split; vm_compute; reflexivity.
Qed.

(** ** The life of a suspension record *)

Lemma read_live o T now st :
  suspendUntil st !! o_ref o = Some T → T ≠ 0 → now < T →
  isOverlordSuspended now o st = (true, st).
Proof.
  intros Hrec HT Hlt. unfold isOverlordSuspended, truthy. rewrite Hrec.
  destruct (Z.eqb_spec T 0); [done|]. simpl.
  destruct (Z.ltb_spec now T); [done|lia].
Qed.

Lemma read_expired o T now st :
  suspendUntil st !! o_ref o = Some T → T ≠ 0 → T ≤ now →
  isOverlordSuspended now o st = (false, set_suspendUntil (delete (o_ref o)) st).
Proof.
  intros Hrec HT Hle. unfold isOverlordSuspended, truthy. rewrite Hrec.
  destruct (Z.eqb_spec T 0); [done|]. simpl.
  destruct (Z.ltb_spec now T); [lia|done].
Qed.

Lemma read_absent o now st :
  suspendUntil st !! o_ref o = None → isOverlordSuspended now o st = (false, st).
Proof. intros Hrec. unfold isOverlordSuspended. by rewrite Hrec. Qed.

Lemma read_at_absent o ticks st :
  suspendUntil st !! o_ref o = None →
  read_at o ticks st = map (λ _, (false, false)) ticks.
Proof.
  intros Hrec. induction ticks as [|now ticks IH]; simpl; [done|].
  rewrite read_absent by done. rewrite IH. unfold has_record. rewrite Hrec.
  by rewrite bool_decide_eq_false_2 by (by intros [? ?]).
Qed.

Lemma read_at_record o T before now after st :
  suspendUntil st !! o_ref o = Some T → T ≠ 0 →
  Forall (λ t, t < T) before → T ≤ now →
  read_at o (before ++ now :: after) st
  = map (λ _, (true, false)) before ++ (false, true) :: map (λ _, (false, false)) after.
Proof.
  intros Hrec HT Hbefore Hnow. induction Hbefore as [|t before Ht _ IH]; simpl.
  - rewrite (read_expired o T) by done.
    rewrite read_at_absent by (simpl; apply lookup_delete_eq).
    unfold has_record. simpl. rewrite Hrec, lookup_delete_eq.
    rewrite bool_decide_eq_true_2 by eauto.
    by rewrite bool_decide_eq_false_2 by (by intros [? ?]).
  - rewrite (read_live o T) by done. rewrite IH.
    unfold has_record. rewrite Hrec. rewrite bool_decide_eq_true_2 by eauto. done.
Qed.

(** C4 (as amended): ticks being non-negative, after
    [suspendOverlordFor(o, d)] at tick [t] the Overlord reads as suspended at
    every tick of [t, t+d-1] and as not suspended at every tick from [t+d]
    on; and a record whose resume tick [T] is not zero reads as expired at
    every tick from [T] on and is deleted exactly once, by the first read at
    such a tick (the reads before it return true and delete nothing, the
    reads after it return false and find nothing to delete). *)
Theorem suspension_record_lifetime (o : Overlord) (st : State) :
  (∀ t d now, 0 ≤ t →
     (t ≤ now ≤ t + d - 1 →
        fst (isOverlordSuspended now o (suspendOverlordFor t o d st)) = true)
     ∧ (t + d ≤ now →
        fst (isOverlordSuspended now o (suspendOverlordFor t o d st)) = false))
  ∧ (∀ T, suspendUntil st !! o_ref o = Some T → T ≠ 0 →
       (∀ now, T ≤ now → fst (isOverlordSuspended now o st) = false)
       ∧ (∀ before now after, Forall (λ t, t < T) before → T ≤ now →
            read_at o (before ++ now :: after) st
            = map (λ _, (true, false)) before
              ++ (false, true) :: map (λ _, (false, false)) after)).
Proof.
  split.
  - intros t d now Ht. rewrite !isOverlordSuspended_verdict. unfold suspended_at.
    simpl. rewrite lookup_insert_eq. unfold truthy. split; intros Hnow.
    + destruct (Z.eqb_spec (t + d) 0); [lia|]. simpl. apply Z.ltb_lt. lia.
    + apply andb_false_iff. right. apply Z.ltb_ge. lia.
  - intros T Hrec HT. split.
    + intros now Hnow. by rewrite (read_expired o T).
    + intros before now after Hb Hnow. by apply (read_at_record o T).
Qed.

Lemma suspension_record_lifetime_witness :
  (fst (isOverlordSuspended 104 overlordA
          (suspendOverlordFor 100 overlordA 5 (new_Overseer ∅ []))) = true
   ∧ fst (isOverlordSuspended 105 overlordA
          (suspendOverlordFor 100 overlordA 5 (new_Overseer ∅ []))) = false)
  ∧ read_at overlordA [100; 104; 105; 106]
      (suspendOverlordFor 100 overlordA 5 (new_Overseer ∅ []))
    = [(true, false); (true, false); (false, true); (false, false)].
Proof.
  split.
  - destruct (suspension_record_lifetime overlordA (new_Overseer ∅ nil)) as [H _].
    destruct (H 100 5 104 ltac:(lia)) as [H1 _].
    destruct (H 100 5 105 ltac:(lia)) as [_ H2].
    split; [apply H1; lia | apply H2; lia].
  - destruct (suspension_record_lifetime overlordA
                (suspendOverlordFor 100 overlordA 5 (new_Overseer ∅ nil))) as [_ H].
    destruct (H 105 ltac:(reflexivity) ltac:(lia)) as [_ H2].
    apply (H2 (cons 100 (cons 104 nil)) 105 (cons 106 nil)); [|lia].
    repeat constructor; lia.
Defined.

(** C4, as stated, fails for a record whose resume tick is zero: it reads as
    not suspended, as an expired record does, but no read deletes it. *)
Lemma zero_record_never_deleted :
  let st := suspendOverlordUntil overlordA 0 (new_Overseer ∅ []) in
  suspendUntil st !! "A" = Some 0
  ∧ isOverlordSuspended 5 overlordA st = (false, st)
  ∧ read_at overlordA [5; 6; 7] st = [(false, false); (false, false); (false, false)].
Proof. intros st. repeat split; vm_compute; reflexivity. Qed.

(** ** Safe mode *)

Lemma trigger_safe_mode_events env colony events :
  ∃ new, fst (trigger_safe_mode env colony events) = events ++ new
    ∧ ends_on_decision colony new (snd (trigger_safe_mode env colony events)).
Proof.
  unfold trigger_safe_mode.
  set (ret := activateSafeMode env (activations events)).
  destruct (negb (ret =? OK) && negb (option_truthy (c_safeMode (col_controller colony))))
    eqn:E.
  - assert (Hq : decided colony (ActivateSafeMode ret) = false).
    { simpl. apply andb_true_iff in E as [E1 E2].
      apply negb_true_iff in E1, E2. by rewrite E1, E2. }
    destruct (col_terminal colony) as [terminal|]; simpl.
    + exists [ActivateSafeMode ret; CreateTerminalEvacuate (s_pos terminal)].
      split; [by rewrite <- app_assoc|].
      exists [ActivateSafeMode ret; CreateTerminalEvacuate (s_pos terminal)], [].
      rewrite app_nil_r. repeat split; try done. by repeat constructor.
    + exists [ActivateSafeMode ret]. split; [done|].
      exists [ActivateSafeMode ret], []. repeat split; try done. by repeat constructor.
  - simpl. exists [ActivateSafeMode ret]. split; [done|].
    exists [], [ActivateSafeMode ret]. repeat split; try done.
    exists (ActivateSafeMode ret). split; [done|]. simpl.
    apply andb_false_iff in E as [E|E]; apply negb_false_iff in E; rewrite E;
      [done | apply orb_true_r].
Qed.

Lemma ends_on_decision_app colony new1 new2 returned :
  ends_on_decision colony new1 false → ends_on_decision colony new2 returned →
  ends_on_decision colony (new1 ++ new2) returned.
Proof.
  intros (q1 & t1 & -> & Hq1 & ->) (q2 & t2 & -> & Hq2 & Ht).
  exists (q1 ++ q2), t2. rewrite app_nil_r, <- app_assoc. repeat split; [|done].
  by apply Forall_app.
Qed.

Lemma scan_structures_events env colony structures events :
  ∃ new, fst (scan_structures env colony structures events) = events ++ new
    ∧ ends_on_decision colony new (snd (scan_structures env colony structures events)).
Proof.
  revert events. induction structures as [|s rest IH]; intros events; simpl.
  - exists []. rewrite app_nil_r. split; [done|]. by exists [], [].
  - destruct ((s_hits s <? s_hitsMax s) && _); [|apply IH].
    destruct (trigger_safe_mode_events env colony events) as (new1 & Hf1 & He1).
    destruct (trigger_safe_mode env colony events) as [events1 returned].
    simpl in Hf1, He1. subst events1. destruct returned.
    + by exists new1.
    + destruct (IH (events ++ new1)) as (new2 & Hf2 & He2).
      exists (new1 ++ new2). rewrite Hf2, <- app_assoc. split; [done|].
      by apply ends_on_decision_app.
Qed.

Lemma handleSafeMode_events env colony :
  ∃ returned, ends_on_decision colony (handleSafeMode env colony) returned.
Proof.
  unfold handleSafeMode.
  destruct (is_Larva (col_stage colony) && onPublicServer env).
  { exists false. by exists [], []. }
  destruct (scan_structures_events env colony (criticalStructures colony) [])
    as (new & Hf & He).
  destruct (scan_structures env colony (criticalStructures colony) [])
    as [events returned]. simpl in Hf, He. subst events.
  destruct returned; [by exists true|].
  destruct (dangerousHostiles (col_room colony)) as [|firstHostile ?]; [by exists false|].
  destruct (col_spawns colony) as [|spawn0 ?]; [by exists false|].
  destruct (isReachable env _ _ _); [|by exists false].
  destruct (trigger_safe_mode_events env colony new) as (new2 & Hf2 & He2).
  rewrite Hf2. eexists. by apply ends_on_decision_app.
Qed.

Lemma nothing_after_decision colony quiet tail pre e post :
  Forall (λ e, decided colony e = false) quiet →
  (tail = [] ∨ ∃ d, tail = [d]) →
  quiet ++ tail = pre ++ e :: post → decided colony e = true → post = [].
Proof.
  intros Hq Ht. revert pre. induction Hq as [|q quiet Hq _ IH]; intros pre Heq He.
  - simpl in Heq. destruct Ht as [->|[d ->]]; [by destruct pre|].
    destruct pre as [|p [|? ?]]; simpl in Heq; congruence.
  - destruct pre as [|p pre]; simpl in Heq.
    + injection Heq as -> _. congruence.
    + injection Heq as _ Heq. by apply (IH pre).
Qed.

(** C5 (as amended): once a call of [activateSafeMode] succeeds, or finds
    safe mode already active, [handleSafeMode] evaluates nothing more for the
    colony: no event follows such a call.  (After a failed activation, with
    or without the terminal-evacuation Directive, the remaining triggers are
    still evaluated.) *)
Theorem nothing_evaluated_after_activation env colony pre e post :
  handleSafeMode env colony = pre ++ e :: post →
  decided colony e = true →
  post = [].
Proof.
  intros Heq He.
  destruct (handleSafeMode_events env colony) as (returned & quiet & tail & Hn & Hq & Ht).
  rewrite Hn in Heq. eapply nothing_after_decision; [exact Hq| |exact Heq|exact He].
  destruct returned; [|by left]. destruct Ht as (d & -> & _). right. by exists d.
Qed.

Lemma nothing_evaluated_after_activation_witness :
  handleSafeMode second_try_works besieged
  = [ActivateSafeMode ERR_NOT_ENOUGH_RESOURCES; CreateTerminalEvacuate terminalPos;
     ActivateSafeMode OK]
  ∧ @nil SafeModeEvent = [].
Proof.
  split; [vm_compute; reflexivity|].
  apply (nothing_evaluated_after_activation second_try_works besieged
           (cons (ActivateSafeMode ERR_NOT_ENOUGH_RESOURCES)
              (cons (CreateTerminalEvacuate terminalPos) nil))
           (ActivateSafeMode OK) nil); vm_compute; reflexivity.
Defined.

(** C5, as stated, fails: the creation of the terminal-evacuation Directive
    does not end the evaluation; the next damaged structure and the
    reachability trigger are evaluated all the same. *)
Lemma evaluation_continues_after_evacuation :
  handleSafeMode no_safe_mode_left besieged
  = [ActivateSafeMode ERR_NOT_ENOUGH_RESOURCES; CreateTerminalEvacuate terminalPos;
     ActivateSafeMode ERR_NOT_ENOUGH_RESOURCES; CreateTerminalEvacuate terminalPos;
     ActivateSafeMode ERR_NOT_ENOUGH_RESOURCES; CreateTerminalEvacuate terminalPos]
  ∧ ∃ pre pos post, handleSafeMode no_safe_mode_left besieged
                    = pre ++ CreateTerminalEvacuate pos :: post
                    ∧ post ≠ [].
Proof.
  split; [vm_compute; reflexivity|].
  exists [ActivateSafeMode ERR_NOT_ENOUGH_RESOURCES], terminalPos,
    [ActivateSafeMode ERR_NOT_ENOUGH_RESOURCES; CreateTerminalEvacuate terminalPos;
     ActivateSafeMode ERR_NOT_ENOUGH_RESOURCES; CreateTerminalEvacuate terminalPos].
  split; [vm_compute; reflexivity | discriminate].
Qed.

(** ** Invasion defence *)










(** ** Removing a Directive *)

Lemma registerOverlord_wf o st : by_colony_wf st → by_colony_wf (registerOverlord o st).
Proof.
  intros Hwf c l. unfold registerOverlord. simpl.
  destruct (overlordsByColony st !! o_colony o) as [os|] eqn:E; simpl;
    rewrite lookup_alter; case_decide as Hc; subst; rewrite ?lookup_insert_eq, ?E;
    simpl; try apply Hwf.
  - intros [= <-]. apply Forall_app. split; [by apply (Hwf _ _ E)|]. by constructor.
  - intros [= <-]. by repeat constructor.
  - rewrite lookup_insert_ne by done. apply Hwf.
Qed.

Lemma removeOverlord_wf o st : by_colony_wf st → by_colony_wf (removeOverlord o st).
Proof.
  intros Hwf c l. unfold removeOverlord. simpl.
  destruct (overlordsByColony st !! o_colony o) as [os|] eqn:E; simpl; [|apply Hwf].
  rewrite lookup_insert. case_decide as Hc; [|apply Hwf].
  intros [= <-]. subst c. specialize (Hwf _ _ E).
  unfold lodash_remove. rewrite List.Forall_forall in *. intros x Hx.
  apply filter_In in Hx as [Hx _]. by apply Hwf.
Qed.

Lemma remove_overlords_wf (entries : list (string * Overlord)) st :
  by_colony_wf st →
  by_colony_wf (fold_left (λ s entry, removeOverlord (snd entry) s) entries st).
Proof.
  revert st. induction entries as [|e entries IH]; intros st Hwf; simpl; [done|].
  apply IH. by apply removeOverlord_wf.
Qed.

Lemma sort_overlords_wf st : by_colony_wf st → by_colony_wf (sort_overlords st).
Proof.
  intros Hwf c l. unfold sort_overlords. destruct (sorted st); [apply Hwf|]. simpl.
  rewrite lookup_fmap. destruct (overlordsByColony st !! c) as [l0|] eqn:E; [|done].
  simpl. intros [= <-]. eapply Permutation_Forall; [|by apply (Hwf _ _ E)].
  symmetry. apply array_sort_Permutation.
Qed.

Lemma registries_wf st st' :
  registries st' = registries st → by_colony_wf st → by_colony_wf st'.
Proof. unfold registries, by_colony_wf. intros [= _ -> _ _]. done. Qed.

Lemma init_registries_cases tc now cols st :
  ∃ st0, (st0 = st ∨ st0 = sort_overlords st)
         ∧ registries (fst (init tc now cols st)) = registries st0.
Proof.
  unfold init. unfold bind at 1, gets at 1. unfold bind at 1.
  pose proof (keeps_for_each (directives st)
                (λ d, invoke (DirectiveInit (d_name d)) (d_init d))
                (λ d, keeps_invoke _ _) st) as Hreg.
  destruct (for_each (directives st) _ st) as [st1 [[]|e]]; simpl in Hreg;
    [|exists st; by split; [left|]].
  exists (sort_overlords st). split; [by right|].
  unfold bind at 1, modify at 1. rewrite keeps_bind.
  - by apply sort_overlords_registries.
  - apply keeps_gets.
  - intros os. apply keeps_bind; [apply keeps_for_each, keeps_init_overlord|].
    intros _. apply keeps_logistics.
Qed.

Lemma keeps_run tc now cols : keeps_registries (run tc now cols).
Proof.
  unfold run. apply keeps_bind; [apply keeps_gets|]. intros ds.
  apply keeps_bind; [apply keeps_for_each; auto with registries|]. intros _.
  apply keeps_bind; [apply keeps_gets|]. intros os.
  apply keeps_bind; [apply keeps_for_each, keeps_run_overlord|]. intros _.
  apply keeps_for_each. intros c. apply keeps_bind; auto with registries.
Qed.

Lemma reachable_wf st : reachable st → by_colony_wf st.
Proof.
  induction 1 as [| | d st _ IH | | | | now o st _ IH | tc now cols st _ IH
                 | tc now cols st _ IH]; try done.
  - unfold removeDirective. by apply remove_overlords_wf.
  - by apply registerOverlord_wf.
  - eapply registries_wf; [|exact IH]. apply isOverlordSuspended_rest.
  - destruct (init_registries_cases tc now cols st) as (st0 & [->| ->] & H).
    + by eapply registries_wf.
    + eapply registries_wf; [exact H|]. by apply sort_overlords_wf.
  - eapply registries_wf; [apply keeps_run | exact IH].
Qed.

Lemma removeOverlord_global x st o' :
  In o' (overlords (removeOverlord x st)) ↔ In o' (overlords st) ∧ o_ref o' ≠ o_ref x.
Proof.
  assert (H : overlords (removeOverlord x st)
              = lodash_remove (λ o', String.eqb (o_ref o') (o_ref x)) (overlords st)).
  { unfold removeOverlord. simpl. by destruct (overlordsByColony st !! o_colony x). }
  rewrite H. unfold lodash_remove. rewrite filter_In, negb_true_iff.
  by rewrite String.eqb_neq.
Qed.

Lemma removeOverlord_by_colony x st c l o' :
  overlordsByColony (removeOverlord x st) !! c = Some l → In o' l →
  ∃ l0, overlordsByColony st !! c = Some l0 ∧ In o' l0
        ∧ (o_colony x = c → o_ref o' ≠ o_ref x).
Proof.
  unfold removeOverlord. simpl.
  destruct (overlordsByColony st !! o_colony x) as [os|] eqn:E; simpl.
  - rewrite lookup_insert. case_decide as Hc.
    + intros [= <-] Hin. subst c. exists os.
      unfold lodash_remove in Hin. apply filter_In in Hin as [Hin Hne].
      apply negb_true_iff, String.eqb_neq in Hne. done.
    + intros Hl Hin. exists l. done.
  - intros Hl Hin. exists l. repeat split; try done. intros <-. congruence.
Qed.

Lemma removeOverlord_directives x st : directives (removeOverlord x st) = directives st.
Proof. unfold removeOverlord. simpl. by destruct (overlordsByColony st !! o_colony x). Qed.

Lemma remove_overlords_global entries st o' :
  In o' (overlords (remove_all entries st)) →
  In o' (overlords st) ∧ ∀ e, In e entries → o_ref o' ≠ o_ref (snd e).
Proof.
  unfold remove_all. revert st. induction entries as [|e es IH]; intros st; simpl.
  - intros H. split; [done|]. by intros e [].
  - intros H. apply IH in H as [H Hes].
    apply removeOverlord_global in H as [H He].
    split; [done|]. intros e' [<-|Hin]; auto.
Qed.

Lemma remove_overlords_by_colony entries st c l o' :
  overlordsByColony (remove_all entries st) !! c = Some l → In o' l →
  ∃ l0, overlordsByColony st !! c = Some l0 ∧ In o' l0
        ∧ ∀ e, In e entries → o_colony (snd e) = c → o_ref o' ≠ o_ref (snd e).
Proof.
  unfold remove_all. revert st. induction entries as [|e es IH]; intros st; simpl.
  - intros Hl Hin. exists l. repeat split; done.
  - intros Hl Hin. destruct (IH _ Hl Hin) as (l1 & Hl1 & Hin1 & Hes).
    destruct (removeOverlord_by_colony _ _ _ _ _ Hl1 Hin1) as (l0 & Hl0 & Hin0 & He).
    exists l0. repeat split; try done. intros e' [<-|Hin']; auto.
Qed.

Lemma remove_overlords_directives entries st :
  directives (remove_all entries st) = directives st.
Proof.
  unfold remove_all. revert st. induction entries as [|e es IH]; intros st; simpl;
    [done|]. by rewrite IH, removeOverlord_directives.
Qed.

(** C8: in any state the scheduler can be in, [removeDirective(d)] leaves no
    Directive of [d]'s name in the registry, and no Overlord that [d] owns
    in the global list or in any colony's list (nor, in the global list,
    any Overlord of the same reference). *)
Theorem removeDirective_leaves_no_orphans d st :
  reachable st →
  let st' := removeDirective d st in
  ¬ In d (directives st')
  ∧ (∀ dir, In dir (directives st') → d_name dir ≠ d_name d)
  ∧ (∀ role o, In (role, o) (d_overlords d) →
       ¬ In o (overlords st')
       ∧ (∀ o', In o' (overlords st') → o_ref o' ≠ o_ref o)
       ∧ (∀ c l, overlordsByColony st' !! c = Some l → ¬ In o l)).
Proof.
  intros Hreach st'.
  assert (Hwf : by_colony_wf st') by (apply reachable_wf; by constructor).
  assert (Hnames : ∀ dir, In dir (directives st') → d_name dir ≠ d_name d).
  { intros dir. subst st'. unfold removeDirective. fold (remove_all (d_overlords d)).
    rewrite remove_overlords_directives. simpl. unfold lodash_remove.
    rewrite filter_In, negb_true_iff, String.eqb_neq. tauto. }
  split; [intros Hin; by apply (Hnames d)|]. split; [exact Hnames|].
  intros role o Ho.
  assert (Hrefs : ∀ o', In o' (overlords st') → o_ref o' ≠ o_ref o).
  { intros o' Hin. subst st'. unfold removeDirective in Hin.
    fold (remove_all (d_overlords d)) in Hin.
    apply remove_overlords_global in Hin as [_ Hne]. by apply (Hne (role, o)). }
  split; [intros Hin; by apply (Hrefs o)|]. split; [exact Hrefs|].
  intros c l Hl Hin.
  pose proof (Hwf c l Hl) as Hcol. rewrite List.Forall_forall in Hcol.
  specialize (Hcol o Hin). subst st'. unfold removeDirective in Hl.
  fold (remove_all (d_overlords d)) in Hl.
  destruct (remove_overlords_by_colony _ _ _ _ _ Hl Hin) as (_ & _ & _ & Hne).
  by apply (Hne (role, o)).
Qed.

Lemma removeDirective_leaves_no_orphans_witness :
  overlords (removeDirective extractDirective with_extraction) = [steadyY]
  ∧ ¬ In minerX (overlords (removeDirective extractDirective with_extraction))
  ∧ ¬ In minerY (overlords (removeDirective extractDirective with_extraction)).
Proof.
  assert (Hreach : reachable with_extraction) by (repeat constructor).
  destruct (removeDirective_leaves_no_orphans extractDirective with_extraction Hreach)
    as (_ & _ & Ho).
  split; [vm_compute; reflexivity|]. split.
  - apply (Ho "extract" minerX). simpl. by left.
  - apply (Ho "haul" minerY). simpl. right. by left.
Defined.

(** ** Recomputing the eligible colonies *)

Lemma consider_colony_accepted W anchor colonies routes distances room :
  consider_colony W anchor (colonies, routes, distances) room
  = if accepted W anchor room then
      (colonies ++ [r_name room],
       from_option (λ r, <[r_name room := r]> routes) routes (route_of W anchor room),
       <[r_name room := distance_of W anchor room]> distances)
    else (colonies, routes, distances).
Proof.
  unfold consider_colony, accepted, distance_of, route_of.
  destruct (r_spawns room) as [|spawn ?]; [done|].
  destruct (findRoute W (r_name room) anchor) as [r|]; [|done]. simpl.
  by destruct (negb _ && _).
Qed.

Lemma accepted_route W anchor room :
  accepted W anchor room = true → is_Some (route_of W anchor room).
Proof.
  unfold accepted. destruct (r_spawns room); [done|].
  destruct (route_of W anchor room); [eauto | done].
Qed.

Section Fold.
Context (W : World) (anchor : string).

Abbreviation names := (accepted_names W anchor).

Lemma fold_consider_colony rooms colonies routes distances :
  ∃ routes' distances',
    fold_left (consider_colony W anchor) rooms (colonies, routes, distances)
    = (colonies ++ names rooms, routes', distances')
    ∧ (∀ k, ¬ In k (names rooms) →
         routes' !! k = routes !! k ∧ distances' !! k = distances !! k)
    ∧ (∀ k, In k (names rooms) → is_Some (routes' !! k) ∧ is_Some (distances' !! k))
    ∧ (NoDup (map r_name rooms) →
       ∀ room, In room rooms → accepted W anchor room = true →
         routes' !! r_name room = route_of W anchor room
         ∧ distances' !! r_name room = Some (distance_of W anchor room)).
Proof.
  unfold accepted_names. revert colonies routes distances.
  induction rooms as [|x xs IH]; intros colonies routes distances.
  - exists routes, distances. simpl. rewrite app_nil_r. repeat split; done.
  - cbn [fold_left]. rewrite consider_colony_accepted. cbn [List.filter].
    destruct (accepted W anchor x) eqn:Ex.
    + destruct (accepted_route _ _ _ Ex) as [r Hr]. rewrite Hr. simpl.
      destruct (IH (colonies ++ [r_name x]) (<[r_name x := r]> routes)
                  (<[r_name x := distance_of W anchor x]> distances))
        as (routes' & distances' & -> & Hout & Hin & Hnd).
      exists routes', distances'. rewrite <- app_assoc. split; [done|].
      split; [|split].
      * intros k Hk. destruct (Hout k) as [-> ->]; [tauto|].
        rewrite !lookup_insert_ne by tauto. done.
      * intros k [<-|Hk]; [|by apply Hin].
        destruct (in_dec string_dec (r_name x)
                    (map r_name (List.filter (accepted W anchor) xs))) as [Hk|Hk];
          [by apply Hin|].
        destruct (Hout _ Hk) as [-> ->]. rewrite !lookup_insert_eq. eauto.
      * intros Hnodup room [<-|Hroom] Hacc.
        -- apply NoDup_cons in Hnodup as [Hx _].
           destruct (Hout (r_name x)) as [-> ->].
           { intros Hk. apply Hx. apply list_elem_of_In.
             apply in_map_iff in Hk as (y & Hy & Hk).
             apply filter_In in Hk as [Hk _]. rewrite <- Hy. by apply in_map. }
           by rewrite !lookup_insert_eq, Hr.
        -- apply NoDup_cons in Hnodup as [_ Hxs]. by apply Hnd.
    + destruct (IH colonies routes distances)
        as (routes' & distances' & -> & Hout & Hin & Hnd).
      exists routes', distances'. split; [done|]. split; [done|]. split; [done|].
      intros Hnodup room [<-|Hroom] Hacc; [congruence|].
      apply NoDup_cons in Hnodup as [_ Hxs]. by apply Hnd.
Qed.
End Fold.

Lemma NoDup_map_filter {A B} (f : A → B) (p : A → bool) (l : list A) :
  NoDup (map f l) → NoDup (map f (List.filter p l)).
Proof.
  induction l as [|a l IH]; simpl; [done|].
  rewrite NoDup_cons. intros [Ha Hl]. destruct (p a); simpl; [|by apply IH].
  apply NoDup_cons. split; [|by apply IH].
  intros Hin. apply Ha. apply list_elem_of_In in Hin. apply list_elem_of_In.
  apply in_map_iff in Hin as (y & Hy & Hin). apply filter_In in Hin as [Hin _].
  rewrite <- Hy. by apply in_map.
Qed.

(** What a recomputation writes. *)
Lemma recalculateColonies_spec W anchor mem :
  let rooms := List.filter (in_linear_range W anchor) (getAllColonyRooms W) in
  let mem' := recalculateColonies W anchor mem in
  mem_colonies mem' = map r_name (List.filter (accepted W anchor) rooms)
  ∧ (∀ k, is_Some (mem_routes mem' !! k) ↔ In k (mem_colonies mem'))
  ∧ (∀ k, is_Some (mem_distances mem' !! k) ↔ In k (mem_colonies mem'))
  ∧ (NoDup (map r_name (getAllColonyRooms W)) →
     ∀ room, In room rooms → accepted W anchor room = true →
       mem_routes mem' !! r_name room = route_of W anchor room
       ∧ mem_distances mem' !! r_name room = Some (distance_of W anchor room))
  ∧ mem_expiration mem' = getCacheExpiration W (DEFAULT_RECACHE_TIME W) 25.
Proof.
  intros rooms mem'. subst mem'. unfold recalculateColonies.
  fold (in_linear_range W anchor). fold rooms.
  destruct (fold_consider_colony W anchor rooms [] ∅ ∅)
    as (routes' & distances' & -> & Hout & Hin & Hnd). unfold accepted_names in *. simpl.
  split; [done|]. split; [|split; [|split; [|done]]].
  - intros k. split; [|by apply Hin].
    intros Hk. destruct (in_dec string_dec k
      (map r_name (List.filter (accepted W anchor) rooms))) as [|Hn]; [done|].
    destruct (Hout k Hn) as [Hr _]. rewrite Hr, lookup_empty in Hk. by destruct Hk.
  - intros k. split; [|by apply Hin].
    intros Hk. destruct (in_dec string_dec k
      (map r_name (List.filter (accepted W anchor) rooms))) as [|Hn]; [done|].
    destruct (Hout k Hn) as [_ Hd]. rewrite Hd, lookup_empty in Hk. by destruct Hk.
  - intros Hnodup. apply Hnd. subst rooms.
    by apply NoDup_map_filter.
Qed.



Lemma constructor_memory W initializer settings memory :
  let room := roomName (i_pos initializer) in
  let memory1 := Mem_wrap memory room SpawnGroupMemoryDefaults in
  snd (new_SpawnGroup W initializer settings memory)
  = if Game_time W >=? mem_expiration (this_memory memory1 room)
    then <[room := recalculateColonies W room (this_memory memory1 room)]> memory1
    else memory1.
Proof. reflexivity. Qed.




(** ** The persisted memory of the SpawnGroups *)

Lemma recalculateColonies_keys W anchor mem :
  dom (mem_distances (recalculateColonies W anchor mem))
  = list_to_set (mem_colonies (recalculateColonies W anchor mem))
  ∧ dom (mem_routes (recalculateColonies W anchor mem))
    = list_to_set (mem_colonies (recalculateColonies W anchor mem)).
Proof.
  destruct (recalculateColonies_spec W anchor mem) as (_ & Hr & Hd & _).
  split; apply set_eq; intros k;
    rewrite elem_of_dom, elem_of_list_to_set, list_elem_of_In; [apply Hd | apply Hr].
Qed.

Lemma recalculateColonies_wf W anchor mem :
  keys_within_colonies (recalculateColonies W anchor mem).
Proof.
  destruct (recalculateColonies_keys W anchor mem) as [Hd Hr].
  split; [by rewrite Hd | by rewrite Hr].
Qed.

Lemma defaults_wf : keys_within_colonies SpawnGroupMemoryDefaults.
Proof. split; simpl; by rewrite dom_empty_L. Qed.

Lemma Mem_wrap_wf memory room :
  memory_wf memory → memory_wf (Mem_wrap memory room SpawnGroupMemoryDefaults).
Proof.
  intros Hwf. unfold Mem_wrap. destruct (memory !! room) eqn:E; [done|].
  intros r m. rewrite lookup_insert. case_decide; [|apply Hwf].
  intros [= <-]. apply defaults_wf.
Qed.

Lemma insert_recalculated_wf W room mem memory :
  memory_wf memory → memory_wf (<[room := recalculateColonies W room mem]> memory).
Proof.
  intros Hwf r m. rewrite lookup_insert. case_decide; [|apply Hwf].
  intros [= <-]. apply recalculateColonies_wf.
Qed.

Lemma memory_reachable_wf memory : memory_reachable memory → memory_wf memory.
Proof.
  induction 1 as [|W ini settings memory _ IH|sg memory _ IH|W room memory _ IH].
  - intros room mem. by rewrite lookup_empty.
  - rewrite constructor_memory. destruct (_ >=? _).
    + by apply insert_recalculated_wf, Mem_wrap_wf.
    + by apply Mem_wrap_wf.
  - simpl. by apply Mem_wrap_wf.
  - by apply insert_recalculated_wf.
Qed.

(** C9: in every memory that construction, refresh and recomputation can
    produce, the keys of the cached distances and of the cached routes are
    among the cached colonies; and a recomputation writes colonies,
    distances and routes that owe nothing to what was cached before, the
    keys of both maps being exactly the new colonies. *)
Theorem cache_keys_within_colonies memory room mem :
  memory_reachable memory →
  memory !! room = Some mem →
  keys_within_colonies mem
  ∧ (∀ W anchor mem0,
       recalculateColonies W anchor mem = recalculateColonies W anchor mem0
       ∧ dom (mem_distances (recalculateColonies W anchor mem))
         = list_to_set (mem_colonies (recalculateColonies W anchor mem))
       ∧ dom (mem_routes (recalculateColonies W anchor mem))
         = list_to_set (mem_colonies (recalculateColonies W anchor mem))).
Proof.
  intros Hreach Hmem. split; [by apply (memory_reachable_wf memory Hreach room)|].
  intros W anchor mem0. split; [done|]. apply recalculateColonies_keys.
Qed.

Lemma cache_keys_within_colonies_witness :
  keys_within_colonies
    (this_memory (snd (new_SpawnGroup three_colonies anchorW2N2 noSettings ∅)) "W2N2").
Proof.
  apply (cache_keys_within_colonies
           (snd (new_SpawnGroup three_colonies anchorW2N2 noSettings ∅)) "W2N2").
  - apply memory_construct, memory_initial.
  - vm_compute. reflexivity.
Defined.

(** ** Assigning the requests *)

Lemma minBy_from_spec {T} (iteratee : T → option Z) objects best :
  match minBy_from iteratee objects best with
  | Some (x, v) =>
      (best = Some (x, v) ∨ (In x objects ∧ iteratee x = Some v))
      ∧ (∀ b bv, best = Some (b, bv) → v ≤ bv)
      ∧ (∀ y w, In y objects → iteratee y = Some w → v ≤ w)
  | None => best = None ∧ ∀ y, In y objects → iteratee y = None
  end.
Proof.
  revert best. induction objects as [|obj rest IH]; intros best; simpl.
  - destruct best as [[b bv]|].
    + split; [by left|]. split; [by intros ? ? [= _ <-] | by intros ? ? []].
    + split; [done | by intros ? []].
  - destruct (iteratee obj) as [val|] eqn:Ev.
    + destruct best as [[b minVal]|].
      * destruct (Z.ltb_spec val minVal).
        -- specialize (IH (Some (obj, val))).
           destruct (minBy_from iteratee rest (Some (obj, val))) as [[x v]|].
           ++ destruct IH as (Hx & Hb & Hy). specialize (Hb obj val eq_refl).
              split; [|split].
              ** destruct Hx as [[= <- <-]|[Hin Hv]]; right; auto.
              ** intros ? ? [= _ <-]. lia.
              ** intros y w [<-|Hin] Hw; [|by eapply Hy]. rewrite Ev in Hw.
                 by injection Hw as <-.
           ++ by destruct IH.
        -- specialize (IH (Some (b, minVal))).
           destruct (minBy_from iteratee rest (Some (b, minVal))) as [[x v]|].
           ++ destruct IH as (Hx & Hb & Hy). specialize (Hb b minVal eq_refl).
              split; [|split].
              ** destruct Hx as [Hx|[Hin Hv]]; [by left | right; auto].
              ** intros ? ? [= _ <-]. lia.
              ** intros y w [<-|Hin] Hw; [|by eapply Hy]. rewrite Ev in Hw.
                 injection Hw as <-. lia.
           ++ by destruct IH.
      * specialize (IH (Some (obj, val))).
        destruct (minBy_from iteratee rest (Some (obj, val))) as [[x v]|].
        -- destruct IH as (Hx & Hb & Hy). specialize (Hb obj val eq_refl).
           split; [|split].
           ** destruct Hx as [[= <- <-]|[Hin Hv]]; right; auto.
           ** by intros ? ?.
           ** intros y w [<-|Hin] Hw; [|by eapply Hy]. rewrite Ev in Hw.
              by injection Hw as <-.
        -- by destruct IH.
    + specialize (IH best).
      destruct (minBy_from iteratee rest best) as [[x v]|].
      * destruct IH as (Hx & Hb & Hy). split; [|split; [done|]].
        -- destruct Hx as [Hx|[Hin Hv]]; [by left | right; auto].
        -- intros y w [<-|Hin] Hw; [congruence | by eapply Hy].
      * destruct IH as [Hb Hy]. split; [done|].
        intros y [<-|Hin]; [done | by apply Hy].
Qed.

Lemma minBy_Some {T} (objects : list T) iteratee x :
  minBy objects iteratee = Some x →
  In x objects
  ∧ ∃ v, iteratee x = Some v ∧ ∀ y w, In y objects → iteratee y = Some w → v ≤ w.
Proof.
  unfold minBy. pose proof (minBy_from_spec iteratee objects None) as H.
  destruct (minBy_from iteratee objects None) as [[x' v]|]; [|done].
  simpl. intros [= <-]. destruct H as ([?|[Hin Hv]] & _ & Hy); [done|]. eauto.
Qed.

Lemma minBy_None {T} (objects : list T) iteratee :
  minBy objects iteratee = None → ∀ y, In y objects → iteratee y = None.
Proof.
  unfold minBy. pose proof (minBy_from_spec iteratee objects None) as H.
  destruct (minBy_from iteratee objects None) as [[x' v]|]; [done|]. by destruct H.
Qed.

Lemma nonempty_In {A} (l : list A) : l ≠ [] → ∃ x, In x l.
Proof. destruct l as [|x l]; [done|]. exists x. by left. Qed.

Lemma expected_wait_Some mem om name h d :
  hatchery_of om name = Some h → mem_distances mem !! hatch_roomName h = Some d →
  expected_wait mem om name = Some (nextAvailability h + (d + FIXED_HANDOFF)).
Proof.
  intros Hh Hd. unfold expected_wait, distanceTo. rewrite Hh. simpl. by rewrite Hd.
Qed.

Lemma can_afford_hatchery om maxCost name :
  can_afford om maxCost name = true →
  ∃ h, hatchery_of om name = Some h ∧ maxCost ≤ hatch_energyCapacityAvailable h.
Proof.
  unfold can_afford. destruct (hatchery_of om name) as [h|]; [|done].
  intros H. exists h. split; [done|]. by apply Z.geb_le.
Qed.

Lemma assign_request_step mem sg hatcheries om request :
  let om' := assign_request mem sg hatcheries om request in
  (om_colonies om' = om_colonies om
   ∧ om_warnings om' = om_warnings om ++ [warning_text request (sg_roomName sg)])
  ∨ (∃ best h, In best hatcheries ∧ hatchery_of om best = Some h
       ∧ om_colonies om' = <[best := Some (hatchery_enqueue request h)]> (om_colonies om)
       ∧ om_warnings om' = om_warnings om).
Proof.
  unfold assign_request.
  destruct (minBy _ _) as [best|] eqn:Emin; [|by left].
  right. apply minBy_Some in Emin as (Hin & _).
  apply filter_In in Hin as [Hin Hok].
  apply can_afford_hatchery in Hok as (h & Hh & _).
  exists best, h. repeat split; try done. simpl.
  unfold hatchery_of in Hh. apply map_eq. intros k.
  rewrite lookup_alter, lookup_insert. case_decide; [|done].
  destruct (om_colonies om !! best) as [[h0|]|]; simpl in *; congruence.
Qed.

(** The loop builds no hatchery: a colony that has one at some turn had one
    when the hatcheries were collected. *)
Lemma fold_assign_hatcheries mem sg hatcheries requests om name :
  is_Some (hatchery_of (fold_left (assign_request mem sg hatcheries) requests om) name) →
  is_Some (hatchery_of om name).
Proof.
  revert om. induction requests as [|r rs IH]; intros om; cbn [fold_left]; [done|].
  intros H. apply IH in H.
  destruct (assign_request_step mem sg hatcheries om r)
    as [[Hc _]|(best & h & _ & Hh & Hc & _)]; unfold hatchery_of in *; rewrite Hc in H.
  - done.
  - destruct (decide (best = name)) as [<-|Hne]; [by rewrite Hh|].
    by rewrite lookup_insert_ne in H.
Qed.

Lemma can_serve_considered mem sg om before request name h d :
  let hatcheries := collect_hatcheries sg om in
  let om_i := fold_left (assign_request mem sg hatcheries) before om in
  can_serve mem sg om_i request name h d →
  In name (List.filter (can_afford om_i (maxBodyCost request (sg_energyCapacityAvailable sg)))
             hatcheries)
  ∧ expected_wait mem om_i name = Some (nextAvailability h + (d + FIXED_HANDOFF)).
Proof.
  intros hatcheries om_i (Hin & Hh & Hcost & Hd). split.
  - apply filter_In. split.
    + apply filter_In. split; [done|]. apply bool_decide_eq_true.
      apply (fold_assign_hatcheries mem sg hatcheries before). fold om_i. by rewrite Hh.
    + unfold can_afford. rewrite Hh. by apply Z.geb_le.
  - by apply expected_wait_Some.
Qed.

Lemma considered_can_serve mem sg om_i hatcheries request name v :
  (∀ x, In x hatcheries → In x (sg_colonyNames sg)) →
  In name (List.filter (can_afford om_i (maxBodyCost request (sg_energyCapacityAvailable sg)))
             hatcheries) →
  expected_wait mem om_i name = Some v →
  ∃ h d, can_serve mem sg om_i request name h d ∧ v = nextAvailability h + (d + FIXED_HANDOFF).
Proof.
  intros Hsub Hin Hv. apply filter_In in Hin as [Hin Hok].
  apply can_afford_hatchery in Hok as (h & Hh & Hcost).
  unfold expected_wait, distanceTo in Hv. rewrite Hh in Hv. simpl in Hv.
  destruct (mem_distances mem !! hatch_roomName h) as [d|] eqn:Ed; [|done].
  injection Hv as <-. exists h, d. split; [|done]. repeat split; auto.
Qed.

(** C3 (as amended): for every buffered request, at its turn in the loop of
    [SpawnGroup.init].  The producers it can go to are the hatcheries of the
    group's colonies whose room can afford the largest body and has a cached
    distance.  If there is none (in particular, if no hatchery can afford
    the body), no hatchery receives the request and exactly one warning,
    "Could not enqueue creep", the role, "from spawnGroup in", the anchor
    room, is logged.  If there is one, the request is appended to the queue
    of exactly one of them, one whose nextAvailability + cached distance +
    25 is least among all of them, and no warning is logged. *)
Theorem request_goes_to_least_wait memory sg om before request after :
  sg_requests sg = before ++ request :: after →
  let mem := this_memory memory (sg_roomName sg) in
  let hatcheries := collect_hatcheries sg om in
  let om_i := fold_left (assign_request mem sg hatcheries) before om in
  let om' := assign_request mem sg hatcheries om_i request in
  SpawnGroup_init memory sg om = fold_left (assign_request mem sg hatcheries) after om'
  ∧ ((∀ name h d, ¬ can_serve mem sg om_i request name h d) →
       om_colonies om' = om_colonies om_i
       ∧ om_warnings om'
         = om_warnings om_i
           ++ ["Could not enqueue creep " +:+ role request +:+ " from spawnGroup in "
               +:+ sg_roomName sg])
  ∧ (∀ name0 h0 d0, can_serve mem sg om_i request name0 h0 d0 →
       ∃ best h d,
         can_serve mem sg om_i request best h d
         ∧ (∀ name h' d', can_serve mem sg om_i request name h' d' →
              nextAvailability h + d + 25 ≤ nextAvailability h' + d' + 25)
         ∧ om_warnings om' = om_warnings om_i
         ∧ hatchery_of om' best
           = Some (mkHatchery (hatch_roomName h) (hatch_energyCapacityAvailable h)
                     (hatch_queue h ++ [request]) (hatch_availability h))
         ∧ (∀ name, name ≠ best → om_colonies om' !! name = om_colonies om_i !! name)).
Proof.
  intros Hreqs mem hatcheries om_i om'.
  assert (Hsub : ∀ x, In x hatcheries → In x (sg_colonyNames sg)).
  { intros x Hx. by apply filter_In in Hx as [Hx _]. }
  split; [|split].
  - unfold SpawnGroup_init. fold mem hatcheries. rewrite Hreqs, fold_left_app. done.
  - intros Hnone. subst om'. unfold assign_request.
    destruct (minBy _ _) as [best|] eqn:Emin; [|done].
    apply minBy_Some in Emin as (Hin & v & Hv & _).
    destruct (considered_can_serve mem sg om_i hatcheries request best v Hsub Hin Hv)
      as (h & d & Hserve & _).
    by destruct (Hnone best h d).
  - intros name0 h0 d0 Hserve0.
    destruct (can_serve_considered mem sg om before request name0 h0 d0 Hserve0)
      as [Hin0 Hw0].
    fold hatcheries om_i in Hin0, Hw0.
    subst om'. unfold assign_request.
    destruct (minBy _ _) as [best|] eqn:Emin.
    + apply minBy_Some in Emin as (Hin & v & Hv & Hleast).
      destruct (considered_can_serve mem sg om_i hatcheries request best v Hsub Hin Hv)
        as (h & d & Hserve & ->).
      exists best, h, d. split; [done|]. split; [|split; [done|split]].
      * intros name h' d' Hserve'.
        destruct (can_serve_considered mem sg om before request name h' d' Hserve')
          as [Hin' Hw']. fold hatcheries om_i in Hin', Hw'.
        specialize (Hleast name _ Hin' Hw'). unfold FIXED_HANDOFF in Hleast. lia.
      * destruct Hserve as (_ & Hh & _). unfold hatchery_of in *. simpl.
        rewrite lookup_alter_eq.
        destruct (om_colonies om_i !! best) as [[?|]|]; simpl in *; [|done..].
        injection Hh as ->. done.
      * intros name Hne. simpl. by rewrite lookup_alter_ne.
    + pose proof (minBy_None _ _ Emin name0 Hin0) as Hn. by rewrite Hw0 in Hn.
Qed.

(** The colonies an instance is constructed with all have a cached
    distance in the memory the constructor leaves. *)
Lemma constructor_colonyNames_cached W initializer settings memory name :
  let sg := fst (new_SpawnGroup W initializer settings memory) in
  let memory' := snd (new_SpawnGroup W initializer settings memory) in
  In name (sg_colonyNames sg) →
  is_Some (mem_distances (this_memory memory' (sg_roomName sg)) !! name).
Proof.
  intros sg memory' Hin. subst sg memory'. unfold new_SpawnGroup in *. simpl in *.
  apply filter_In in Hin as [_ Hin]. unfold colony_usable in Hin.
  destruct (mem_distances _ !! name); [eauto | done].
Qed.

Example third_producer_is_chosen :
  let om' := SpawnGroup_init cachedDistances (groupW2N2 [smallCreep; hugeCreep])
               three_producers in
  hatch_queue <$> hatchery_of om' "W1N1" = Some []
  ∧ hatch_queue <$> hatchery_of om' "W2N1" = Some []
  ∧ hatch_queue <$> hatchery_of om' "W3N1" = Some [smallCreep]
  ∧ om_warnings om' = ["Could not enqueue creep hydralisk from spawnGroup in W2N2"].
Proof. intros om'. repeat split; vm_compute; reflexivity. Qed.

Lemma request_goes_to_least_wait_witness :
  (hatch_queue <$> hatchery_of
     (SpawnGroup_init cachedDistances (groupW2N2 [smallCreep]) three_producers) "W3N1"
   = Some [smallCreep]
   ∧ om_warnings (SpawnGroup_init cachedDistances (groupW2N2 [smallCreep]) three_producers)
     = [])
  ∧ om_warnings (SpawnGroup_init cachedDistances (groupW2N2 [hugeCreep]) three_producers)
    = ["Could not enqueue creep hydralisk from spawnGroup in W2N2"].
Proof.
  split.
  - destruct (request_goes_to_least_wait cachedDistances (groupW2N2 (cons smallCreep nil))
                three_producers nil smallCreep nil eq_refl) as (Hinit & _ & Hsome).
    rewrite Hinit. clear Hinit.
    destruct (Hsome "W3N1" (hatcheryAt "W3N1" 5) 5)
      as (best & h & d & (Hin & Hh & _ & Hd) & Hleast & Hw & Hq & _).
    { repeat split; [simpl; tauto | vm_compute; discriminate]. }
    clear Hsome.
    assert (H3 : nextAvailability h + d + 25 ≤ 5 + 5 + 25).
    { apply (Hleast "W3N1" (hatcheryAt "W3N1" 5) 5).
      repeat split; [simpl; tauto | vm_compute; discriminate]. }
    clear Hleast.
    assert (Hbest : best = "W3N1").
    { destruct Hin as [<-|[<-|[<-|[]]]]; [| |done];
        vm_compute in Hh; injection Hh as <-; vm_compute in Hd; injection Hd as <-;
        exfalso; revert H3; vm_compute; intros H3; by apply H3. }
    subst best. split; [|exact Hw].
    cbn [fold_left] in *. rewrite Hq. vm_compute in Hh. injection Hh as <-. reflexivity.
  - destruct (request_goes_to_least_wait cachedDistances (groupW2N2 (cons hugeCreep nil))
                three_producers nil hugeCreep nil eq_refl) as (Hinit & Hnone & _).
    rewrite Hinit. cbn [fold_left]. apply Hnone.
    intros name h d (Hin & Hh & Hcost & _).
    destruct Hin as [<-|[<-|[<-|[]]]]; vm_compute in Hh; injection Hh as <-;
      vm_compute in Hcost; by apply Hcost.
Defined.

(** C3, as stated, fails.  The colonies of a group are fixed when it is
    constructed, while the cached distances are shared with every group at
    the same anchor and rewritten by whichever of them is constructed after
    the cache has expired.  Here the group still counts W1N1 among its
    colonies, the hatchery of W1N1 can afford the body, and the request is
    dropped with a warning all the same, W1N1 having no cached distance any
    more. *)
Lemma stale_group_drops_affordable_request :
  memory_reachable staleMemory
  ∧ sg_colonyNames staleGroup = ["W1N1"]
  ∧ sg_requests staleGroup = [smallCreep]
  ∧ (∃ h, hatchery_of lone_producer "W1N1" = Some h
          ∧ maxBodyCost smallCreep (sg_energyCapacityAvailable staleGroup)
            ≤ hatch_energyCapacityAvailable h)
  ∧ om_colonies (SpawnGroup_init staleMemory staleGroup lone_producer)
    = om_colonies lone_producer
  ∧ om_warnings (SpawnGroup_init staleMemory staleGroup lone_producer)
    = ["Could not enqueue creep zergling from spawnGroup in W2N2"].
Proof.
  split; [|split; [|split; [|split; [|split]]]].
  - apply memory_refresh, memory_construct, memory_construct, memory_initial.
  - vm_compute. reflexivity.
  - vm_compute. reflexivity.
  - eexists. split; [vm_compute; reflexivity | vm_compute; discriminate].
  - vm_compute. reflexivity.
  - vm_compute. reflexivity.
Qed.

(** ** The flexibleEnergy setting *)

Lemma constructors_differ_only_in_flexibleEnergy W initializer s1 s2 memory :
  p_maxPathDistance s1 = p_maxPathDistance s2 →
  p_requiredRCL s1 = p_requiredRCL s2 →
  differ_only_in_flexibleEnergy (fst (new_SpawnGroup W initializer s1 memory))
                                (fst (new_SpawnGroup W initializer s2 memory))
  ∧ snd (new_SpawnGroup W initializer s1 memory)
    = snd (new_SpawnGroup W initializer s2 memory).
Proof.
  intros Hd Hl. unfold differ_only_in_flexibleEnergy, new_SpawnGroup. simpl.
  assert (Hu : ∀ mem, colony_usable W mem (lodash_defaults s1 defaultSettings)
                      = colony_usable W mem (lodash_defaults s2 defaultSettings)).
  { intros mem. unfold colony_usable, lodash_defaults. simpl. by rewrite Hd, Hl. }
  rewrite !Hu, Hd, Hl. done.
Qed.

Lemma enqueue_differ_only request sg1 sg2 :
  differ_only_in_flexibleEnergy sg1 sg2 →
  differ_only_in_flexibleEnergy (enqueue request sg1) (enqueue request sg2).
Proof.
  unfold differ_only_in_flexibleEnergy. simpl.
  intros (-> & ? & ? & ? & ? & ? & ?). done.
Qed.

(** C10: two instances that differ in nothing but [settings.flexibleEnergy],
    run on the same memory and the same colonies, collect the same
    hatcheries, keep the same ones for every request, and leave the same
    queues and the same warnings. *)
Theorem init_ignores_flexibleEnergy memory sg1 sg2 om :
  differ_only_in_flexibleEnergy sg1 sg2 →
  collect_hatcheries sg1 om = collect_hatcheries sg2 om
  ∧ (∀ request om_i,
       List.filter (can_afford om_i (maxBodyCost request (sg_energyCapacityAvailable sg1)))
         (collect_hatcheries sg1 om)
       = List.filter (can_afford om_i (maxBodyCost request (sg_energyCapacityAvailable sg2)))
           (collect_hatcheries sg2 om))
  ∧ SpawnGroup_init memory sg1 om = SpawnGroup_init memory sg2 om.
Proof.
  intros (Hreq & Hroom & Hnames & Henergy & _).
  assert (Hc : collect_hatcheries sg1 om = collect_hatcheries sg2 om)
    by (unfold collect_hatcheries; by rewrite Hnames).
  split; [done|]. split; [intros request om_i; by rewrite Henergy, Hc|].
  unfold SpawnGroup_init. rewrite Hreq, Hroom, Hc.
  generalize (collect_hatcheries sg2 om). intros hatcheries.
  assert (Ha : ∀ om_i request,
            assign_request (this_memory memory (sg_roomName sg2)) sg1
              hatcheries om_i request
            = assign_request (this_memory memory (sg_roomName sg2)) sg2
                hatcheries om_i request)
    by (intros; unfold assign_request; by rewrite Henergy, Hroom).
  clear Hreq. generalize om.
  induction (sg_requests sg2) as [|r rs IH]; intros om0; simpl; [done|].
  by rewrite Ha, IH.
Qed.

Lemma init_ignores_flexibleEnergy_witness :
  let sg1 := enqueue smallCreep (fst (new_SpawnGroup three_colonies anchorW2N2 rigid ∅)) in
  let sg2 := enqueue smallCreep (fst (new_SpawnGroup three_colonies anchorW2N2 flexible ∅)) in
  let memory := snd (new_SpawnGroup three_colonies anchorW2N2 rigid ∅) in
  flexibleEnergy (sg_settings sg1) ≠ flexibleEnergy (sg_settings sg2)
  ∧ SpawnGroup_init memory sg1 three_producers = SpawnGroup_init memory sg2 three_producers.
Proof.
  intros sg1 sg2 memory. split; [vm_compute; discriminate|].
  apply (init_ignores_flexibleEnergy memory sg1 sg2 three_producers).
  apply enqueue_differ_only.
  apply (constructors_differ_only_in_flexibleEnergy three_colonies anchorW2N2
           rigid flexible ∅); reflexivity.
Defined.

(** ** The colony lists follow the global list *)

Lemma sort_insert_front a l :
  Forall (priority_le a) l → sort_insert by_priority a l = a :: l.
Proof.
  intros Hl. destruct Hl as [|b l Hb _]; simpl; [done|].
  by rewrite (proj2 (by_priority_le a b) Hb).
Qed.

Lemma filter_sort_insert (p : Overlord → bool) a l :
  StronglySorted priority_le l →
  List.filter p (sort_insert by_priority a l)
  = if p a then sort_insert by_priority a (List.filter p l) else List.filter p l.
Proof.
  induction 1 as [|b l Hl IH Hb]; simpl; [by destruct (p a)|].
  destruct (by_priority a b <=? 0) eqn:E.
  - simpl. destruct (p a); [|done]. f_equal.
    apply by_priority_le in E. symmetry.
    change (if p b then b :: List.filter p l else List.filter p l)
      with (List.filter p (b :: l)).
    apply sort_insert_front. apply List.Forall_forall. intros x Hx.
    apply filter_In in Hx as [Hx _]. destruct Hx as [<-|Hx]; [done|].
    rewrite List.Forall_forall in Hb. specialize (Hb x Hx).
    unfold priority_le in *. lia.
  - simpl. rewrite IH. destruct (p a), (p b); simpl; try done. by rewrite E.
Qed.

Lemma array_sort_strongly_sorted l : StronglySorted priority_le (array_sort by_priority l).
Proof.
  apply Sorted_StronglySorted; [intros x y z; unfold priority_le; lia|].
  apply array_sort_sorted.
Qed.

(** Sorting and restricting to a colony can be done in either order. *)
Lemma filter_array_sort (p : Overlord → bool) l :
  List.filter p (array_sort by_priority l) = array_sort by_priority (List.filter p l).
Proof.
  induction l as [|a l IH]; simpl; [done|].
  rewrite filter_sort_insert by apply array_sort_strongly_sorted.
  rewrite IH. by destruct (p a).
Qed.

Lemma grouped_registries st st' : registries st' = registries st → grouped st → grouped st'.
Proof. unfold registries, grouped. intros [= -> -> _ _]. done. Qed.

Lemma grouped_registerOverlord o st : grouped st → grouped (registerOverlord o st).
Proof.
  intros Hg c. specialize (Hg c). unfold registerOverlord. simpl.
  destruct (overlordsByColony st !! o_colony o) as [os|] eqn:E; simpl;
    rewrite List.filter_app; simpl; rewrite lookup_alter; case_decide as Hc.
  - subst c. rewrite E in *. simpl in *. by rewrite Hg, String.eqb_refl.
  - rewrite Hg. apply String.eqb_neq in Hc. by rewrite Hc, app_nil_r.
  - subst c. rewrite lookup_insert_eq. rewrite E in Hg. simpl in *.
    by rewrite <- Hg, String.eqb_refl.
  - rewrite lookup_insert_ne by done. rewrite Hg.
    apply String.eqb_neq in Hc. by rewrite Hc, app_nil_r.
Qed.

Lemma filter_filter_comm {A} (p q : A → bool) l :
  List.filter p (List.filter q l) = List.filter q (List.filter p l).
Proof.
  induction l as [|a l IH]; simpl; [done|].
  destruct (p a) eqn:Ep, (q a) eqn:Eq; simpl; rewrite ?Ep, ?Eq, IH; done.
Qed.

Lemma filter_all {A} (p : A → bool) l :
  (∀ x, In x l → p x = true) → List.filter p l = l.
Proof.
  induction l as [|a l IH]; simpl; [done|]. intros H.
  rewrite (H a) by (by left). f_equal. apply IH. intros x Hx. apply H. by right.
Qed.

Lemma grouped_removeOverlord o st :
  grouped st →
  (∀ o', In o' (overlords st) → o_ref o' = o_ref o → o_colony o' = o_colony o) →
  grouped (removeOverlord o st).
Proof.
  intros Hg Hshared c. pose proof (Hg c) as Hc. pose proof (Hg (o_colony o)) as Ho.
  unfold removeOverlord. simpl.
  destruct (overlordsByColony st !! o_colony o) as [os|] eqn:E; simpl in *.
  - rewrite lookup_insert. case_decide as Heq.
    + subst c. simpl. unfold lodash_remove. rewrite Ho. apply filter_filter_comm.
    + rewrite Hc. unfold lodash_remove. rewrite filter_filter_comm.
      symmetry. apply filter_all. intros x Hx. apply filter_In in Hx as [Hx Hcol].
      apply negb_true_iff, String.eqb_neq. intros Href.
      apply String.eqb_eq in Hcol. apply Heq. rewrite <- Hcol. symmetry. by apply Hshared.
  - rewrite Hc. unfold lodash_remove. rewrite filter_filter_comm.
    symmetry. apply filter_all. intros x Hx. apply filter_In in Hx as [Hx Hcol].
    apply negb_true_iff, String.eqb_neq. intros Href.
    apply String.eqb_eq in Hcol. specialize (Hshared x Hx Href).
    assert (Hin : In x (List.filter (λ o', String.eqb (o_colony o') (o_colony o))
                          (overlords st))).
    { apply filter_In. split; [done|]. by apply String.eqb_eq. }
    rewrite <- Ho in Hin. destruct Hin.
Qed.

Lemma grouped_sort_overlords st : grouped st → grouped (sort_overlords st).
Proof.
  intros Hg c. specialize (Hg c). unfold sort_overlords.
  destruct (sorted st); [done|]. simpl. rewrite lookup_fmap, filter_array_sort, <- Hg.
  by destruct (overlordsByColony st !! c).
Qed.

(** X1: in every state the Overseer reaches from its construction through
    registrations, suspensions, [init], [run] and removals of Overlords whose
    reference is not shared across colonies, each colony's list is the
    global list restricted to that colony, in the same order. *)
Theorem colony_lists_follow_global_list st :
  orderly st →
  ∀ c, default [] (overlordsByColony st !! c)
       = List.filter (λ o, String.eqb (o_colony o) c) (overlords st).
Proof.
  intros H. change (grouped st).
  induction H as [| | | o st _ IH Hshared | | | now o st _ IH | tc now cols st _ IH
                 | tc now cols st _ IH]; try done.
  - by apply grouped_registerOverlord.
  - by apply grouped_removeOverlord.
  - eapply grouped_registries; [|exact IH]. apply isOverlordSuspended_rest.
  - destruct (init_registries_cases tc now cols st) as (st0 & [->| ->] & Hreg).
    + by eapply grouped_registries.
    + eapply grouped_registries; [exact Hreg|]. by apply grouped_sort_overlords.
  - eapply grouped_registries; [apply keeps_run | exact IH].
Qed.

Lemma colony_lists_follow_global_list_witness :
  default [] (overlordsByColony
                (fst (init true 100 []
                   (registerOverlord overlordB (registerOverlord faultyZ
                      (registerOverlord overlordA (new_Overseer ∅ [])))))) !! "W1N1")
  = [overlordB; overlordA].
Proof.
  rewrite (colony_lists_follow_global_list
             (fst (init true 100 nil
                (registerOverlord overlordB (registerOverlord faultyZ
                   (registerOverlord overlordA (new_Overseer ∅ nil))))))).
  - vm_compute. reflexivity.
  - repeat constructor.
Defined.

Example shared_reference_breaks_grouping :
  let st := removeOverlord sharedRefNorth
              (registerOverlord sharedRefSouth
                 (registerOverlord sharedRefNorth (new_Overseer ∅ []))) in
  overlords st = [] ∧ overlordsByColony st !! "W1S1" = Some [sharedRefSouth].
Proof. intros st. split; vm_compute; reflexivity. Qed.

(** ** Registering and removing *)

(** X2: registering an Overlord whose reference is not yet in the registries
    and removing it again gives back the global list and every colony's
    list; of the registration only a list for the colony remains, empty if
    there was none. *)
Theorem register_then_remove o st :
  (∀ o', In o' (overlords st) → o_ref o' ≠ o_ref o) →
  (∀ o', In o' (default [] (overlordsByColony st !! o_colony o)) → o_ref o' ≠ o_ref o) →
  let st' := removeOverlord o (registerOverlord o st) in
  overlords st' = overlords st
  ∧ overlordsByColony st'
    = <[o_colony o := default [] (overlordsByColony st !! o_colony o)]> (overlordsByColony st)
  ∧ directives st' = directives st
  ∧ sorted st' = sorted st
  ∧ suspendUntil st' = suspendUntil st.
Proof.
  intros Hg Hc st'. subst st'.
  assert (Hrm : ∀ l, (∀ o', In o' l → o_ref o' ≠ o_ref o) →
            lodash_remove (λ o', String.eqb (o_ref o') (o_ref o)) (l ++ [o]) = l).
  { intros l Hl. unfold lodash_remove. rewrite List.filter_app. simpl.
    rewrite String.eqb_refl. simpl. rewrite app_nil_r. apply filter_all.
    intros x Hx. apply negb_true_iff, String.eqb_neq. by apply Hl. }
  unfold removeOverlord, registerOverlord. simpl.
  destruct (overlordsByColony st !! o_colony o) as [os|] eqn:E; simpl in *.
  - rewrite lookup_alter_eq, E. simpl. rewrite !Hrm by done.
    repeat split; try done. apply map_eq. intros c.
    rewrite !lookup_insert. case_decide; [done|]. by rewrite lookup_alter_ne.
  - rewrite lookup_alter_eq, lookup_insert_eq. simpl. rewrite Hrm by done.
    pose proof (Hrm [] ltac:(by intros ? [])) as Hnil. simpl in Hnil. rewrite Hnil.
    repeat split; try done. apply map_eq. intros c.
    rewrite !lookup_insert. case_decide; [done|].
    rewrite lookup_alter_ne by done. by rewrite lookup_insert_ne.
Qed.

Lemma register_then_remove_witness :
  overlords (removeOverlord overlordA (registerOverlord overlordA three_overlords))
  = overlords three_overlords.
Proof.
  apply (register_then_remove overlordA three_overlords).
  - intros o' Hin. vm_compute in Hin.
    destruct Hin as [<-|[<-|[<-|[]]]]; vm_compute; discriminate.
  - intros o' Hin. vm_compute in Hin.
    destruct Hin as [<-|[<-|[]]]; vm_compute; discriminate.
Defined.

Lemma remove_all_overlords (entries : list (string * Overlord)) st :
  overlords (remove_all entries st)
  = List.filter
      (λ o, forallb (λ entry, negb (String.eqb (o_ref o) (o_ref (snd entry)))) entries)
      (overlords st).
Proof.
  unfold remove_all. revert st. induction entries as [|e es IH]; intros st; simpl.
  - symmetry. by apply filter_all.
  - rewrite IH.
    assert (H : overlords (removeOverlord (snd e) st)
                = lodash_remove (λ o', String.eqb (o_ref o') (o_ref (snd e))) (overlords st)).
    { unfold removeOverlord. simpl. by destruct (overlordsByColony st !! _). }
    rewrite H. unfold lodash_remove. generalize (overlords st). intros l.
    induction l as [|a l IHl]; simpl; [done|].
    destruct (String.eqb (o_ref a) (o_ref (snd e))); simpl; [done|].
    destruct (forallb _ es); simpl; by rewrite IHl.
Qed.

Lemma remove_all_rest (entries : list (string * Overlord)) st :
  sorted (remove_all entries st) = sorted st
  ∧ suspendUntil (remove_all entries st) = suspendUntil st
  ∧ exceptions (remove_all entries st) = exceptions st
  ∧ calls (remove_all entries st) = calls st.
Proof.
  unfold remove_all. revert st. induction entries as [|e es IH]; intros st; simpl; [done|].
  destruct (IH (removeOverlord (snd e) st)) as (-> & -> & -> & ->).
  unfold removeOverlord. simpl. by destruct (overlordsByColony st !! _).
Qed.

(** X3: [removeDirective(d)] takes out of the registry exactly the
    Directives of [d]'s name and out of the global list exactly the
    Overlords whose reference is that of one of [d]'s Overlords; what
    remains keeps its order, and the sorted flag, the suspensions and the
    exception list are left alone. *)
Theorem removeDirective_removes_exactly d st :
  directives (removeDirective d st)
  = List.filter (λ dir, negb (String.eqb (d_name dir) (d_name d))) (directives st)
  ∧ overlords (removeDirective d st) = List.filter (not_owned_by d) (overlords st)
  ∧ sorted (removeDirective d st) = sorted st
  ∧ suspendUntil (removeDirective d st) = suspendUntil st
  ∧ exceptions (removeDirective d st) = exceptions st.
Proof.
  set (st1 := set_directives (lodash_remove (λ dir, String.eqb (d_name dir) (d_name d))) st).
  assert (Heq : removeDirective d st = remove_all (d_overlords d) st1) by done.
  rewrite Heq, remove_overlords_directives, remove_all_overlords.
  destruct (remove_all_rest (d_overlords d) st1) as (Hs & Hu & He & _).
  rewrite Hs, Hu, He. done.
Qed.

(** ** What a suspension keeps away *)

Lemma skips_ret {A} now ref (a : A) : skips now ref (ret a).
Proof. intros st H. split; [done|]. exists []. by rewrite app_nil_r. Qed.

Lemma skips_gets {A} now ref (f : State → A) : skips now ref (gets f).
Proof. intros st H. split; [done|]. exists []. by rewrite app_nil_r. Qed.

Lemma skips_bind {A B} now ref (m : M A) (k : A → M B) :
  skips now ref m → (∀ a, skips now ref (k a)) → skips now ref (bind m k).
Proof.
  intros Hm Hk st H. unfold bind. destruct (Hm st H) as (H1 & new1 & Hc1 & Hf1).
  destruct (m st) as [st1 [a|e]]; simpl in *; [|eauto].
  destruct (Hk a st1 H1) as (H2 & new2 & Hc2 & Hf2).
  split; [done|]. exists (new1 ++ new2).
  rewrite Hc2, Hc1, <- app_assoc. split; [done|]. by apply Forall_app.
Qed.

Lemma skips_for_each {A} now ref (xs : list A) (body : A → M unit) :
  (∀ x, skips now ref (body x)) → skips now ref (for_each xs body).
Proof.
  intros Hb. induction xs as [|x xs IH]; simpl; [apply skips_ret|].
  apply skips_bind; auto.
Qed.

Lemma skips_invoke now ref c body : touches ref c = false → skips now ref (invoke c body).
Proof.
  intros Hc st H. unfold invoke.
  destruct body; simpl; (split; [done|]); exists [c]; split; try done; by constructor.
Qed.

Lemma skips_try now ref tc text cb ident :
  skips now ref cb → skips now ref (try_ tc text cb ident).
Proof.
  intros Hcb st H. unfold try_. specialize (Hcb st H).
  destruct tc; [|done]. by destruct (cb st) as [st' [[]|[e|r|r]]].
Qed.

Lemma skips_sort now ref : skips now ref (modify sort_overlords).
Proof.
  intros st H. unfold modify. simpl.
  destruct (sort_overlords_rest st) as (-> & _ & -> & _).
  split; [done|]. exists []. by rewrite app_nil_r.
Qed.

Lemma skips_guarded now ref o (m : M unit) :
  (o_ref o ≠ ref → skips now ref m) →
  skips now ref
    (let* suspended := check_suspended now o in if suspended : bool then ret tt else m).
Proof.
  intros Hm st H. unfold bind, check_suspended.
  pose proof (isOverlordSuspended_verdict now o st) as Hv.
  pose proof (isOverlordSuspended_verdicts_kept now o st ref) as Hk.
  pose proof (isOverlordSuspended_rest now o st) as (_ & _ & Hc).
  destruct (isOverlordSuspended now o st) as [b st1]. simpl in Hv, Hk, Hc.
  rewrite <- Hk in H. destruct b.
  - unfold ret. simpl. split; [done|]. exists []. by rewrite app_nil_r, Hc.
  - assert (Hne : o_ref o ≠ ref) by (intros Heq; rewrite Heq in Hv; congruence).
    destruct (Hm Hne st1 H) as (H1 & new & Hc1 & Hf).
    split; [done|]. exists new. by rewrite Hc1, Hc.
Qed.

Lemma skips_init_overlord tc now ref o : skips now ref (init_overlord tc now o).
Proof.
  apply skips_guarded. intros Hne.
  assert (String.eqb (o_ref o) ref = false) by (by apply String.eqb_neq).
  apply skips_bind; [by apply skips_invoke|]. intros _.
  apply skips_try. by apply skips_invoke.
Qed.

Lemma skips_run_overlord tc now ref o : skips now ref (run_overlord tc now o).
Proof.
  apply skips_guarded. intros Hne.
  assert (String.eqb (o_ref o) ref = false) by (by apply String.eqb_neq).
  apply skips_try. by apply skips_invoke.
Qed.

(** X4: whatever the tasks do and whether or not exceptions are caught, an
    Overlord suspended at the current tick gets none of the scheduler's
    calls in [init] or [run]: no preInit, no init, no run. *)
Theorem suspended_overlord_never_invoked tc now cols st ref :
  suspended_at now (suspendUntil st) ref = true →
  (∃ new, calls (fst (init tc now cols st)) = calls st ++ new
          ∧ Forall (λ c, touches ref c = false) new)
  ∧ (∃ new, calls (fst (run tc now cols st)) = calls st ++ new
            ∧ Forall (λ c, touches ref c = false) new).
Proof.
  intros H. split.
  - apply (skips_bind now ref (gets directives)); [apply skips_gets| |done]. intros ds.
    apply skips_bind; [apply skips_for_each; intros d; by apply skips_invoke|]. intros _.
    apply skips_bind; [apply skips_sort|]. intros _.
    apply skips_bind; [apply skips_gets|]. intros os.
    apply skips_bind; [apply skips_for_each, skips_init_overlord|]. intros _.
    apply skips_for_each. intros c. by apply skips_invoke.
  - apply (skips_bind now ref (gets directives)); [apply skips_gets| |done]. intros ds.
    apply skips_bind; [apply skips_for_each; intros d; by apply skips_invoke|]. intros _.
    apply skips_bind; [apply skips_gets|]. intros os.
    apply skips_bind; [apply skips_for_each, skips_run_overlord|]. intros _.
    apply skips_for_each. intros c. apply skips_bind; [by apply skips_invoke|].
    intros _. by apply skips_invoke.
Qed.

Lemma suspended_overlord_never_invoked_witness :
  calls (fst (init true 102 []
                (suspendOverlordFor 100 faultyX 5 three_overlords)))
  = [OverlordPreInit "Y"; OverlordInit "Y"; OverlordPreInit "Z"; OverlordInit "Z"]
  ∧ ∃ new, calls (fst (init true 102 []
                         (suspendOverlordFor 100 faultyX 5 three_overlords)))
           = calls (suspendOverlordFor 100 faultyX 5 three_overlords) ++ new
           ∧ Forall (λ c, touches "X" c = false) new.
Proof.
  split; [vm_compute; reflexivity|].
  apply (suspended_overlord_never_invoked true 102 nil
           (suspendOverlordFor 100 faultyX 5 three_overlords) "X").
  vm_compute. reflexivity.
Defined.

(** X5: a read of the ledger changes no answer any read gives at that tick
    or later, for any Overlord: the deletion of an expired record cannot be
    observed through [isOverlordSuspended].  A second read at the same tick
    changes nothing at all. *)
Theorem lazy_deletion_is_unobservable now later o o' st :
  now ≤ later →
  fst (isOverlordSuspended later o' (snd (isOverlordSuspended now o st)))
  = fst (isOverlordSuspended later o' st)
  ∧ snd (isOverlordSuspended now o (snd (isOverlordSuspended now o st)))
    = snd (isOverlordSuspended now o st).
Proof.
  intros Hle. rewrite !isOverlordSuspended_verdict. split.
  - unfold isOverlordSuspended.
    destruct (suspendUntil st !! o_ref o) as [until|] eqn:E; [|done].
    destruct (truthy until) eqn:Et; [|done].
    destruct (Z.ltb_spec now until); [done|]. simpl.
    unfold suspended_at. rewrite lookup_delete. case_decide as Hr; [|done].
    rewrite <- Hr, E, Et. simpl. symmetry. apply Z.ltb_ge. lia.
  - unfold isOverlordSuspended at 2.
    destruct (suspendUntil st !! o_ref o) as [until|] eqn:E.
    + destruct (truthy until) eqn:Et.
      * destruct (now <? until) eqn:El; simpl.
        -- unfold isOverlordSuspended. by rewrite E, Et, El.
        -- unfold isOverlordSuspended. simpl. by rewrite lookup_delete_eq, E, Et, El.
      * simpl. unfold isOverlordSuspended. by rewrite E, Et.
    + simpl. unfold isOverlordSuspended. by rewrite E.
Qed.

Lemma lazy_deletion_is_unobservable_witness :
  fst (isOverlordSuspended 107 overlordA
         (snd (isOverlordSuspended 105 overlordA
                 (suspendOverlordFor 100 overlordA 5 (new_Overseer ∅ [])))))
  = fst (isOverlordSuspended 107 overlordA
           (suspendOverlordFor 100 overlordA 5 (new_Overseer ∅ []))).
Proof.
  apply (lazy_deletion_is_unobservable 105 107 overlordA overlordA
           (suspendOverlordFor 100 overlordA 5 (new_Overseer ∅ nil))).
  lia.
Defined.

(** ** Without the try/catch *)

Lemma init_overlords_abort now e o pre post os st :
  Forall (λ o, o_preInit o = None) os →
  active now (suspendUntil st) os = pre ++ o :: post →
  Forall (λ o, o_init o = None) pre →
  o_init o = Some e →
  ∃ st', for_each os (init_overlord false now) st = (st', Throw e)
    ∧ calls st' = calls st
        ++ flat_map (λ o, [OverlordPreInit (o_ref o); OverlordInit (o_ref o)]) (pre ++ [o])
    ∧ exceptions st' = exceptions st.
Proof.
  intros Hpre. revert pre st. induction Hpre as [|x xs Hx _ IH]; intros pre st Hact Hinit Ho.
  - by destruct pre.
  - cbn [for_each]. unfold bind at 1, init_overlord at 1, bind at 1, check_suspended.
    pose proof (isOverlordSuspended_verdict now x st) as Hv.
    pose proof (isOverlordSuspended_verdicts_kept now x st) as Hk.
    pose proof (isOverlordSuspended_rest now x st) as (_ & He & Hc).
    destruct (isOverlordSuspended now x st) as [b st1]. simpl in Hv, Hk, He, Hc.
    rewrite active_cons in Hact. unfold active at 1 in Hact. simpl in Hact.
    rewrite <- Hv in Hact. rewrite <- (active_ext _ _ _ xs Hk) in Hact.
    destruct b; simpl in Hact.
    + unfold ret at 1. cbv beta iota.
      destruct (IH pre st1 Hact Hinit Ho) as (st' & -> & Hc' & He').
      exists st'. by rewrite Hc', He', Hc, He.
    + unfold bind at 1, invoke at 1. rewrite Hx. unfold try_, invoke at 1.
      destruct pre as [|p pre]; simpl in Hact; injection Hact as -> Hact.
      * rewrite Ho. eexists. split; [reflexivity|]. simpl. by rewrite Hc, He, <- app_assoc.
      * apply Forall_cons in Hinit as [Hp Hinit]. rewrite Hp.
        destruct (IH pre (record_call (OverlordInit (o_ref p))
                            (record_call (OverlordPreInit (o_ref p)) st1)))
          as (st' & -> & Hc' & He'); try done.
        exists st'. split; [done|]. simpl in *. by rewrite Hc', He', Hc, He, <- !app_assoc.
Qed.

(** X6: with [USE_TRY_CATCH] off, the first Overlord whose [init] throws ends
    [Overseer.init]: the exception leaves it as it was thrown, the Overlords
    after it are not invoked, the logistics requests are not registered, and
    nothing is added to the exception list. *)
Theorem without_try_catch_init_aborts now cols st pre o post e :
  Forall (λ d, d_init d = None) (directives st) →
  Forall (λ o, o_preInit o = None) (overlords st) →
  active now (suspendUntil st) (overlords (sort_overlords st)) = pre ++ o :: post →
  Forall (λ o, o_init o = None) pre →
  o_init o = Some e →
  ∃ st', init false now cols st = (st', Throw e)
    ∧ calls st' = calls st
        ++ map (λ d, DirectiveInit (d_name d)) (directives st)
        ++ flat_map (λ o, [OverlordPreInit (o_ref o); OverlordInit (o_ref o)]) (pre ++ [o])
    ∧ exceptions st' = exceptions st.
Proof.
  intros Hds Hpre Hact Hinit Ho.
  unfold init. unfold bind at 1, gets at 1. unfold bind at 1.
  destruct (for_each_invoke_normal (λ d, DirectiveInit (d_name d)) d_init _ st Hds)
    as (st1 & -> & Hreg1 & Hs1 & He1 & Hc1).
  unfold bind at 1, modify at 1. unfold bind at 1, gets at 1. unfold bind at 1.
  destruct (sort_overlords_rest st1) as (Hs2 & He2 & Hc2 & _).
  destruct (sort_overlords_rest st) as (_ & _ & _ & Hperm).
  pose proof (sort_overlords_registries _ _ Hreg1) as Hreg2.
  assert (Hov : overlords (sort_overlords st1) = overlords (sort_overlords st))
    by (unfold registries in Hreg2; congruence).
  rewrite Hov.
  assert (Hpre' : Forall (λ o, o_preInit o = None) (overlords (sort_overlords st))).
  { eapply Permutation_Forall; [symmetry; apply Hperm | done]. }
  destruct (init_overlords_abort now e o pre post _ (sort_overlords st1) Hpre')
    as (st2 & -> & Hc3 & He3); try done.
  { by rewrite Hs2, Hs1. }
  exists st2. split; [done|]. by rewrite Hc3, He3, Hc2, He2, Hc1, He1, <- !app_assoc.
Qed.

Lemma without_try_catch_init_aborts_witness :
  snd (init false 100 ["W1N1"] three_overlords) = Throw typeError
  ∧ ∃ st', init false 100 ["W1N1"] three_overlords = (st', Throw typeError)
      ∧ calls st' = [OverlordPreInit "X"; OverlordInit "X"]
      ∧ exceptions st' = [].
Proof.
  split; [vm_compute; reflexivity|].
  destruct (without_try_catch_init_aborts 100 (cons "W1N1" nil) three_overlords
              nil faultyX (cons steadyY (cons faultyZ nil)) typeError)
    as (st' & Heq & Hc & He); try (vm_compute; reflexivity); try (repeat constructor).
  exists st'. split; [exact Heq|]. split; [rewrite Hc | rewrite He]; vm_compute; reflexivity.
Defined.

(** ** The creep report *)

Lemma find_add_to_occupancy role role' r occ :
  find_role role' (add_to_occupancy role r occ)
  = if String.eqb role role' then accumulate (find_role role occ) [r]
    else find_role role' occ.
Proof.
  induction occ as [|[k v] occ IH]; simpl.
  - by destruct (String.eqb role role').
  - destruct (String.eqb k role) eqn:Ek; simpl.
    + apply String.eqb_eq in Ek. subst k. by destruct (String.eqb role role').
    + rewrite IH. destruct (String.eqb role role') eqn:Er; [|done].
      apply String.eqb_eq in Er. subst role'. by rewrite Ek.
Qed.

Lemma keys_add_to_occupancy role r occ :
  map fst (add_to_occupancy role r occ)
  = if bool_decide (role ∈ map fst occ) then map fst occ else map fst occ ++ [role].
Proof.
  induction occ as [|[k v] occ IH]; [done|].
  cbn [add_to_occupancy map fst].
  - destruct (String.eqb_spec k role) as [->|Hne]; cbn [map fst].
    + by rewrite bool_decide_eq_true_2 by (apply elem_of_cons; by left).
    + rewrite IH. destruct (decide (role ∈ map fst occ)) as [Hin|Hin].
      * rewrite !bool_decide_eq_true_2; [done | apply elem_of_cons; by right | done].
      * rewrite !bool_decide_eq_false_2; [done | | done].
        apply not_elem_of_cons. split; [congruence | done].
Qed.

Lemma NoDup_add_to_occupancy role r occ :
  NoDup (map fst occ) → NoDup (map fst (add_to_occupancy role r occ)).
Proof.
  intros Hnd. rewrite keys_add_to_occupancy. case_bool_decide as Hin; [done|].
  apply NoDup_app. split; [done|]. split; [|apply NoDup_singleton].
  intros x Hx Hr. apply list_elem_of_singleton in Hr. by subst.
Qed.

Lemma accumulate_app start rs1 rs2 :
  accumulate start (rs1 ++ rs2) = accumulate (accumulate start rs1) rs2.
Proof. unfold accumulate. apply fold_left_app. Qed.

Lemma accumulate_Some v rs :
  accumulate (Some v) rs = Some (fst v + fst (total rs), snd v + snd (total rs)).
Proof.
  revert v. induction rs as [|r rs IH]; intros [c n]; simpl.
  - f_equal. f_equal; lia.
  - unfold accumulate in *. simpl. rewrite IH. simpl. f_equal. f_equal; lia.
Qed.

Lemma accumulate_None rs :
  accumulate None rs = match rs with [] => None | _ => Some (total rs) end.
Proof.
  destruct rs as [|r rs]; [done|]. change (accumulate None (r :: rs))
    with (accumulate (Some (0 + fst r, 0 + snd r)) rs).
  rewrite accumulate_Some. simpl. f_equal.
Qed.

Lemma report_roles_spec now o role u acc :
  let acc' := fold_left (report_role now o) u acc in
  find_role role (fst acc') = accumulate (find_role role (fst acc)) (reports_of role u)
  ∧ (NoDup (map fst (fst acc)) → NoDup (map fst (fst acc')))
  ∧ (Z.rem now 100 ≠ 0 → snd acc' = snd acc).
Proof.
  revert acc. induction u as [|[k [r|]] u IH]; intros acc; cbn [fold_left].
  - done.
  - change (report_role now o acc (k, Some r))
      with (add_to_occupancy k r (fst acc), snd acc).
    destruct (IH (add_to_occupancy k r (fst acc), snd acc)) as (Hf & Hnd & Hl).
    cbn [fst snd] in Hf, Hnd, Hl. rewrite find_add_to_occupancy in Hf.
    split; [|split].
    + rewrite Hf. unfold reports_of. cbn [omap list_omap fst snd].
      destruct (String.eqb_spec k role) as [->|Hne]; [|done].
      change (r :: omap _ u) with ([r] ++ reports_of role u).
      by rewrite accumulate_app.
    + intros H. apply Hnd. by apply NoDup_add_to_occupancy.
    + done.
  - assert (Hacc : fst (report_role now o acc (k, None)) = fst acc
                   ∧ (Z.rem now 100 ≠ 0 → snd (report_role now o acc (k, None)) = snd acc)).
    { unfold report_role. cbn [fst snd]. destruct (Z.eqb_spec (Z.rem now 100) 0); done. }
    destruct Hacc as [Hfst Hsnd].
    destruct (IH (report_role now o acc (k, None))) as (Hf & Hnd & Hl).
    rewrite Hfst in Hf, Hnd. split; [|split].
    + rewrite Hf. unfold reports_of. cbn [omap list_omap fst snd].
      by destruct (String.eqb k role).
    + done.
    + intros Hne. rewrite Hl, Hsnd by done. done.
Qed.

Lemma roleOccupancy_spec creepUsageReport now role os acc :
  let acc' := fold_left (λ acc o, fold_left (report_role now o) (creepUsageReport o) acc)
                os acc in
  find_role role (fst acc')
  = accumulate (find_role role (fst acc)) (all_reports creepUsageReport role os)
  ∧ (NoDup (map fst (fst acc)) → NoDup (map fst (fst acc')))
  ∧ (Z.rem now 100 ≠ 0 → snd acc' = snd acc).
Proof.
  revert acc. induction os as [|o os IH]; intros acc; simpl; [done|].
  destruct (IH (fold_left (report_role now o) (creepUsageReport o) acc)) as (Hf & Hnd & Hl).
  destruct (report_roles_spec now o role (creepUsageReport o) acc) as (Hf1 & Hnd1 & Hl1).
  split; [|split].
  - unfold all_reports in *. simpl. by rewrite Hf, Hf1, accumulate_app.
  - auto.
  - intros Hne. by rewrite Hl, Hl1.
Qed.

Lemma find_role_In role occ v : find_role role occ = Some v → In (role, v) occ.
Proof.
  induction occ as [|[k w] occ IH]; simpl; [done|].
  destruct (String.eqb_spec k role) as [->|Hne]; [intros [= ->]; by left | auto].
Qed.

Lemma find_role_None role occ : find_role role occ = None → ¬ In role (map fst occ).
Proof.
  induction occ as [|[k w] occ IH]; simpl; [tauto|].
  destruct (String.eqb_spec k role) as [->|Hne]; [done|]. intros H [?|?]; [done|].
  by apply IH.
Qed.

(** X7: for a colony that has a list, the report has one row for each role
    for which some Overlord of the colony gives a defined report, and no
    other row; the row shows the sum of the current counts and the sum of
    the needed counts over those reports.  Nothing is logged at a tick that
    is not a multiple of 100. *)
Theorem creep_report_totals creepUsageReport now c st os :
  overlordsByColony st !! c = Some os →
  ∃ rows logs,
    getCreepReport creepUsageReport now c st = Some (rows, logs)
    ∧ NoDup (map fst rows)
    ∧ (∀ role,
         match all_reports creepUsageReport role os with
         | [] => ¬ In role (map fst rows)
         | rs => In (show_row role (total rs)) rows
         end)
    ∧ (Z.rem now 100 ≠ 0 → logs = []).
Proof.
  intros Hos. unfold getCreepReport. rewrite Hos. unfold roleOccupancy.
  pose proof (λ role, roleOccupancy_spec creepUsageReport now role os ([], [])) as H.
  destruct (fold_left _ os ([], [])) as [occ logs]. simpl in H.
  eexists _, _. split; [reflexivity|].
  assert (Hkeys : ∀ (l : list (string * (Z * Z))),
            map fst (map (λ row, (fst row, pretty (fst (snd row)) +:+ "/"
                                           +:+ pretty (snd (snd row)))) l)
            = map fst l).
  { intros l. rewrite map_map. by apply map_ext. }
  rewrite Hkeys. split; [|split].
  - apply (H ""). constructor.
  - intros role. destruct (H role) as (Hf & _ & _). rewrite accumulate_None in Hf.
    destruct (all_reports creepUsageReport role os) as [|r rs].
    + by apply find_role_None.
    + apply find_role_In in Hf.
      apply (in_map (λ row, (fst row, pretty (fst (snd row)) +:+ "/"
                                      +:+ pretty (snd (snd row))))) in Hf.
      exact Hf.
  - intros Hne. by apply (H "").
Qed.

Lemma creep_report_totals_witness :
  ∃ rows logs,
    getCreepReport queenReport 101 "W1N1" three_overlords = Some (rows, logs)
    ∧ In ("queen", "2/3") rows ∧ In ("worker", "3/4") rows.
Proof.
  destruct (creep_report_totals queenReport 101 "W1N1" three_overlords
              (cons faultyX (cons steadyY nil)))
    as (rows & logs & Heq & _ & Hrows & _); [vm_compute; reflexivity|].
  exists rows, logs. split; [exact Heq|]. split.
  - exact (Hrows "queen").
  - exact (Hrows "worker").
Defined.

(** X8: [getCreepReport] throws for a colony without a list in
    [overlordsByColony], as every colony is in a new Overseer; once an
    Overlord of the colony has been registered it returns a report, also
    after the Overlord has been removed again, and no registration or
    removal makes it throw again. *)
Theorem creep_report_needs_a_list creepUsageReport now c st :
  (∀ memory excs, getCreepReport creepUsageReport now c (new_Overseer memory excs) = None)
  ∧ (getCreepReport creepUsageReport now c st = None ↔ overlordsByColony st !! c = None)
  ∧ (∀ o, o_colony o = c →
       is_Some (getCreepReport creepUsageReport now c (registerOverlord o st))
       ∧ is_Some (getCreepReport creepUsageReport now c
                    (removeOverlord o (registerOverlord o st))))
  ∧ (∀ o, is_Some (getCreepReport creepUsageReport now c st) →
       is_Some (getCreepReport creepUsageReport now c (registerOverlord o st))
       ∧ is_Some (getCreepReport creepUsageReport now c (removeOverlord o st))).
Proof.
  assert (Hiff : ∀ s, is_Some (getCreepReport creepUsageReport now c s)
                      ↔ is_Some (overlordsByColony s !! c)).
  { intros s. unfold getCreepReport. destruct (overlordsByColony s !! c) as [os|].
    - destruct (roleOccupancy _ _ _). split; eauto.
    - split; intros [? ?]; done. }
  assert (Hreg : ∀ o s, o_colony o = c ∨ is_Some (overlordsByColony s !! c) →
            is_Some (overlordsByColony (registerOverlord o s) !! c)).
  { intros o s H. unfold registerOverlord. simpl.
    destruct (overlordsByColony s !! o_colony o) as [os|] eqn:E; simpl;
      rewrite lookup_alter; case_decide as Hc; subst;
      rewrite ?E, ?lookup_insert_eq; simpl; eauto.
    - by destruct H.
    - rewrite lookup_insert_ne by done. by destruct H. }
  assert (Hrem : ∀ o s, is_Some (overlordsByColony s !! c) →
            is_Some (overlordsByColony (removeOverlord o s) !! c)).
  { intros o s H. unfold removeOverlord. simpl.
    destruct (overlordsByColony s !! o_colony o) as [os|] eqn:E; simpl; [|done].
    rewrite lookup_insert. case_decide; eauto. }
  split; [|split; [|split]].
  - intros memory excs. unfold getCreepReport. simpl. by rewrite lookup_empty.
  - unfold getCreepReport. destruct (overlordsByColony st !! c) as [os|]; [|done].
    by destruct (roleOccupancy _ _ _).
  - intros o Ho. split; apply Hiff; [|apply Hrem]; apply Hreg; by left.
  - intros o H. apply Hiff in H. split; apply Hiff; [apply Hreg; by right | by apply Hrem].
Qed.

Lemma creep_report_needs_a_list_witness :
  getCreepReport queenReport 100 "W1N1" (new_Overseer ∅ []) = None
  ∧ is_Some (getCreepReport queenReport 100 "W1N1"
               (removeOverlord overlordA (registerOverlord overlordA (new_Overseer ∅ [])))).
Proof.
  destruct (creep_report_needs_a_list queenReport 100 "W1N1" (new_Overseer ∅ nil))
    as (Hnew & _ & Hreg & _).
  split; [apply Hnew | apply (Hreg overlordA); reflexivity].
Defined.

(** ** When safe mode is tried *)

Lemma trigger_safe_mode_grows env colony events :
  ∃ new, fst (trigger_safe_mode env colony events) = events ++ new
    ∧ activations new = 1%nat
    ∧ (evacuations new ≤ 1)%nat
    ∧ Forall (at_terminal colony) new.
Proof.
  unfold trigger_safe_mode.
  set (ret := activateSafeMode env (activations events)).
  destruct (negb (ret =? OK) && _).
  - destruct (col_terminal colony) as [terminal|] eqn:Et; simpl.
    + exists [ActivateSafeMode ret; CreateTerminalEvacuate (s_pos terminal)].
      rewrite <- app_assoc. repeat split; try done.
      repeat constructor. simpl. eauto.
    + exists [ActivateSafeMode ret]. repeat split; try done.
      * unfold evacuations. simpl. lia.
      * by repeat constructor.
  - simpl. exists [ActivateSafeMode ret]. repeat split; try done.
    + unfold evacuations. simpl. lia.
    + by repeat constructor.
Qed.

Lemma activations_app l1 l2 : activations (l1 ++ l2) = (activations l1 + activations l2)%nat.
Proof. unfold activations. by rewrite List.filter_app, length_app. Qed.

Lemma evacuations_app l1 l2 : evacuations (l1 ++ l2) = (evacuations l1 + evacuations l2)%nat.
Proof. unfold evacuations. by rewrite List.filter_app, length_app. Qed.

Lemma scan_structures_grows env colony structures events :
  ∃ new, fst (scan_structures env colony structures events) = events ++ new
    ∧ (activations new ≤ length structures)%nat
    ∧ (evacuations new ≤ activations new)%nat
    ∧ Forall (at_terminal colony) new
    ∧ (new = [] ↔ Forall (λ s, structure_trigger env colony s = false) structures)
    ∧ (snd (scan_structures env colony structures events) = true → new ≠ []).
Proof.
  revert events. induction structures as [|s rest IH]; intros events; simpl.
  - exists []. rewrite app_nil_r. repeat split; try done.
  - fold (structure_trigger env colony s).
    destruct (structure_trigger env colony s) eqn:Es.
    + destruct (trigger_safe_mode_grows env colony events) as (new1 & Hf1 & Ha1 & He1 & Ht1).
      destruct (trigger_safe_mode env colony events) as [events1 returned].
      simpl in Hf1. subst events1.
      assert (Hne : new1 ≠ []) by (intros ->; discriminate).
      destruct returned.
      * exists new1. simpl. repeat split; try done; try lia.
        intros H. apply Forall_cons in H as [H _]. congruence.
      * destruct (IH (events ++ new1)) as (new2 & Hf2 & Ha2 & He2 & Ht2 & _ & _).
        exists (new1 ++ new2). rewrite Hf2, <- app_assoc, activations_app, evacuations_app.
        repeat split; try done; try lia.
        -- by apply Forall_app.
        -- intros H. by apply app_eq_nil in H as [? _].
        -- intros H. apply Forall_cons in H as [H _]. congruence.
        -- intros _ H. by apply app_eq_nil in H as [? _].
    + destruct (IH events) as (new & Hf & Ha & He & Ht & Hnil & Hret).
      exists new. repeat split; try done; try lia.
      * intros H. constructor; [done|]. by apply Hnil.
      * intros H. apply Forall_cons in H as [_ H]. by apply Hnil.
Qed.

(** X9: [handleSafeMode] does nothing exactly when the colony is a Larva on
    the public server, or else no critical structure is both damaged and
    within range 2 of a dangerous hostile and the first dangerous hostile
    cannot reach the first spawn.  In particular it does nothing when the
    room holds no dangerous hostile and [findInRange] finds nothing among
    none. *)
Theorem safe_mode_untouched_without_trigger env colony :
  (handleSafeMode env colony = []
   ↔ is_Larva (col_stage colony) && onPublicServer env = true
     ∨ (Forall (λ s, structure_trigger env colony s = false) (criticalStructures colony)
        ∧ reachability_trigger env colony = false))
  ∧ (dangerousHostiles (col_room colony) = [] →
     (∀ pos range, findInRange env pos [] range = []) →
     handleSafeMode env colony = []).
Proof.
  assert (Hiff : handleSafeMode env colony = []
   ↔ is_Larva (col_stage colony) && onPublicServer env = true
     ∨ (Forall (λ s, structure_trigger env colony s = false) (criticalStructures colony)
        ∧ reachability_trigger env colony = false)).
  { unfold handleSafeMode, reachability_trigger.
    destruct (is_Larva (col_stage colony) && onPublicServer env); [split; auto|].
    destruct (scan_structures_grows env colony (criticalStructures colony) [])
      as (new & Hf & _ & _ & _ & Hnil & Hret).
    destruct (scan_structures env colony (criticalStructures colony) [])
      as [events returned]. simpl in Hf, Hret. subst events.
    destruct returned.
    - split; [intros H; by destruct (Hret eq_refl) | ].
      intros [?|[H _]]; [done|]. apply Hnil in H. by destruct (Hret eq_refl).
    - destruct (dangerousHostiles (col_room colony)) as [|h hs];
        [rewrite Hnil; split; [auto | by intros [?|[? _]]]|].
      destruct (col_spawns colony) as [|s0 ss];
        [rewrite Hnil; split; [auto | by intros [?|[? _]]]|].
      destruct (isReachable env _ _ _);
        [|rewrite Hnil; split; [auto | by intros [?|[? _]]]].
      destruct (trigger_safe_mode_grows env colony new) as (new2 & -> & Ha & _).
      split.
      + intros H. apply app_eq_nil in H as [_ ->]. discriminate.
      + by intros [?|[_ ?]]. }
  split; [exact Hiff|].
  intros Hnone Hrange. apply Hiff. right. split.
  - apply Forall_forall. intros s _. unfold structure_trigger.
    rewrite Hnone, Hrange. simpl. apply andb_false_r.
  - unfold reachability_trigger. by rewrite Hnone.
Qed.

Lemma safe_mode_untouched_without_trigger_witness :
  handleSafeMode unsafe_for_25 (invaded 3) = [].
Proof.
  destruct (safe_mode_untouched_without_trigger unsafe_for_25 (invaded 3)) as [_ H].
  apply H; reflexivity.
Defined.

(** X10: in one evaluation [activateSafeMode] is called at most once for
    each critical structure (spawns, storage, terminal) and once more for
    the reachability trigger; a terminal-evacuation Directive is placed at
    most once per such call, and only at the colony's terminal, so never in
    a colony without one. *)
Theorem safe_mode_attempts_bounded env colony :
  (activations (handleSafeMode env colony) ≤ length (criticalStructures colony) + 1)%nat
  ∧ (length (criticalStructures colony) ≤ length (col_spawns colony) + 2)%nat
  ∧ (evacuations (handleSafeMode env colony) ≤ activations (handleSafeMode env colony))%nat
  ∧ (∀ pos, In (CreateTerminalEvacuate pos) (handleSafeMode env colony) →
       ∃ t, col_terminal colony = Some t ∧ pos = s_pos t)
  ∧ (col_terminal colony = None → evacuations (handleSafeMode env colony) = 0%nat).
Proof.
  assert (H : (activations (handleSafeMode env colony)
               ≤ length (criticalStructures colony) + 1)%nat
              ∧ (evacuations (handleSafeMode env colony)
                 ≤ activations (handleSafeMode env colony))%nat
              ∧ Forall (at_terminal colony) (handleSafeMode env colony)).
  { unfold handleSafeMode.
    destruct (is_Larva (col_stage colony) && onPublicServer env).
    { repeat split; [unfold activations; simpl; lia | done | done]. }
    destruct (scan_structures_grows env colony (criticalStructures colony) [])
      as (new & Hf & Ha & He & Ht & _ & _).
    destruct (scan_structures env colony (criticalStructures colony) [])
      as [events returned]. simpl in Hf. subst events.
    destruct returned; [repeat split; try done; lia|].
    destruct (dangerousHostiles (col_room colony)) as [|h hs];
      [repeat split; try done; lia|].
    destruct (col_spawns colony) as [|s0 ss]; [repeat split; try done; lia|].
    destruct (isReachable env _ _ _); [|repeat split; try done; lia].
    destruct (trigger_safe_mode_grows env colony new) as (new2 & -> & Ha2 & He2 & Ht2).
    rewrite activations_app, evacuations_app. repeat split; try lia.
    by apply Forall_app. }
  destruct H as (Ha & He & Ht).
  split; [exact Ha|]. split; [|split; [exact He|split]].
  - unfold criticalStructures. rewrite !length_app.
    destruct (col_storage colony), (col_terminal colony); simpl; lia.
  - intros pos Hin. rewrite List.Forall_forall in Ht. apply (Ht _ Hin).
  - intros Hnone. unfold evacuations.
    destruct (List.filter is_evacuation (handleSafeMode env colony)) as [|e l] eqn:E;
      [done|].
    assert (Hin : In e (List.filter is_evacuation (handleSafeMode env colony)))
      by (rewrite E; by left).
    apply filter_In in Hin as [Hin Hev]. rewrite List.Forall_forall in Ht.
    specialize (Ht e Hin). destruct e as [|pos]; [done|].
    destruct Ht as (t & Hsome & _). congruence.
Qed.

Lemma safe_mode_attempts_bounded_witness :
  (activations (handleSafeMode no_safe_mode_left besieged) ≤ 4)%nat
  ∧ ∃ t, col_terminal besieged = Some t ∧ terminalPos = s_pos t.
Proof.
  destruct (safe_mode_attempts_bounded no_safe_mode_left besieged) as (Ha & _ & _ & Ht & _).
  split; [exact Ha|]. apply Ht. vm_compute. right. by left.
Defined.

(** ** Defending the outposts *)

Lemma handleOutpostDefense_justified cart outposts :
  Forall (placement_justified cart outposts) (handleOutpostDefense cart outposts).
Proof.
  assert (H : ∀ done_ todo, Forall (placement_justified cart (done_ ++ todo))
                              (handleOutpostDefense cart todo)).
  { intros done_ todo. revert done_. induction todo as [|o rest IH]; intros done_; simpl.
    - constructor.
    - assert (Hin : In o (done_ ++ o :: rest)) by (apply in_or_app; right; by left).
      destruct (dangerousPlayerHostiles (out_room o)) as [|p ps] eqn:Ep; simpl.
      + apply Forall_app. split.
        * destruct (String.eqb_spec (roomType cart (room_name (out_room o)))
                      (ROOMTYPE_SOURCEKEEPER cart)); simpl; [constructor|].
          destruct (dangerousHostiles (out_room o)) as [|h hs] eqn:Eh; [constructor|].
          destruct (List.filter is_defense_flag (out_flags o)) as [|f fs] eqn:Ef; simpl;
            [|constructor].
          constructor; [|constructor]. simpl. split; [done|].
          exists o, h, hs. repeat split; try done.
          apply List.Forall_forall. intros f Hf.
          destruct (is_defense_flag f) eqn:Ed.
          -- assert (In f (List.filter is_defense_flag (out_flags o)))
               by (apply filter_In; done). rewrite Ef in *. done.
          -- unfold is_defense_flag in Ed. apply orb_false_iff in Ed as [E1 E2].
             apply bool_decide_eq_false in E1, E2. done.
        * specialize (IH (done_ ++ [o])). by rewrite <- app_assoc in IH.
      + constructor; [|constructor]. simpl. split; [done|].
        exists o. repeat split; try done. by rewrite Ep. }
  apply (H []).
Qed.

Lemma handleOutpostDefense_no_player cart outposts :
  Forall (λ o, dangerousPlayerHostiles (out_room o) = []) outposts →
  Forall (λ p, is_guard p = true) (handleOutpostDefense cart outposts)
  ∧ (length (handleOutpostDefense cart outposts) ≤ length outposts)%nat.
Proof.
  induction 1 as [|o rest Ho _ [IH1 IH2]]; simpl; [by split|].
  rewrite Ho. simpl. rewrite length_app.
  destruct (negb _); simpl; [|split; [done | lia]].
  destruct (dangerousHostiles (out_room o)); simpl; [split; [done | lia]|].
  destruct (_ =? _)%nat; simpl; split; try done; try lia.
  by constructor.
Qed.

(** X11: [handleOutpostDefense] stops at the first outpost that holds a
    dangerous player hostile: it asks for an outpost-defense Directive
    there, and the outposts after it are not looked at that tick, whatever
    they hold.  Before it only Guards are placed, at most one per outpost;
    if no outpost holds a player hostile, no outpost-defense Directive is
    asked for. *)
Theorem outpost_defense_stops_at_player cart before o after :
  Forall (λ o, dangerousPlayerHostiles (out_room o) = []) before →
  (dangerousPlayerHostiles (out_room o) ≠ [] →
     handleOutpostDefense cart (before ++ o :: after)
     = handleOutpostDefense cart before
       ++ [CreateIfNotPresent OutpostDefense
             (findPathablePosition cart (room_name (out_room o)))])
  ∧ Forall (λ p, is_guard p = true) (handleOutpostDefense cart before)
  ∧ (length (handleOutpostDefense cart before) ≤ length before)%nat.
Proof.
  intros Hb. split; [|by apply handleOutpostDefense_no_player].
  intros Ho. induction Hb as [|x rest Hx _ IH]; simpl.
  - by destruct (dangerousPlayerHostiles (out_room o)).
  - rewrite Hx. simpl. by rewrite IH, <- app_assoc.
Qed.

Lemma outpost_defense_stops_at_player_witness :
  handleOutpostDefense plainCartography
    [mkOutpost (npcRoom "W1N2") []; mkOutpost (playerRoom "W1N3") [];
     mkOutpost (npcRoom "W1N4") []]
  = [Create Guard (mkPos "W1N2" 5 5);
     CreateIfNotPresent OutpostDefense (mkPos "W1N3" 25 25)].
Proof.
  destruct (outpost_defense_stops_at_player plainCartography
              (cons (mkOutpost (npcRoom "W1N2") nil) nil)
              (mkOutpost (playerRoom "W1N3") nil)
              (cons (mkOutpost (npcRoom "W1N4") nil) nil)) as [H _].
  - repeat constructor.
  - etrans; [exact (H ltac:(discriminate)) | reflexivity].
Defined.

(** X12: every Guard [handleOutpostDefense] places is at the position of the
    first dangerous hostile of an outpost that holds no player hostile, is
    not a source-keeper room and has no guard or outpost-defense flag yet;
    [createIfNotPresent] is only used for outpost defense, in an outpost
    with a player hostile, and [create] only for Guards. *)
Theorem outpost_placements_justified cart outposts p :
  In p (handleOutpostDefense cart outposts) → placement_justified cart outposts p.
Proof.
  intros Hin. pose proof (handleOutpostDefense_justified cart outposts) as H.
  rewrite List.Forall_forall in H. by apply H.
Qed.

Lemma outpost_placements_justified_witness :
  placement_justified plainCartography
    [mkOutpost (npcRoom "W1N2") []; mkOutpost (quietRoom "W1N3") []]
    (Create Guard (mkPos "W1N2" 5 5)).
Proof.
  apply (outpost_placements_justified plainCartography
           (cons (mkOutpost (npcRoom "W1N2") nil) (cons (mkOutpost (quietRoom "W1N3") nil) nil))).
  vm_compute. by left.
Defined.

(** ** When new outposts are looked for *)

(** X13: at a tick [now >= 0], [placeDirectives] evaluates the new-outpost
    search for a colony exactly when the autonomy level is above Manual and
    [now] is [2 * colony.id] plus a multiple of the check frequency (250 on
    the public server, 100 elsewhere), with [0 <= 2 * colony.id <
    frequency]; so a colony whose id is half the frequency or more is never
    searched.  The four standing evaluators come first in every case. *)
Theorem new_outposts_schedule env cart auto now colony id :
  0 ≤ now →
  (In EvalNewOutposts (placeDirectives env cart auto now colony id)
   ↔ Autonomy_Manual auto < getAutonomyLevel auto
     ∧ 0 ≤ 2 * id < outpostCheckFrequency env
     ∧ ∃ k, 0 ≤ k ∧ now = k * outpostCheckFrequency env + 2 * id)
  ∧ (outpostCheckFrequency env ≤ 2 * id →
     ¬ In EvalNewOutposts (placeDirectives env cart auto now colony id))
  ∧ ∃ rest, placeDirectives env cart auto now colony id
            = [EvalBootstrapping; EvalOutpostDefense; EvalColonyInvasions; EvalNukeResponse]
              ++ rest.
Proof.
  intros Hnow.
  assert (Hf : 0 < outpostCheckFrequency env)
    by (unfold outpostCheckFrequency; destruct (onPublicServer env); lia).
  assert (Hin : In EvalNewOutposts (placeDirectives env cart auto now colony id)
                ↔ Autonomy_Manual auto < getAutonomyLevel auto
                  ∧ Z.rem now (outpostCheckFrequency env) = 2 * id).
  { unfold placeDirectives. rewrite in_app_iff.
    destruct (Z.ltb_spec (Autonomy_Manual auto) (getAutonomyLevel auto)).
    - rewrite in_app_iff.
      destruct (Z.eqb_spec (Z.rem now (outpostCheckFrequency env)) (2 * id)).
      + split; [done|]. intros _. right. left. by left.
      + split; [|by intros [_ ?]]. intros [H0|[[]|H0]].
        * simpl in H0. intuition discriminate.
        * destruct (_ && _); [|done]. destruct (_ =? _)%nat; [|done].
          simpl in H0. intuition discriminate.
    - split; [|lia]. intros [H0|[]]. simpl in H0. intuition discriminate. }
  rewrite Z.rem_mod_nonneg in Hin by lia.
  assert (Hsched : Z.modulo now (outpostCheckFrequency env) = 2 * id
                   ↔ 0 ≤ 2 * id < outpostCheckFrequency env
                     ∧ ∃ k, 0 ≤ k ∧ now = k * outpostCheckFrequency env + 2 * id).
  { split.
    - intros Hm. pose proof (Z.mod_pos_bound now _ Hf) as Hb. rewrite Hm in Hb.
      split; [done|]. exists (now / outpostCheckFrequency env).
      split; [apply Z.div_pos; lia|].
      rewrite <- Hm. rewrite Z.mul_comm. apply Z.div_mod. lia.
    - intros (Hb & k & Hk & ->). rewrite Z.add_comm, Z.mod_add by lia.
      apply Z.mod_small. done. }
  split; [by rewrite Hin, Hsched|]. split.
  - intros Hbig Hn. apply Hin in Hn as [_ Hn]. apply Hsched in Hn. lia.
  - unfold placeDirectives. eauto.
Qed.

Lemma new_outposts_schedule_witness :
  In EvalNewOutposts (placeDirectives unsafe_for_25 plainCartography semiAutomatic
                        306 (invaded 0) 3)
  ∧ ¬ In EvalNewOutposts (placeDirectives unsafe_for_25 plainCartography semiAutomatic
                            306 (invaded 0) 50).
Proof.
  destruct (new_outposts_schedule unsafe_for_25 plainCartography semiAutomatic
              306 (invaded 0) 3 ltac:(lia)) as (H & _ & _).
  destruct (new_outposts_schedule unsafe_for_25 plainCartography semiAutomatic
              306 (invaded 0) 50 ltac:(lia)) as (_ & Hnever & _).
  split.
  - apply H. split; [vm_compute; reflexivity|].
    split; [unfold outpostCheckFrequency; simpl; lia|].
    exists 3. split; [lia | reflexivity].
  - apply Hnever. vm_compute. discriminate.
Defined.

(** ** The life of the cache *)

Lemma Mem_wrap_present memory room mem :
  memory !! room = Some mem → Mem_wrap memory room SpawnGroupMemoryDefaults = memory.
Proof. intros H. unfold Mem_wrap. by rewrite H. Qed.

Lemma constructor_memory_present W initializer settings memory :
  is_Some (snd (new_SpawnGroup W initializer settings memory) !! roomName (i_pos initializer)).
Proof.
  rewrite constructor_memory. destruct (_ >=? _); [by rewrite lookup_insert_eq|].
  unfold Mem_wrap. destruct (memory !! roomName (i_pos initializer)) eqn:E;
    [by rewrite E | by rewrite lookup_insert_eq].
Qed.

Lemma constructor_unexpired W initializer settings memory mem :
  memory !! roomName (i_pos initializer) = Some mem →
  Game_time W < mem_expiration mem →
  snd (new_SpawnGroup W initializer settings memory) = memory.
Proof.
  intros Hmem Hlt. rewrite constructor_memory, (Mem_wrap_present _ _ _ Hmem).
  unfold this_memory. rewrite Hmem. simpl.
  destruct (Z.geb_spec (Game_time W) (mem_expiration mem)); [lia|done].
Qed.

(** X14: the cache is shared and lives on.  A second SpawnGroup constructed
    at the same anchor in the same tick, whatever its settings, leaves the
    persisted memory as the first one left it; and after a recomputation no
    constructor recomputes for the next recache interval minus 25 ticks. *)
Theorem cache_reused_until_expiry W W' first second settings1 settings2 memory :
  roomName (i_pos second) = roomName (i_pos first) →
  let anchor := roomName (i_pos first) in
  let old := this_memory (Mem_wrap memory anchor SpawnGroupMemoryDefaults) anchor in
  let memory1 := snd (new_SpawnGroup W first settings1 memory) in
  Game_time W' = Game_time W
  ∨ (mem_expiration old ≤ Game_time W
     ∧ Game_time W' < Game_time W + DEFAULT_RECACHE_TIME W - 25) →
  snd (new_SpawnGroup W' second settings2 memory1) = memory1.
Proof.
  intros Hroom anchor old memory1 Hwhen.
  destruct (constructor_memory_present W first settings1 memory) as [mem Hmem].
  fold memory1 in Hmem. apply (constructor_unexpired _ _ _ _ mem); [by rewrite Hroom|].
  subst memory1. rewrite constructor_memory in Hmem. fold anchor old in Hmem.
  assert (Hbase : 1000 ≤ DEFAULT_RECACHE_TIME W)
    by (unfold DEFAULT_RECACHE_TIME; destruct (publicServer W); lia).
  destruct (Z.geb_spec (Game_time W) (mem_expiration old)) as [Hexp|Hexp].
  - rewrite lookup_insert_eq in Hmem. injection Hmem as <-.
    destruct (recalculateColonies_spec W anchor old) as (_ & _ & _ & _ & ->).
    unfold getCacheExpiration. lia.
  - assert (mem = old) as ->.
    { unfold old, this_memory. fold anchor. by rewrite Hmem. }
    lia.
Qed.

Lemma cache_reused_until_expiry_witness :
  snd (new_SpawnGroup (laterWorld three_colonies 900) otherFlag rigid
         (snd (new_SpawnGroup three_colonies anchorW2N2 noSettings ∅)))
  = snd (new_SpawnGroup three_colonies anchorW2N2 noSettings ∅).
Proof.
  apply (cache_reused_until_expiry three_colonies (laterWorld three_colonies 900)
           anchorW2N2 otherFlag noSettings rigid ∅).
  - reflexivity.
  - right. split; vm_compute; [discriminate | reflexivity].
Defined.

(** ** What the cache holds *)

Lemma accepted_distance W anchor room :
  accepted W anchor room = true → distance_of W anchor room ≤ MAX_PATH_DISTANCE.
Proof.
  unfold accepted. destruct (r_spawns room); [done|].
  destruct (route_of W anchor room); [|done].
  intros H. apply andb_true_iff in H as [_ H]. by apply Z.leb_le.
Qed.

Lemma fold_consider_colony_bound W anchor rooms colonies routes distances :
  map_Forall (λ _ d, d ≤ MAX_PATH_DISTANCE) distances →
  map_Forall (λ _ d, d ≤ MAX_PATH_DISTANCE)
    (snd (fold_left (consider_colony W anchor) rooms (colonies, routes, distances))).
Proof.
  revert colonies routes distances.
  induction rooms as [|x xs IH]; intros colonies routes distances Hd; [done|].
  cbn [fold_left]. rewrite consider_colony_accepted.
  destruct (accepted W anchor x) eqn:Ex; [|by apply IH].
  apply IH. apply map_Forall_insert_2; [|done]. by apply accepted_distance.
Qed.

Lemma recalculateColonies_bound W anchor mem :
  map_Forall (λ _ d, d ≤ MAX_PATH_DISTANCE) (mem_distances (recalculateColonies W anchor mem)).
Proof.
  unfold recalculateColonies.
  pose proof (fold_consider_colony_bound W anchor
    (List.filter (λ room, getRoomLinearDistance W (r_name room) anchor <=? MAX_LINEAR_DISTANCE)
       (getAllColonyRooms W)) [] ∅ ∅ (map_Forall_empty _)) as H.
  destruct (fold_left _ _ _) as [[? ?] ?]. done.
Qed.

Lemma memory_reachable_bound memory :
  memory_reachable memory →
  map_Forall (λ _ mem, map_Forall (λ _ d, d ≤ MAX_PATH_DISTANCE) (mem_distances mem)) memory.
Proof.
  assert (Hwrap : ∀ m room,
    map_Forall (λ _ mem, map_Forall (λ _ d, d ≤ MAX_PATH_DISTANCE) (mem_distances mem)) m →
    map_Forall (λ _ mem, map_Forall (λ _ d, d ≤ MAX_PATH_DISTANCE) (mem_distances mem))
      (Mem_wrap m room SpawnGroupMemoryDefaults)).
  { intros m room Hm. unfold Mem_wrap. destruct (m !! room); [done|].
    apply map_Forall_insert_2; [apply map_Forall_empty | done]. }
  induction 1 as [|W ini settings memory _ IH|sg memory _ IH|W room memory _ IH].
  - apply map_Forall_empty.
  - rewrite constructor_memory. destruct (_ >=? _); [|by apply Hwrap].
    apply map_Forall_insert_2; [apply recalculateColonies_bound | by apply Hwrap].
  - simpl. by apply Hwrap.
  - apply map_Forall_insert_2; [apply recalculateColonies_bound | done].
Qed.

Lemma constructor_fields W initializer settings memory :
  let room := roomName (i_pos initializer) in
  let mem := this_memory (snd (new_SpawnGroup W initializer settings memory)) room in
  let sg := fst (new_SpawnGroup W initializer settings memory) in
  sg_roomName sg = room
  ∧ sg_settings sg = lodash_defaults settings defaultSettings
  ∧ sg_colonyNames sg
    = List.filter (colony_usable W mem (lodash_defaults settings defaultSettings))
        (mem_colonies mem)
  ∧ sg_energyCapacityAvailable sg
    = lodash_max (omap (λ name, r_energyCapacityAvailable <$> Game_rooms W !! name)
                    (sg_colonyNames sg)).
Proof. done. Qed.

(** X15: on a memory that construction, refresh and recomputation have
    produced, every colony a constructed SpawnGroup draws on has a cached
    distance that is within the instance's [maxPathDistance] and within 600,
    and is a room of one's own whose controller has the required level. *)
Theorem colonyNames_qualify W initializer settings memory name :
  memory_reachable memory →
  let sg := fst (new_SpawnGroup W initializer settings memory) in
  let memory' := snd (new_SpawnGroup W initializer settings memory) in
  In name (sg_colonyNames sg) →
  ∃ d room,
    mem_distances (this_memory memory' (sg_roomName sg)) !! name = Some d
    ∧ d ≤ maxPathDistance (sg_settings sg)
    ∧ d ≤ MAX_PATH_DISTANCE
    ∧ In name (mem_colonies (this_memory memory' (sg_roomName sg)))
    ∧ Game_rooms W !! name = Some room
    ∧ r_my room = true
    ∧ requiredRCL (sg_settings sg) ≤ r_controllerLevel room.
Proof.
  intros Hreach sg memory' Hin.
  assert (Hb : map_Forall (λ _ mem, map_Forall (λ _ d, d ≤ MAX_PATH_DISTANCE)
                                      (mem_distances mem)) memory')
    by (apply memory_reachable_bound; by constructor).
  destruct (constructor_memory_present W initializer settings memory) as [mem Hmem].
  fold memory' in Hmem.
  destruct (constructor_fields W initializer settings memory) as (Hroom & Hset & Hnames & _).
  fold sg memory' in Hroom, Hset, Hnames. rewrite Hroom, Hset. rewrite Hnames in Hin.
  assert (Hthis : this_memory memory' (roomName (i_pos initializer)) = mem)
    by (unfold this_memory; by rewrite Hmem).
  rewrite Hthis in *. specialize (Hb _ _ Hmem).
  apply filter_In in Hin as [Hin Hok]. unfold colony_usable in Hok.
  destruct (mem_distances mem !! name) as [d|] eqn:Ed; [|done].
  destruct (Game_rooms W !! name) as [room|]; [|by rewrite andb_false_r in Hok].
  apply andb_true_iff in Hok as [Hd Hok]. apply andb_true_iff in Hok as [Hmy Hlevel].
  exists d, room. repeat split; try done.
  - by apply Z.leb_le.
  - by apply (Hb name).
  - by apply Z.geb_le.
Qed.

Lemma colonyNames_qualify_witness :
  ∃ d room,
    mem_distances (this_memory (snd (new_SpawnGroup three_colonies anchorW2N2 noSettings ∅))
                     "W2N2") !! "W1N1" = Some d
    ∧ d ≤ 250 ∧ d ≤ 600
    ∧ Game_rooms three_colonies !! "W1N1" = Some room ∧ r_my room = true.
Proof.
  destruct (colonyNames_qualify three_colonies anchorW2N2 noSettings ∅ "W1N1")
    as (d & room & Hd & H1 & H2 & _ & Hr & Hmy & _).
  - apply memory_initial.
  - vm_compute. by left.
  - exists d, room. repeat split; done.
Defined.

(** X16: a [maxPathDistance] above 600 buys nothing: on a memory that
    construction, refresh and recomputation have produced, two instances
    whose [maxPathDistance] are both at least 600 and whose [requiredRCL]
    agree draw on the same colonies. *)
Theorem maxPathDistance_capped W initializer s1 s2 memory :
  memory_reachable memory →
  600 ≤ maxPathDistance (lodash_defaults s1 defaultSettings) →
  600 ≤ maxPathDistance (lodash_defaults s2 defaultSettings) →
  requiredRCL (lodash_defaults s1 defaultSettings)
  = requiredRCL (lodash_defaults s2 defaultSettings) →
  sg_colonyNames (fst (new_SpawnGroup W initializer s1 memory))
  = sg_colonyNames (fst (new_SpawnGroup W initializer s2 memory))
  ∧ sg_energyCapacityAvailable (fst (new_SpawnGroup W initializer s1 memory))
    = sg_energyCapacityAvailable (fst (new_SpawnGroup W initializer s2 memory)).
Proof.
  intros Hreach H1 H2 Hrcl.
  assert (Hb : map_Forall (λ _ mem, map_Forall (λ _ d, d ≤ MAX_PATH_DISTANCE)
                                      (mem_distances mem))
                 (snd (new_SpawnGroup W initializer s1 memory)))
    by (apply memory_reachable_bound; by constructor).
  destruct (constructor_memory_present W initializer s1 memory) as [mem Hmem].
  specialize (Hb _ _ Hmem).
  assert (Hnames : sg_colonyNames (fst (new_SpawnGroup W initializer s1 memory))
                   = sg_colonyNames (fst (new_SpawnGroup W initializer s2 memory))).
  { destruct (constructor_fields W initializer s1 memory) as (_ & _ & -> & _).
    destruct (constructor_fields W initializer s2 memory) as (_ & _ & -> & _).
    change (snd (new_SpawnGroup W initializer s2 memory))
      with (snd (new_SpawnGroup W initializer s1 memory)).
    unfold this_memory. rewrite Hmem. simpl. apply filter_ext. intros name.
    unfold colony_usable. rewrite Hrcl.
    destruct (mem_distances mem !! name) as [d|] eqn:Ed; [|done].
    specialize (Hb name d Ed). unfold MAX_PATH_DISTANCE in Hb.
    f_equal. destruct (Z.leb_spec d (maxPathDistance (lodash_defaults s1 defaultSettings))),
      (Z.leb_spec d (maxPathDistance (lodash_defaults s2 defaultSettings))); try done; lia. }
  split; [exact Hnames|].
  destruct (constructor_fields W initializer s1 memory) as (_ & _ & _ & ->).
  destruct (constructor_fields W initializer s2 memory) as (_ & _ & _ & ->).
  by rewrite Hnames.
Qed.

Lemma maxPathDistance_capped_witness :
  sg_colonyNames (fst (new_SpawnGroup three_colonies anchorW2N2
                         (mkPartial (Some 600) None None) ∅))
  = sg_colonyNames (fst (new_SpawnGroup three_colonies anchorW2N2
                           (mkPartial (Some 5000) None None) ∅)).
Proof.
  apply (maxPathDistance_capped three_colonies anchorW2N2
           (mkPartial (Some 600) None None) (mkPartial (Some 5000) None None) ∅).
  - apply memory_initial.
  - vm_compute. discriminate.
  - vm_compute. discriminate.
  - reflexivity.
Defined.

(** ** The energy capacity of the group *)

Lemma fold_max_spec l n :
  In (fold_left Z.max l n) (n :: l) ∧ n ≤ fold_left Z.max l n
  ∧ Forall (λ x, x ≤ fold_left Z.max l n) l.
Proof.
  revert n. induction l as [|x l IH]; intros n; simpl.
  - split; [by left|]. split; [lia | constructor].
  - destruct (IH (Z.max n x)) as (Hin & Hle & Hall). split; [|split].
    + destruct Hin as [Hin|Hin]; [|by right; right].
      rewrite <- Hin. destruct (Z.max_spec n x) as [[_ ->]|[_ ->]]; [right|]; by left.
    + lia.
    + constructor; [lia | done].
Qed.

Lemma lodash_max_spec l :
  match lodash_max l with
  | MinusInfinity => l = []
  | Finite m => In m l ∧ Forall (λ x, x ≤ m) l
  end.
Proof.
  destruct l as [|n l]; simpl; [done|].
  destruct (fold_max_spec l n) as (Hin & Hle & Hall). split; [done|]. by constructor.
Qed.

(** X17: the energy capacity a constructed SpawnGroup works with is minus
    infinity exactly when it draws on no colony; otherwise it is the energy
    capacity of one of its colonies' rooms, and no colony of the group has
    more. *)
Theorem group_energy_is_largest W initializer settings memory :
  let sg := fst (new_SpawnGroup W initializer settings memory) in
  (sg_energyCapacityAvailable sg = MinusInfinity ↔ sg_colonyNames sg = [])
  ∧ (∀ m, sg_energyCapacityAvailable sg = Finite m →
       (∃ name room, In name (sg_colonyNames sg) ∧ Game_rooms W !! name = Some room
                     ∧ r_energyCapacityAvailable room = m)
       ∧ (∀ name room, In name (sg_colonyNames sg) → Game_rooms W !! name = Some room →
            r_energyCapacityAvailable room ≤ m)).
Proof.
  intros sg.
  destruct (constructor_fields W initializer settings memory) as (_ & _ & Hnames & Hen).
  fold sg in Hnames, Hen. rewrite Hen.
  assert (Hrooms : ∀ name, In name (sg_colonyNames sg) → is_Some (Game_rooms W !! name)).
  { intros name Hin. rewrite Hnames in Hin. apply filter_In in Hin as [_ Hok].
    unfold colony_usable in Hok. destruct (mem_distances _ !! name); [|done].
    destruct (Game_rooms W !! name); [eauto | by rewrite andb_false_r in Hok]. }
  pose proof (lodash_max_spec
    (omap (λ name, r_energyCapacityAvailable <$> Game_rooms W !! name)
       (sg_colonyNames sg))) as Hmax.
  destruct (lodash_max _) as [|m] eqn:E.
  - split; [|done]. split; [|done]. intros _.
    destruct (sg_colonyNames sg) as [|name names]; [done|].
    destruct (Hrooms name) as [room Hroom]; [by left|].
    simpl in Hmax. rewrite Hroom in Hmax. done.
  - destruct Hmax as [Hin Hall]. split.
    + split; [done|]. intros Hnil. rewrite Hnil in Hin. done.
    + intros m' [= <-]. split.
      * apply list_elem_of_In, list_elem_of_omap in Hin as (name & Hname & Hf).
        destruct (Game_rooms W !! name) as [room|] eqn:Er; [|done].
        exists name, room. injection Hf as <-. by rewrite <- list_elem_of_In.
      * intros name room Hname Hroom. rewrite List.Forall_forall in Hall.
        apply Hall. apply list_elem_of_In, list_elem_of_omap.
        exists name. rewrite Hroom. by rewrite list_elem_of_In.
Qed.

Lemma group_energy_is_largest_witness :
  sg_energyCapacityAvailable (fst (new_SpawnGroup three_colonies anchorW2N2 noSettings ∅))
  ≠ MinusInfinity
  ∧ ∃ m name room,
      In name (sg_colonyNames (fst (new_SpawnGroup three_colonies anchorW2N2 noSettings ∅)))
      ∧ Game_rooms three_colonies !! name = Some room
      ∧ r_energyCapacityAvailable room = m.
Proof.
  destruct (group_energy_is_largest three_colonies anchorW2N2 noSettings ∅) as [Hnone Hmax].
  split.
  - intros Hinf. apply Hnone in Hinf. vm_compute in Hinf. discriminate.
  - destruct (sg_energyCapacityAvailable
                (fst (new_SpawnGroup three_colonies anchorW2N2 noSettings ∅))) as [|m] eqn:E.
    + vm_compute in E. discriminate.
    + exists m. destruct (Hmax m eq_refl) as [(name & room & H) _]. by exists name, room.
Defined.

(** ** Where the requests end up *)

Lemma hatchery_of_insert cols w best h name :
  hatchery_of (mkOvermind (<[best := Some h]> cols) w) name
  = if decide (best = name) then Some h else hatchery_of (mkOvermind cols w) name.
Proof. unfold hatchery_of. simpl. rewrite lookup_insert. by case_decide. Qed.

Lemma total_queued_insert names om best h request :
  NoDup names → In best names → hatchery_of om best = Some h →
  ∀ om', om_colonies om' = <[best := Some (hatchery_enqueue request h)]> (om_colonies om) →
  total_queued names om' = S (total_queued names om).
Proof.
  intros Hnd Hin Hh om' Hom'.
  assert (Hq : ∀ name, queued om' name
               = if decide (best = name) then S (queued om name) else queued om name).
  { intros name. unfold queued, hatchery_of in *. rewrite Hom', lookup_insert.
    case_decide as Hb; [|done]. subst name. rewrite Hh. simpl.
    rewrite length_app. simpl. lia. }
  unfold total_queued. induction names as [|n names IH]; [done|].
  apply NoDup_cons in Hnd as [Hn Hnd]. simpl. rewrite Hq.
  destruct Hin as [->|Hin].
  - rewrite decide_True by done. f_equal.
    assert (Hsame : map (queued om') names = map (queued om) names).
    { apply map_ext_in. intros a Ha. rewrite Hq. rewrite decide_False; [done|].
      intros <-. apply Hn. by apply list_elem_of_In. }
    simpl. by rewrite Hsame.
  - rewrite decide_False by (intros <-; apply Hn; by apply list_elem_of_In).
    rewrite IH by done. lia.
Qed.

Lemma total_queued_same names om om' :
  om_colonies om' = om_colonies om → total_queued names om' = total_queued names om.
Proof.
  intros H. unfold total_queued. f_equal. apply map_ext. intros name.
  unfold queued, hatchery_of. by rewrite H.
Qed.

(** X18: no request is lost and none is duplicated: after
    [SpawnGroup.init], the requests queued at the hatcheries of the group's
    colonies and the warnings logged have grown, together, by exactly the
    number of buffered requests. *)
Theorem requests_are_conserved memory sg om names :
  NoDup names →
  (∀ name, In name (sg_colonyNames sg) → In name names) →
  let om' := SpawnGroup_init memory sg om in
  (total_queued names om' + length (om_warnings om')
   = total_queued names om + length (om_warnings om) + length (sg_requests sg))%nat.
Proof.
  intros Hnd Hsub om'. subst om'. unfold SpawnGroup_init.
  assert (Hhat : ∀ name, In name (collect_hatcheries sg om) → In name names).
  { intros name Hin. apply filter_In in Hin as [Hin _]. by apply Hsub. }
  generalize dependent (collect_hatcheries sg om). intros hatcheries Hhat.
  generalize om. induction (sg_requests sg) as [|r rs IH]; intros om0; simpl; [lia|].
  rewrite IH.
  destruct (assign_request_step (this_memory memory (sg_roomName sg)) sg hatcheries om0 r)
    as [[Hc Hw]|(best & h & Hin & Hh & Hc & Hw)].
  - rewrite (total_queued_same _ _ _ Hc), Hw, length_app. simpl. lia.
  - rewrite (total_queued_insert names om0 best h r Hnd (Hhat _ Hin) Hh _ Hc), Hw. lia.
Qed.

Lemma requests_are_conserved_witness :
  (total_queued ["W1N1"; "W2N1"; "W3N1"]
     (SpawnGroup_init cachedDistances (groupW2N2 [smallCreep; hugeCreep; smallCreep])
        three_producers)
   + length (om_warnings
               (SpawnGroup_init cachedDistances
                  (groupW2N2 [smallCreep; hugeCreep; smallCreep]) three_producers))
   = 3)%nat.
Proof.
  apply (requests_are_conserved cachedDistances
           (groupW2N2 (cons smallCreep (cons hugeCreep (cons smallCreep nil))))
           three_producers (cons "W1N1" (cons "W2N1" (cons "W3N1" nil)))).
  - apply (bool_decide_unpack _). vm_compute. reflexivity.
  - intros name Hin. exact Hin.
Defined.


(** ** What the loop leaves alone *)

Lemma queue_extended_refl h : queue_extended [] h h.
Proof.
  repeat split. exists []. split; [by rewrite app_nil_r | constructor].
Qed.

Lemma queue_extended_later r rs h h' :
  queue_extended rs h h' → queue_extended (r :: rs) h h'.
Proof.
  intros (H1 & H2 & H3 & added & Hq & Hsub). repeat split; try done.
  exists added. split; [done | by apply sublist_cons].
Qed.

Lemma queue_extended_first r rs h h' :
  queue_extended rs (hatchery_enqueue r h) h' → queue_extended (r :: rs) h h'.
Proof.
  intros (H1 & H2 & H3 & added & Hq & Hsub). simpl in *. repeat split; try done.
  exists (r :: added). split; [by rewrite Hq, <- app_assoc | by apply sublist_skip].
Qed.

Lemma fold_assign_extends mem sg hatcheries requests om :
  let om' := fold_left (assign_request mem sg hatcheries) requests om in
  (∀ name, ¬ In name hatcheries → om_colonies om' !! name = om_colonies om !! name)
  ∧ (∀ name h, hatchery_of om name = Some h →
       ∃ h', hatchery_of om' name = Some h' ∧ queue_extended requests h h')
  ∧ (∃ dropped, sublist dropped requests
       ∧ om_warnings om'
         = om_warnings om ++ map (λ r, warning_text r (sg_roomName sg)) dropped).
Proof.
  revert om. induction requests as [|r rs IH]; intros om; cbn [fold_left].
  - split; [done|]. split.
    + intros name h Hh. exists h. split; [done | apply queue_extended_refl].
    + exists []. split; [constructor | by rewrite app_nil_r].
  - destruct (IH (assign_request mem sg hatcheries om r)) as (Hout & Hq & dropped & Hsub & Hw).
    destruct (assign_request_step mem sg hatcheries om r)
      as [[Hc Hw1]|(best & h0 & Hin & Hh0 & Hc & Hw1)].
    + split; [|split].
      * intros name Hname. rewrite Hout by done. by rewrite Hc.
      * intros name h Hh.
        destruct (Hq name h) as (h' & Hh' & Hext);
          [unfold hatchery_of in *; by rewrite Hc|].
        exists h'. split; [done | by apply queue_extended_later].
      * exists (r :: dropped). split; [by apply sublist_skip|].
        rewrite Hw, Hw1, <- app_assoc. done.
    + split; [|split].
      * intros name Hname. rewrite Hout by done. rewrite Hc.
        apply lookup_insert_ne. by intros <-.
      * intros name h Hh. destruct (decide (best = name)) as [<-|Hne].
        -- assert (h = h0) as -> by congruence.
           destruct (Hq best (hatchery_enqueue r h0)) as (h' & Hh' & Hext).
           { unfold hatchery_of. by rewrite Hc, lookup_insert_eq. }
           exists h'. split; [done | by apply queue_extended_first].
        -- destruct (Hq name h) as (h' & Hh' & Hext).
           { unfold hatchery_of in *. by rewrite Hc, lookup_insert_ne. }
           exists h'. split; [done | by apply queue_extended_later].
      * exists dropped. split; [by apply sublist_cons|]. by rewrite Hw, Hw1.
Qed.

(** X19: [SpawnGroup.init] only ever appends.  A colony that is not one of
    the group's colonies with a hatchery is left exactly as it was; a
    hatchery keeps its room, its capacity and the requests it already held,
    and what is added to its queue is a selection of the buffered requests
    in their order; the warnings already logged stay, followed by one
    warning for each request of a selection of the buffered ones, in their
    order. *)
Theorem init_only_appends memory sg om :
  let om' := SpawnGroup_init memory sg om in
  (∀ name, ¬ In name (collect_hatcheries sg om) →
     om_colonies om' !! name = om_colonies om !! name)
  ∧ (∀ name h, hatchery_of om name = Some h →
       ∃ h', hatchery_of om' name = Some h' ∧ queue_extended (sg_requests sg) h h')
  ∧ (∃ dropped, sublist dropped (sg_requests sg)
       ∧ om_warnings om'
         = om_warnings om ++ map (λ r, warning_text r (sg_roomName sg)) dropped).
Proof. apply fold_assign_extends. Qed.

(** X20: a group none of whose colonies has a hatchery serves nobody: every
    buffered request is answered by its warning, in the order of the
    requests, and no colony changes. *)
Theorem group_without_hatchery_drops_all memory sg om :
  collect_hatcheries sg om = [] →
  let om' := SpawnGroup_init memory sg om in
  om_colonies om' = om_colonies om
  ∧ om_warnings om'
    = om_warnings om ++ map (λ r, warning_text r (sg_roomName sg)) (sg_requests sg).
Proof.
  intros Hnone om'. subst om'. unfold SpawnGroup_init. rewrite Hnone.
  generalize om. induction (sg_requests sg) as [|r rs IH]; intros om0; cbn [fold_left map].
  - by rewrite app_nil_r.
  - destruct (IH (assign_request (this_memory memory (sg_roomName sg)) sg [] om0 r))
      as [Hc Hw].
    rewrite Hc, Hw. unfold assign_request. simpl. by rewrite <- app_assoc.
Qed.

Lemma init_only_appends_witness :
  ∃ h', hatchery_of (SpawnGroup_init cachedDistances
                       (groupW2N2 [smallCreep; hugeCreep; smallCreep]) three_producers)
          "W3N1" = Some h'
        ∧ queue_extended [smallCreep; hugeCreep; smallCreep] (hatcheryAt "W3N1" 5) h'.
Proof.
  destruct (init_only_appends cachedDistances
              (groupW2N2 (cons smallCreep (cons hugeCreep (cons smallCreep nil))))
              three_producers) as (_ & Hq & _).
  apply (Hq "W3N1" (hatcheryAt "W3N1" 5)). vm_compute. reflexivity.
Defined.

Lemma group_without_hatchery_drops_all_witness :
  om_warnings (SpawnGroup_init cachedDistances (groupW2N2 [smallCreep; hugeCreep])
                 (mkOvermind (list_to_map [("W1N1", None); ("W9N9", Some (hatcheryAt "W9N9" 0))])
                    []))
  = ["Could not enqueue creep zergling from spawnGroup in W2N2";
     "Could not enqueue creep hydralisk from spawnGroup in W2N2"].
Proof.
  apply (group_without_hatchery_drops_all cachedDistances
           (groupW2N2 (cons smallCreep (cons hugeCreep nil)))
           (mkOvermind (list_to_map (cons ("W1N1", None)
                                       (cons ("W9N9", Some (hatcheryAt "W9N9" 0)) nil)))
              nil)).
  vm_compute. reflexivity.
Defined.
